(** * Verification of the FAQ retrieval and answer-orchestration pipeline

    A shallow embedding of the Python sources

    - [app/security/pii_detector.py]   (module [Redactor]),
    - [app/retriever/vector_store.py]  (module [VectorStore]),
    - [app/retriever/hybrid_search.py] (module [Hybrid]),
    - [app/agent/tools.py]             (module [Tools]),
    - [app/llm/gemini_client.py]       (module [Gemini]),
    - [app/agent/orchestrator.py]      (module [Orchestrator]),

    together with the properties stated about them.

    Conventions.  A Python [str] is a list of Unicode code points
    ([pystr]); a passage or result [dict] is a finite map from field
    names to Python values; a Python [float] is a binary64 number
    ([PrimFloat.float]), so that score arithmetic is the interpreter's
    own.  Library calls whose code is not part of the repository
    ([datetime.strptime], the FAISS index, the BM25 scorer, the
    generative model, the Unicode tables behind [\w] and [\d]) are
    Section variables. *)

From Stdlib Require Import ZArith NArith List String Ascii Floats Lia Bool.
From Stdlib Require Import Sorting.Sorted Sorting.Permutation.
From stdpp Require Import gmap strings.
Import ListNotations.

Set Warnings "-inexact-float,-register-all".

Local Open Scope string_scope.
Local Open Scope list_scope.

(* ===================================================================== *)
(** * Python values *)
(* ===================================================================== *)

Module Py.

(** A Python [str]: the sequence of its code points. *)
Definition pystr := list N.

(** Decoder from the UTF-8 bytes of a Rocq string literal, so that
    source literals can be written as they appear in the Python files. *)
Fixpoint utf8_dec (s : string) (pend : nat) (acc : N) : pystr :=
  match s with
  | EmptyString => []
  | String c r =>
      let b := N_of_ascii c in
      match pend with
      | O => if (b <? 128)%N then b :: utf8_dec r 0 0%N
             else if (b <? 224)%N then utf8_dec r 1 (b - 192)%N
             else if (b <? 240)%N then utf8_dec r 2 (b - 224)%N
             else utf8_dec r 3 (b - 240)%N
      | S O => (acc * 64 + (b - 128))%N :: utf8_dec r 0 0%N
      | S p => utf8_dec r p (acc * 64 + (b - 128))%N
      end
  end.

Definition utf8 (s : string) : pystr := utf8_dec s 0 0%N.

(** [a == b] on strings. *)
Fixpoint str_eqb (a b : pystr) : bool :=
  match a, b with
  | [], [] => true
  | x :: a', y :: b' => (x =? y)%N && str_eqb a' b'
  | _, _ => false
  end.

(** [s.startswith(p)] *)
Fixpoint startswith (s p : pystr) : bool :=
  match p, s with
  | [], _ => true
  | y :: p', x :: s' => (x =? y)%N && startswith s' p'
  | _ :: _, [] => false
  end.

(** [str.isspace] of a single character, which is also what [\s]
    matches: the white-space table of the interpreter. *)
Definition is_space (c : N) : bool :=
  ((9 <=? c) && (c <=? 13) || (28 <=? c) && (c <=? 32)
   || (c =? 133) || (c =? 160) || (c =? 5760)
   || (8192 <=? c) && (c <=? 8202)
   || (c =? 8232) || (c =? 8233) || (c =? 8239) || (c =? 8287)
   || (c =? 12288))%N.

(** [s.lstrip()], [s.rstrip()], [s.strip()] *)
Fixpoint lstrip (s : pystr) : pystr :=
  match s with
  | c :: s' => if is_space c then lstrip s' else s
  | [] => []
  end.

Definition rstrip (s : pystr) : pystr := rev (lstrip (rev s)).

Definition strip (s : pystr) : pystr := rstrip (lstrip s).

(** [s.split(sep)] for a one-character separator: the pieces between
    the separators, empty pieces included. *)
Fixpoint split_on (sep : N) (s : pystr) : list pystr :=
  match s with
  | [] => [[]]
  | c :: s' =>
      match split_on sep s' with
      | piece :: pieces =>
          if (c =? sep)%N then [] :: piece :: pieces
          else (c :: piece) :: pieces
      | [] => [[c]]
      end
  end.

(** [sep.join(l)] *)
Fixpoint join (sep : pystr) (l : list pystr) : pystr :=
  match l with
  | [] => []
  | [x] => x
  | x :: l' => x ++ sep ++ join sep l'
  end.

(** The number of places of [s] at which [sub] occurs. *)
Fixpoint occurrences (sub s : pystr) : nat :=
  match s with
  | [] => 0
  | _ :: s' => (if startswith s sub then 1 else 0) + occurrences sub s'
  end.

(** The values of passage attributes: [None] or a string. *)
Inductive pyval : Type :=
| PNone
| PStr (s : pystr).

#[global] Instance pyval_eq_dec : EqDecision pyval.
Proof. solve_decision. Defined.

#[global] Instance pyval_countable : Countable pyval.
Proof.
  refine (inj_countable'
            (fun v => match v with PNone => None | PStr s => Some s end)
            (fun o => match o with None => PNone | Some s => PStr s end) _).
  intros []; reflexivity.
Defined.

(** Truth value of a Python object. *)
Definition truthy (v : pyval) : bool :=
  match v with
  | PNone => false
  | PStr [] => false
  | PStr (_ :: _) => true
  end.

(** A [dict] with string keys holding passage attributes. *)
Abbreviation pydict := (gmap string pyval).

(** [d.get(k, dflt)]; [d.get(k)] is [get d k PNone]. *)
Definition get (d : pydict) (k : string) (dflt : pyval) : pyval :=
  default dflt (d !! k).

(** A retrieval result: the dictionary built by [_format_result], held
    as its string-valued entries together with the float under the key
    ["score"] and, once [rerank] has run, the integer under the key
    ["rerank_score"]. *)
Record Result : Type :=
  mkResult { fields : pydict; score : float; rerank_score : option Z }.

(** [max(l) if len(l) > 0 else dflt] on floats: the first maximal
    element, found with [>]. *)
Definition py_max (l : list float) (dflt : float) : float :=
  match l with
  | [] => dflt
  | x :: r => fold_left (fun m y => if PrimFloat.ltb m y then y else m) r x
  end.

(** [l[idx]] for a Python integer index: negative indices count from
    the end; [None] stands for [IndexError]. *)
Definition py_index {A : Type} (l : list A) (idx : Z) : option A :=
  if (0 <=? idx)%Z then l !! Z.to_nat idx
  else if (- Z.of_nat (length l) <=? idx)%Z
       then l !! Z.to_nat (Z.of_nat (length l) + idx)
       else None.

(** An insertion-ordered [dict]: assignment to an existing key keeps
    the key's position. *)
Section OrderedDict.
Context {K V : Type} `{EqDecision K}.

Fixpoint dict_get (k : K) (d : list (K * V)) : option V :=
  match d with
  | [] => None
  | (k', v) :: d' => if decide (k = k') then Some v else dict_get k d'
  end.

Fixpoint dict_set (k : K) (v : V) (d : list (K * V)) : list (K * V) :=
  match d with
  | [] => [(k, v)]
  | (k', v') :: d' =>
      if decide (k = k') then (k, v) :: d' else (k', v') :: dict_set k v d'
  end.

Lemma dict_get_set_eq (k : K) (v : V) (d : list (K * V)) :
  dict_get k (dict_set k v d) = Some v.
Proof.
  induction d as [|[k' v'] d IH]; simpl.
  - now rewrite decide_True.
  - destruct (decide (k = k')) as [->|E]; simpl.
    + now rewrite decide_True.
    + now rewrite decide_False.
Qed.

Lemma dict_get_set_ne (k k' : K) (v : V) (d : list (K * V)) :
  k <> k' -> dict_get k' (dict_set k v d) = dict_get k' d.
Proof.
  intros Hne. induction d as [|[k0 v0] d IH]; simpl.
  - rewrite decide_False; [reflexivity|congruence].
  - destruct (decide (k = k0)) as [->|E]; simpl.
    + rewrite !decide_False; [reflexivity|congruence|congruence].
    + destruct (decide (k' = k0)); [reflexivity|exact IH].
Qed.

Lemma dict_get_elem_of (k : K) (v : V) (d : list (K * V)) :
  dict_get k d = Some v -> (k, v) ∈ d.
Proof.
  induction d as [|[k' v'] d IH]; simpl; [discriminate|].
  destruct (decide (k = k')) as [->|E].
  - intros [= ->]. left.
  - intros H. right. now apply IH.
Qed.

Lemma dict_set_keys (k : K) (v : V) (d : list (K * V)) :
  (dict_set k v d).*1 =
  match dict_get k d with Some _ => d.*1 | None => d.*1 ++ [k] end.
Proof.
  induction d as [|[k' v'] d IH]; [reflexivity|].
  cbn [dict_set dict_get].
  destruct (decide (k = k')) as [->|E]; [reflexivity|].
  rewrite !fmap_cons, IH. now destruct (dict_get k d).
Qed.

Lemma dict_get_None (k : K) (d : list (K * V)) :
  dict_get k d = None <-> k ∉ d.*1.
Proof.
  induction d as [|[k' v'] d IH]; simpl.
  - split; [intros _ H; inversion H|reflexivity].
  - rewrite not_elem_of_cons, <- IH.
    destruct (decide (k = k')); [|tauto].
    split; [discriminate|tauto].
Qed.

Lemma dict_set_NoDup (k : K) (v : V) (d : list (K * V)) :
  NoDup d.*1 -> NoDup (dict_set k v d).*1.
Proof.
  intros Hd. rewrite dict_set_keys.
  destruct (dict_get k d) eqn:E; [exact Hd|].
  apply dict_get_None in E.
  apply NoDup_app. split; [exact Hd|]. split.
  - intros x Hx Hk. apply list_elem_of_singleton in Hk as ->. contradiction.
  - apply NoDup_singleton.
Qed.

Lemma dict_elem_of_get (k : K) (v : V) (d : list (K * V)) :
  NoDup d.*1 -> (k, v) ∈ d -> dict_get k d = Some v.
Proof.
  induction d as [|[k' v'] d IH]; simpl; intros Hd Hin; [inversion Hin|].
  apply NoDup_cons in Hd as [Hk Hd].
  apply elem_of_cons in Hin as [[= -> ->]|Hin].
  - now rewrite decide_True.
  - rewrite decide_False; [now apply IH|].
    intros ->. apply Hk. apply list_elem_of_fmap. now exists (k', v).
Qed.

End OrderedDict.

(** The values [json.loads] produces. *)
Inductive json : Type :=
| JNull
| JBool (b : bool)
| JInt (z : Z)
| JFloat (f : float)
| JStr (s : pystr)
| JList (l : list json)
| JDict (d : list (pystr * json)).

Definition json_truthy (v : json) : bool :=
  match v with
  | JNull => false
  | JBool b => b
  | JInt z => negb (z =? 0)%Z
  | JFloat f => negb (PrimFloat.eqb f 0)
  | JStr s => negb (bool_decide (s = []))
  | JList l => negb (bool_decide (length l = 0))
  | JDict d => negb (bool_decide (length d = 0))
  end.

Definition json_of (v : pyval) : json :=
  match v with
  | PNone => JNull
  | PStr s => JStr s
  end.

(** [sorted(l, key=key, reverse=True)]: the stable sort into descending
    key order.  Elements whose keys compare equal keep their input
    order, as Python guarantees also under [reverse=True]. *)
Section SortedDesc.
Context {A K : Type} (lt : K -> K -> bool) (key : A -> K).

Fixpoint insert_desc (x : A) (l : list A) : list A :=
  match l with
  | [] => [x]
  | y :: l' => if lt (key x) (key y) then y :: insert_desc x l' else x :: l
  end.

Fixpoint sorted_desc (l : list A) : list A :=
  match l with
  | [] => []
  | x :: l' => insert_desc x (sorted_desc l')
  end.

Lemma insert_desc_perm (x : A) (l : list A) :
  Permutation (insert_desc x l) (x :: l).
Proof.
  induction l as [|y l IH]; simpl; [reflexivity|].
  destruct (lt (key x) (key y)); [|reflexivity].
  rewrite IH. apply perm_swap.
Qed.

Lemma sorted_desc_perm (l : list A) : Permutation (sorted_desc l) l.
Proof.
  induction l as [|x l IH]; simpl; [reflexivity|].
  rewrite insert_desc_perm. now constructor.
Qed.

Lemma sorted_desc_length (l : list A) : length (sorted_desc l) = length l.
Proof. apply Permutation_length, sorted_desc_perm. Qed.

(** Two elements are in descending order when the first is not below
    the second. *)
Definition desc (a b : A) : Prop := lt (key a) (key b) = false.

Hypothesis lt_asym : forall a b, lt a b = true -> lt b a = false.
Hypothesis lt_negtrans :
  forall a b c, lt a b = false -> lt b c = false -> lt a c = false.

Lemma insert_desc_sorted (x : A) (l : list A) :
  StronglySorted desc l -> StronglySorted desc (insert_desc x l).
Proof.
  induction 1 as [|y l Hl IH Hy]; simpl.
  - repeat constructor.
  - destruct (lt (key x) (key y)) eqn:E.
    + constructor; [exact IH|].
      eapply Permutation_Forall; [symmetry; apply insert_desc_perm|].
      constructor; [|exact Hy].
      now apply lt_asym.
    + constructor; [now constructor|].
      constructor; [exact E|].
      eapply Forall_impl; [exact Hy|].
      intros z Hz. now apply (lt_negtrans _ (key y)).
Qed.

Lemma sorted_desc_sorted (l : list A) : StronglySorted desc (sorted_desc l).
Proof.
  induction l as [|x l IH]; simpl; [constructor|].
  now apply insert_desc_sorted.
Qed.

(** Stability: the sort does not reorder elements that a key-closed
    predicate selects. *)
Lemma insert_desc_filter (p : A -> bool) (x : A) (l : list A) :
  (forall y, p x = true -> p y = true -> lt (key x) (key y) = false) ->
  List.filter p (insert_desc x l) = List.filter p (x :: l).
Proof.
  intros Hp. induction l as [|y l IH]; [reflexivity|].
  simpl. destruct (lt (key x) (key y)) eqn:E; [|reflexivity].
  simpl. rewrite IH. simpl.
  destruct (p x) eqn:Px, (p y) eqn:Py; try reflexivity.
  rewrite (Hp y eq_refl Py) in E. discriminate.
Qed.

End SortedDesc.

(** Sorted lists: sublists, weaker orders, and sorting again. *)
Lemma StronglySorted_sublist {A : Type} (R : A -> A -> Prop) (l1 l2 : list A) :
  sublist l1 l2 -> StronglySorted R l2 -> StronglySorted R l1.
Proof.
  induction 1 as [|x l1 l2 Hs IH|x l1 l2 Hs IH]; intros Hsorted.
  - constructor.
  - apply StronglySorted_inv in Hsorted as [H1 H2].
    constructor; [now apply IH|].
    rewrite Forall_forall in H2 |- *. intros y Hy.
    apply H2. eapply elem_of_sublist; eassumption.
  - apply StronglySorted_inv in Hsorted as [H1 _]. now apply IH.
Qed.

Lemma StronglySorted_weaken {A : Type} (R R' : A -> A -> Prop) (l : list A) :
  (forall a b, R a b -> R' a b) -> StronglySorted R l -> StronglySorted R' l.
Proof.
  intros HR. induction 1 as [|a l _ IH Ha]; constructor; [exact IH|].
  eapply Forall_impl; [exact Ha|]. intros b. apply HR.
Qed.

Lemma StronglySorted_weaken_on {A : Type} (P : A -> Prop)
    (R R' : A -> A -> Prop) (l : list A) :
  (forall a b, P a -> P b -> R a b -> R' a b) ->
  Forall P l -> StronglySorted R l -> StronglySorted R' l.
Proof.
  intros HR HP. induction 1 as [|a l _ IH Ha]; [constructor|].
  apply Forall_cons in HP as [Pa Pl].
  constructor; [now apply IH|].
  rewrite Forall_forall in Ha, Pl |- *. intros b Hb.
  apply HR; [exact Pa|now apply Pl|now apply Ha].
Qed.

Lemma StronglySorted_fmap {A B : Type} (f : A -> B) (R : B -> B -> Prop)
    (l : list A) :
  StronglySorted (fun a b => R (f a) (f b)) l -> StronglySorted R (map f l).
Proof.
  induction 1 as [|a l _ IH Ha]; simpl; [constructor|].
  constructor; [exact IH|]. now apply Forall_fmap.
Qed.

Lemma StronglySorted_of_fmap {A B : Type} (f : A -> B) (R : B -> B -> Prop)
    (l : list A) :
  StronglySorted R (map f l) -> StronglySorted (fun a b => R (f a) (f b)) l.
Proof.
  induction l as [|a l IH]; simpl; intros H; [constructor|].
  apply StronglySorted_inv in H as [H1 H2].
  constructor; [now apply IH|].
  clear -H2. induction l as [|b l IH]; simpl in H2; [constructor|].
  apply Forall_cons in H2 as [Hb Hl]. constructor; [exact Hb|now apply IH].
Qed.

Lemma sorted_desc_fixed {A K : Type} (lt : K -> K -> bool) (key : A -> K)
    (l : list A) :
  StronglySorted (desc lt key) l -> sorted_desc lt key l = l.
Proof.
  induction 1 as [|a l _ IH Ha]; simpl; [reflexivity|].
  rewrite IH. destruct l as [|b l]; [reflexivity|]. simpl.
  apply Forall_cons in Ha as [Hab _]. unfold desc in Hab. now rewrite Hab.
Qed.

(** Sorting where the comparison is an order on the keys at hand only,
    as [<] on floats is on those that are numbers. *)
Lemma sorted_desc_sorted_on {A K : Type} (lt : K -> K -> bool) (key : A -> K)
    (good : K -> Prop) (l : list A) :
  (forall a b, lt a b = true -> lt b a = false) ->
  (forall a b c, good b -> lt a b = false -> lt b c = false -> lt a c = false) ->
  Forall (fun x => good (key x)) l ->
  StronglySorted (desc lt key) (sorted_desc lt key l).
Proof.
  intros Hasym Hneg. induction 1 as [|x l Hx Hl IH]; simpl; [constructor|].
  assert (Hgood : Forall (fun y => good (key y)) (sorted_desc lt key l)).
  { eapply Permutation_Forall; [symmetry; apply sorted_desc_perm|exact Hl]. }
  clear Hl Hx. revert IH Hgood. generalize (sorted_desc lt key l) as s.
  induction s as [|y s IHs]; intros Hs Hg; simpl.
  - repeat constructor.
  - apply StronglySorted_inv in Hs as [Hs Hy].
    apply Forall_cons in Hg as [Hgy Hg].
    destruct (lt (key x) (key y)) eqn:E.
    + constructor; [now apply IHs|].
      eapply Permutation_Forall; [symmetry; apply insert_desc_perm|].
      constructor; [|exact Hy]. now apply Hasym.
    + constructor; [now constructor|].
      constructor; [exact E|].
      eapply Forall_impl; [exact Hy|].
      intros z Hz. now apply (Hneg _ (key y)).
Qed.

(** *** The order of floats

    [<] and [<=] on floats that are not NaN, from their specification
    on sign, exponent and mantissa. *)
Ltac compare_cases :=
  repeat match goal with
  | H : context [(?a ?= ?b)%Z] |- _ =>
      destruct (Z.compare_spec a b); simpl in H
  | |- context [(?a ?= ?b)%Z] => destruct (Z.compare_spec a b); simpl
  | H : context [Pos.compare_cont Eq ?a ?b] |- _ =>
      change (Pos.compare_cont Eq a b) with (Pos.compare a b) in H;
      destruct (Pos.compare_spec a b); simpl in H
  | |- context [Pos.compare_cont Eq ?a ?b] =>
      change (Pos.compare_cont Eq a b) with (Pos.compare a b);
      destruct (Pos.compare_spec a b); simpl
  end.

Lemma SFltb_negtrans (a b c : spec_float) :
  b <> S754_nan ->
  SFltb a b = false -> SFltb b c = false -> SFltb a c = false.
Proof.
  unfold SFltb, SFcompare.
  destruct a as [sa|sa| |sa ma ea], b as [sb|sb| |sb mb eb],
    c as [sc|sc| |sc mc ec]; intros Hb; try congruence; try reflexivity;
    try destruct sa; try destruct sb; try destruct sc; simpl;
    try congruence; intros H1 H2; compare_cases;
    try congruence; try reflexivity; try lia.
Qed.

Lemma SFltb_leb (a b : spec_float) :
  a <> S754_nan -> b <> S754_nan -> SFltb a b = false -> SFleb b a = true.
Proof.
  unfold SFltb, SFleb, SFcompare.
  destruct a as [sa|sa| |sa ma ea], b as [sb|sb| |sb mb eb];
    intros Ha Hb; try congruence; try reflexivity;
    try destruct sa; try destruct sb; simpl;
    try congruence; intros H1; compare_cases;
    try congruence; try reflexivity; try lia.
Qed.

Lemma SFltb_asym (a b : spec_float) : SFltb a b = true -> SFltb b a = false.
Proof.
  unfold SFltb, SFcompare.
  destruct a as [sa|sa| |sa ma ea], b as [sb|sb| |sb mb eb];
    try congruence; try reflexivity;
    try destruct sa; try destruct sb; simpl;
    try congruence; intros H1; compare_cases;
    try congruence; try reflexivity; try lia.
Qed.

Lemma not_nan (x : float) : is_nan x = false -> Prim2SF x <> S754_nan.
Proof.
  unfold is_nan. rewrite FloatAxioms.eqb_spec. intros H E. rewrite E in H.
  discriminate.
Qed.

Lemma float_ltb_asym (a b : float) :
  (a <? b)%float = true -> (b <? a)%float = false.
Proof. rewrite !ltb_spec. apply SFltb_asym. Qed.

Lemma float_ltb_negtrans (a b c : float) :
  is_nan b = false ->
  (a <? b)%float = false -> (b <? c)%float = false -> (a <? c)%float = false.
Proof. rewrite !ltb_spec. intros Hb. now apply SFltb_negtrans, not_nan. Qed.

Lemma float_ltb_leb (a b : float) :
  is_nan a = false -> is_nan b = false ->
  (a <? b)%float = false -> (b <=? a)%float = true.
Proof.
  rewrite ltb_spec, leb_spec. intros Ha Hb.
  apply SFltb_leb; now apply not_nan.
Qed.

End Py.

Import Py.

(* ===================================================================== *)
(** * app/security/pii_detector.py *)
(* ===================================================================== *)

Module Redactor.

(** ** Regular expressions

    The patterns of [PII_PATTERNS] are sequences of literals, character
    classes with a repetition count, and alternations of literals.  They
    are matched as [re] matches them: quantifiers are greedy and give
    characters back on failure, alternatives are tried in order. *)

Inductive item : Type :=
| Lit (s : pystr)                     (* literal text *)
| Alt (alts : list pystr)             (* (a|b|c) *)
| AtLeast (n : nat) (cls : N -> bool) (* [cls]{n,}; a starred class has n = 0 *)
| Exactly (n : nat) (cls : N -> bool) (* [cls]{n} *)
| Opt (cls : N -> bool).              (* [cls]? *)

(** Under [re.IGNORECASE] a literal ASCII letter matches both of its
    cases; the Hangul literals match themselves only. *)
Definition is_ascii_letter (c : N) : bool :=
  ((65 <=? c) && (c <=? 90) || (97 <=? c) && (c <=? 122))%N.

Definition ascii_lower (c : N) : N :=
  if ((65 <=? c) && (c <=? 90))%N then (c + 32)%N else c.

Definition lit_eqb (l c : N) : bool :=
  (c =? l)%N
  || is_ascii_letter l && is_ascii_letter c
     && (ascii_lower c =? ascii_lower l)%N.

(** [s] begins with the literal [l]. *)
Fixpoint lit_prefix (l s : pystr) : bool :=
  match l, s with
  | [], _ => true
  | a :: l', c :: s' => lit_eqb a c && lit_prefix l' s'
  | _ :: _, [] => false
  end.

(** Length of the longest prefix of [s] inside the class. *)
Fixpoint run_length (cls : N -> bool) (s : pystr) : nat :=
  match s with
  | c :: s' => if cls c then S (run_length cls s') else 0
  | [] => 0
  end.

Section Matching.

(** The rest of the pattern, applied to what remains of the text. *)
Variable rest : pystr -> option nat.

(** The alternatives in their order. *)
Fixpoint try_alts (alts : list pystr) (s : pystr) : option nat :=
  match alts with
  | [] => None
  | a :: alts' =>
      match (if lit_prefix a s then rest (drop (length a) s) else None) with
      | Some n => Some (length a + n)
      | None => try_alts alts' s
      end
  end.

(** A greedy repetition that has [extra] characters to give back beyond
    its minimum [n]. *)
Fixpoint try_counts (n extra : nat) (s : pystr) : option nat :=
  match rest (drop (n + extra) s) with
  | Some m => Some (n + extra + m)
  | None =>
      match extra with
      | O => None
      | S extra' => try_counts n extra' s
      end
  end.

End Matching.

(** [pattern.match] at the start of [s]: the length of the match. *)
Fixpoint match_items (p : list item) (s : pystr) : option nat :=
  match p with
  | [] => Some 0
  | Lit l :: p' => try_alts (match_items p') [l] s
  | Alt alts :: p' => try_alts (match_items p') alts s
  | AtLeast n cls :: p' =>
      let r := run_length cls s in
      if (n <=? r)%nat then try_counts (match_items p') n (r - n) s else None
  | Exactly n cls :: p' =>
      if (n <=? run_length cls s)%nat
      then try_counts (match_items p') n 0 s else None
  | Opt cls :: p' =>
      let r := Nat.min 1 (run_length cls s) in
      try_counts (match_items p') 0 r s
  end.

(** [re.finditer]: the spans of the successive matches, found from left
    to right, each search starting where the previous match ended.
    [skip] counts the characters still covered by the last match. *)
Fixpoint finditer_from (p : list item) (text : pystr) (pos skip : nat)
  : list (nat * nat) :=
  match text with
  | [] => []
  | _ :: text' =>
      match skip with
      | S k => finditer_from p text' (S pos) k
      | O =>
          match match_items p text with
          | Some (S n) => (pos, pos + S n) :: finditer_from p text' (S pos) n
          | _ => finditer_from p text' (S pos) 0
          end
      end
  end.

Definition finditer (p : list item) (text : pystr) : list (nat * nat) :=
  finditer_from p text 0 0.

(** ** What the matcher accepts

    [accepts p s]: the pattern has a way to match the whole of [s].  The
    matcher finds a match where there is one (the first in its order of
    preference), and what it matches is accepted. *)

Fixpoint accepts (p : list item) (s : pystr) : Prop :=
  match p with
  | [] => s = []
  | Lit l :: p' =>
      exists a b, s = a ++ b /\ length a = length l /\
                  lit_prefix l a = true /\ accepts p' b
  | Alt alts :: p' =>
      exists l a b, l ∈ alts /\ s = a ++ b /\ length a = length l /\
                    lit_prefix l a = true /\ accepts p' b
  | AtLeast n cls :: p' =>
      exists a b, s = a ++ b /\ n <= length a /\
                  forallb cls a = true /\ accepts p' b
  | Exactly n cls :: p' =>
      exists a b, s = a ++ b /\ length a = n /\
                  forallb cls a = true /\ accepts p' b
  | Opt cls :: p' =>
      accepts p' s \/
      exists c b, s = c :: b /\ cls c = true /\ accepts p' b
  end.

Lemma lit_prefix_length (l s : pystr) :
  lit_prefix l s = true -> length l <= length s.
Proof.
  revert s. induction l as [|a l IH]; intros [|c s]; simpl; try lia;
    try discriminate.
  intros [_ H]%andb_true_iff. apply IH in H. lia.
Qed.

Lemma lit_prefix_take (l s : pystr) :
  lit_prefix l s = true -> lit_prefix l (take (length l) s) = true.
Proof.
  revert s. induction l as [|a l IH]; intros [|c s]; simpl; try reflexivity;
    try discriminate.
  intros [H1 H2]%andb_true_iff. rewrite H1. simpl. now apply IH.
Qed.

Lemma lit_prefix_app (l a b : pystr) :
  lit_prefix l a = true -> lit_prefix l (a ++ b) = true.
Proof.
  revert a. induction l as [|x l IH]; intros [|c a]; simpl; try reflexivity;
    try discriminate.
  intros [H1 H2]%andb_true_iff. rewrite H1. simpl. now apply IH.
Qed.

Lemma run_length_le (cls : N -> bool) (s : pystr) :
  run_length cls s <= length s.
Proof.
  induction s as [|c s IH]; simpl; [lia|]. destruct (cls c); simpl; lia.
Qed.

Lemma run_length_take (cls : N -> bool) (s : pystr) (k : nat) :
  k <= run_length cls s -> forallb cls (take k s) = true.
Proof.
  revert k. induction s as [|c s IH]; intros [|k]; simpl; try reflexivity.
  destruct (cls c) eqn:E; simpl; [|lia].
  intros H. apply IH. lia.
Qed.

Lemma run_length_app_ge (cls : N -> bool) (a b : pystr) :
  forallb cls a = true -> length a <= run_length cls (a ++ b).
Proof.
  induction a as [|c a IH]; simpl; [lia|].
  intros [H1 H2]%andb_true_iff. rewrite H1. simpl. apply IH in H2. lia.
Qed.

(** The character that ends a run is outside the class. *)
Definition stops (cls : N -> bool) (s : pystr) : Prop :=
  match s with
  | c :: _ => cls c = false
  | [] => True
  end.

Lemma run_length_stops (cls : N -> bool) (s : pystr) :
  stops cls (drop (run_length cls s) s).
Proof.
  induction s as [|c s IH]; simpl; [exact I|].
  destruct (cls c) eqn:E; simpl; [exact IH|exact E].
Qed.

Lemma run_length_all (cls : N -> bool) (a b : pystr) :
  forallb cls a = true -> stops cls b -> run_length cls (a ++ b) = length a.
Proof.
  induction a as [|c a IH]; simpl.
  - intros _. destruct b as [|c b]; simpl; [reflexivity|]. now intros ->.
  - intros [H1 H2]%andb_true_iff Hb. rewrite H1. f_equal. now apply IH.
Qed.

Section Continuation.

Variable rest : pystr -> option nat.

Lemma try_alts_Some (alts : list pystr) (s : pystr) (n : nat) :
  try_alts rest alts s = Some n ->
  exists a m, a ∈ alts /\ lit_prefix a s = true /\
              rest (drop (length a) s) = Some m /\ n = length a + m.
Proof.
  induction alts as [|a alts IH]; simpl; [discriminate|].
  destruct (lit_prefix a s) eqn:E.
  - destruct (rest (drop (length a) s)) as [m|] eqn:Hr.
    + intros [= <-]. exists a, m. repeat split; try assumption. left.
    + intros H. destruct (IH H) as (a' & m & Hin & H').
      exists a', m. split; [now right|exact H'].
  - intros H. destruct (IH H) as (a' & m & Hin & H').
    exists a', m. split; [now right|exact H'].
Qed.

Lemma try_alts_None (alts : list pystr) (s : pystr) :
  try_alts rest alts s = None ->
  forall a, a ∈ alts -> lit_prefix a s = true ->
            rest (drop (length a) s) = None.
Proof.
  induction alts as [|a alts IH]; simpl; intros H a' Hin Hp;
    [inversion Hin|].
  apply elem_of_cons in Hin as [->|Hin].
  - rewrite Hp in H. destruct (rest (drop (length a) s)); [discriminate|].
    reflexivity.
  - apply IH; try assumption.
    destruct (if lit_prefix a s then rest (drop (length a) s) else None);
      [discriminate|exact H].
Qed.

Lemma try_counts_Some (n extra : nat) (s : pystr) (v : nat) :
  try_counts rest n extra s = Some v ->
  exists k m, n <= k <= n + extra /\ rest (drop k s) = Some m /\ v = k + m.
Proof.
  induction extra as [|extra IH]; simpl.
  - destruct (rest (drop (n + 0) s)) as [m|] eqn:E; [|discriminate].
    intros [= <-]. exists (n + 0), m. repeat split; try assumption; lia.
  - destruct (rest (drop (n + S extra) s)) as [m|] eqn:E.
    + intros [= <-]. exists (n + S extra), m.
      repeat split; try assumption; lia.
    + intros H. destruct (IH H) as (k & m & Hk & H').
      exists k, m. split; [lia|exact H'].
Qed.

Lemma try_counts_None (n extra : nat) (s : pystr) :
  try_counts rest n extra s = None ->
  forall k, n <= k <= n + extra -> rest (drop k s) = None.
Proof.
  induction extra as [|extra IH]; simpl; intros H k Hk.
  - replace k with (n + 0) by lia.
    destruct (rest (drop (n + 0) s)); [discriminate|reflexivity].
  - destruct (rest (drop (n + S extra) s)) eqn:E; [discriminate|].
    destruct (decide (k = n + S extra)) as [->|Hne]; [exact E|].
    apply IH; [exact H|lia].
Qed.

End Continuation.

Lemma take_add_drop (s : pystr) (a b : nat) :
  take (a + b) s = take a s ++ take b (drop a s).
Proof. symmetry. apply take_take_drop. Qed.

(** Soundness. *)
Lemma match_items_accepts (p : list item) :
  forall s n, match_items p s = Some n ->
              n <= length s /\ accepts p (take n s).
Proof.
  induction p as [|it p IH]; intros s n; cbn [match_items accepts].
  - intros [= <-]. split; [lia|reflexivity].
  - destruct it as [l|alts|k cls|k cls|cls].
    + intros (a & m & Hin & Hp & Hr & ->)%try_alts_Some.
      apply list_elem_of_singleton in Hin as ->.
      destruct (IH _ _ Hr) as [Hm Ha]. rewrite length_drop in Hm.
      pose proof (lit_prefix_length _ _ Hp).
      split; [lia|]. exists (take (length l) s), (take m (drop (length l) s)).
      rewrite take_add_drop, length_take.
      repeat split; try assumption; [lia|now apply lit_prefix_take].
    + intros (a & m & Hin & Hp & Hr & ->)%try_alts_Some.
      destruct (IH _ _ Hr) as [Hm Ha]. rewrite length_drop in Hm.
      pose proof (lit_prefix_length _ _ Hp).
      split; [lia|].
      exists a, (take (length a) s), (take m (drop (length a) s)).
      rewrite take_add_drop, length_take.
      repeat split; try assumption; [lia|now apply lit_prefix_take].
    + destruct (k <=? run_length cls s)%nat eqn:E; [|discriminate].
      apply Nat.leb_le in E.
      intros (j & m & Hj & Hr & ->)%try_counts_Some.
      destruct (IH _ _ Hr) as [Hm Ha]. rewrite length_drop in Hm.
      pose proof (run_length_le cls s).
      split; [lia|]. exists (take j s), (take m (drop j s)).
      rewrite take_add_drop, length_take.
      repeat split; try assumption; [lia|apply run_length_take; lia].
    + destruct (k <=? run_length cls s)%nat eqn:E; [|discriminate].
      apply Nat.leb_le in E.
      intros (j & m & Hj & Hr & ->)%try_counts_Some.
      destruct (IH _ _ Hr) as [Hm Ha]. rewrite length_drop in Hm.
      pose proof (run_length_le cls s).
      split; [lia|]. exists (take j s), (take m (drop j s)).
      rewrite take_add_drop, length_take.
      repeat split; try assumption; [lia|apply run_length_take; lia].
    + intros (j & m & Hj & Hr & ->)%try_counts_Some.
      destruct (IH _ _ Hr) as [Hm Ha]. rewrite length_drop in Hm.
      destruct j as [|j].
      * rewrite drop_0 in Ha. simpl in *. split; [lia|]. left. exact Ha.
      * assert (j = 0) as -> by lia.
        destruct s as [|c s]; simpl in *; [lia|].
        destruct (cls c) eqn:Ec; simpl in Hj; [|lia].
        split; [lia|]. right. exists c, (take m s).
        rewrite drop_0 in Ha. repeat split; assumption.
Qed.

(** Completeness. *)
Lemma accepts_match_items (p : list item) :
  forall a b, accepts p a -> exists n, match_items p (a ++ b) = Some n.
Proof.
  induction p as [|it p IH]; intros a b; cbn [match_items accepts].
  - intros ->. now exists 0.
  - assert (Hsome : forall o : option nat, o <> None -> exists n, o = Some n).
    { intros [n|] H; [now exists n|contradiction]. }
    destruct it as [l|alts|k cls|k cls|cls].
    + intros (a1 & a2 & -> & Hlen & Hp & Ha). apply Hsome. intros Hnone.
      destruct (IH a2 b Ha) as [m Hm].
      eapply try_alts_None in Hnone; [|left|].
      * rewrite <- Hlen, <- app_assoc, drop_app_length in Hnone. congruence.
      * rewrite <- app_assoc. now apply lit_prefix_app.
    + intros (l & a1 & a2 & Hin & -> & Hlen & Hp & Ha). apply Hsome.
      intros Hnone. destruct (IH a2 b Ha) as [m Hm].
      eapply try_alts_None in Hnone; [|exact Hin|].
      * rewrite <- Hlen, <- app_assoc, drop_app_length in Hnone. congruence.
      * rewrite <- app_assoc. now apply lit_prefix_app.
    + intros (a1 & a2 & -> & Hlen & Hc & Ha). apply Hsome.
      destruct (IH a2 b Ha) as [m Hm].
      pose proof (run_length_app_ge cls a1 (a2 ++ b) Hc) as Hr.
      rewrite <- app_assoc.
      rewrite (proj2 (Nat.leb_le _ _)) by lia. intros Hnone.
      apply try_counts_None with (k := (length a1)) in Hnone; [|lia].
      rewrite drop_app_length in Hnone. congruence.
    + intros (a1 & a2 & -> & Hlen & Hc & Ha). apply Hsome.
      destruct (IH a2 b Ha) as [m Hm].
      pose proof (run_length_app_ge cls a1 (a2 ++ b) Hc) as Hr.
      rewrite <- app_assoc.
      rewrite (proj2 (Nat.leb_le _ _)) by lia. intros Hnone.
      apply try_counts_None with (k := (length a1)) in Hnone; [|lia].
      rewrite drop_app_length in Hnone. congruence.
    + intros [Ha|(c & a2 & -> & Hc & Ha)]; apply Hsome; intros Hnone.
      * destruct (IH a b Ha) as [m Hm].
        apply try_counts_None with (k := 0) in Hnone; [|lia].
        rewrite drop_0 in Hnone. congruence.
      * destruct (IH a2 b Ha) as [m Hm].
        apply try_counts_None with (k := 1) in Hnone.
        -- simpl in Hnone. rewrite drop_0 in Hnone. congruence.
        -- simpl. rewrite Hc. simpl. lia.
Qed.

(** A match of a pattern that ends in a greedy class ends where a
    character outside the class, or the text, ends the run. *)
Lemma match_items_last (q : list item) (it : item) :
  forall s m, match_items (q ++ [it]) s = Some m ->
              exists k m', match_items [it] (drop k s) = Some m' /\ m = k + m'.
Proof.
  induction q as [|i q IH]; intros s m.
  - intros H. exists 0, m. now rewrite drop_0.
  - assert (Hk : forall k m1, match_items (q ++ [it]) (drop k s) = Some m1 ->
                   exists k' m', match_items [it] (drop k' s) = Some m'
                                 /\ k + m1 = k' + m').
    { intros k m1 H. destruct (IH _ _ H) as (k' & m' & H1 & ->).
      exists (k + k'), m'. rewrite drop_drop in H1. split; [exact H1|lia]. }
    change ((i :: q) ++ [it]) with (i :: (q ++ [it])).
    destruct i as [l|alts|k cls|k cls|cls]; cbn [match_items].
    + intros (a & m1 & _ & _ & Hr & ->)%try_alts_Some. now apply Hk.
    + intros (a & m1 & _ & _ & Hr & ->)%try_alts_Some. now apply Hk.
    + destruct (k <=? run_length cls s)%nat; [|discriminate].
      intros (j & m1 & _ & Hr & ->)%try_counts_Some. now apply Hk.
    + destruct (k <=? run_length cls s)%nat; [|discriminate].
      intros (j & m1 & _ & Hr & ->)%try_counts_Some. now apply Hk.
    + intros (j & m1 & _ & Hr & ->)%try_counts_Some. now apply Hk.
Qed.

Lemma match_items_greedy (q : list item) (n : nat) (cls : N -> bool) :
  forall s m, match_items (q ++ [AtLeast n cls]) s = Some m ->
              stops cls (drop m s).
Proof.
  intros s m H.
  destruct (match_items_last _ _ _ _ H) as (k & m' & H1 & ->).
  cbn [match_items] in H1.
  destruct (n <=? run_length cls (drop k s))%nat eqn:E; [|discriminate].
  apply Nat.leb_le in E.
  destruct (run_length cls (drop k s) - n) eqn:Ex; simpl in H1.
  - injection H1 as <-. rewrite <- drop_drop.
    replace (n + 0 + 0) with (run_length cls (drop k s)) by lia.
    apply run_length_stops.
  - injection H1 as <-. rewrite <- drop_drop.
    replace (n + S n0 + 0) with (run_length cls (drop k s)) by lia.
    apply run_length_stops.
Qed.

(** ** The pattern table *)

Section Patterns.

(** The Unicode tables behind [\w] and [\d]. *)
Variable is_word : N -> bool.
Variable is_digit : N -> bool.

Definition colon : N := 58.
Definition equals : N := 61.
Definition star : N := 42.
Definition hyphen : N := 45.

Definition is_sep (c : N) : bool := ((c =? colon) || (c =? equals))%N.

(** The character class of the password patterns: the word characters
    and every ASCII punctuation mark except the backquote and the
    tilde. *)
Definition is_password_char (c : N) : bool :=
  is_word c
  || ((33 <=? c) && (c <=? 47) || (58 <=? c) && (c <=? 64)
      || (91 <=? c) && (c <=? 95) || (123 <=? c) && (c <=? 125))%N.

(** [[\d\s\-]] *)
Definition is_number_char (c : N) : bool :=
  is_digit c || is_space c || (c =? hyphen)%N.

Definition is_hyphen (c : N) : bool := (c =? hyphen)%N.

Definition spaces : item := AtLeast 0 is_space.
Definition sep : item := Exactly 1 is_sep.

Definition whole_or_number : item := Alt [utf8 "전체"; utf8 "번호"].
Definition whole_number_or_both : item :=
  Alt [utf8 "전체"; utf8 "번호"; utf8 "전체번호"].

(** A labelled field: the label, an optional qualifier, the separator
    and the value. *)
Definition field (label : list item) (value : list item) : list item :=
  label ++ [spaces; sep; spaces] ++ value.

Definition resident_value : list item :=
  [Exactly 6 is_digit; spaces; Opt is_hyphen; spaces; Exactly 7 is_digit].

Inductive pii_type : Type :=
| password | security_card_full | otp_full | account_full | card_number
| resident_number | phone_full.

(** [PII_PATTERNS], in the order of the dictionary. *)
Definition PII_PATTERNS : list (pii_type * list (list item)) :=
  [ (password,
      [ field [Lit (utf8 "비밀번호")] [AtLeast 6 is_password_char];
        field [Lit (utf8 "패스워드")] [AtLeast 6 is_password_char] ]);
    (security_card_full,
      [ field [Lit (utf8 "보안카드"); spaces; whole_number_or_both]
              [AtLeast 12 is_number_char];
        field [Lit (utf8 "보안카드")] [AtLeast 12 is_number_char] ]);
    (otp_full,
      [ field [Lit (utf8 "OTP"); spaces; whole_number_or_both]
              [AtLeast 6 is_digit];
        field [Lit (utf8 "일회용"); spaces; Lit (utf8 "비밀번호"); spaces;
               whole_or_number]
              [AtLeast 6 is_digit] ]);
    (account_full,
      [ field [Lit (utf8 "계좌번호"); spaces; whole_or_number]
              [AtLeast 10 is_number_char];
        field [Lit (utf8 "계좌")] [AtLeast 10 is_number_char] ]);
    (card_number,
      [ field [Lit (utf8 "카드번호"); spaces; whole_or_number]
              [AtLeast 13 is_number_char];
        field [Lit (utf8 "신용카드"); spaces; whole_or_number]
              [AtLeast 13 is_number_char] ]);
    (resident_number,
      [ field [Lit (utf8 "주민등록번호")] resident_value;
        field [Lit (utf8 "주민번호")] resident_value ]);
    (phone_full,
      [ field [Lit (utf8 "전화번호"); spaces; whole_or_number]
              [AtLeast 10 is_number_char] ]) ].

(** ** [mask_text] *)

(** [c in s] for a character. *)
Definition has_char (c : N) (s : pystr) : bool := existsb (N.eqb c) s.

(** [re.split(r"[:=]", match_text, 1)]: the text before the first
    separator and the text after it, when there is a separator. *)
Fixpoint split_sep (s : pystr) : option (pystr * pystr) :=
  match s with
  | [] => None
  | c :: s' =>
      if is_sep c then Some ([], s')
      else
        match split_sep s' with
        | Some (before, after) => Some (c :: before, after)
        | None => None
        end
  end.

(** The replacement of one match. *)
Definition mask_match (match_text : pystr) : pystr :=
  if has_char colon match_text || has_char equals match_text then
    match split_sep match_text with
    | Some (before, after) =>
        let prefix :=
          before ++ [if has_char colon match_text then colon else equals] in
        let value := strip after in
        let masked_value := repeat star (length value) in
        prefix ++ utf8 " " ++ masked_value
    | None => repeat star (length match_text)
    end
  else repeat star (length match_text).

(** [text[start:end]] *)
Definition slice (text : pystr) (start end_ : nat) : pystr :=
  take (end_ - start) (drop start text).

(** The body of the loop over the matches: the text so far and
    [was_masked], updated for one match. *)
Definition mask_step (text : pystr) (acc : pystr * bool) (span : nat * nat)
  : pystr * bool :=
  let '(masked_text, _) := acc in
  let '(start, end_) := span in
  let match_text := slice text start end_ in
  (take start masked_text ++ mask_match match_text ++ drop end_ masked_text,
   true).

Definition mask_text (text : pystr) (pattern : list item) : pystr * bool :=
  let matches := finditer pattern text in
  fold_left (mask_step text) (rev matches) (text, false).

(** ** [detect_and_mask_pii] *)

Definition get_warning_message (t : pii_type) : pystr :=
  match t with
  | password => utf8 "비밀번호는 입력하지 마세요. 비밀번호 찾기 기능을 사용하세요."
  | security_card_full =>
      utf8 "보안카드 전체 번호는 입력하지 마세요. 화면에 표시된 좌표에 해당하는 번호만 입력하세요."
  | otp_full => utf8 "OTP 전체 번호는 입력하지 마세요. OTP 앱에서 생성된 번호만 입력하세요."
  | account_full =>
      utf8 "계좌번호 전체는 입력하지 마세요. 필요한 경우 마지막 4자리만 확인하세요."
  | card_number => utf8 "카드번호 전체는 입력하지 마세요."
  | resident_number => utf8 "주민등록번호는 입력하지 마세요."
  | phone_full => utf8 "전화번호 전체는 입력하지 마세요."
  end.

(** The inner loop, over the patterns of one type. *)
Fixpoint mask_patterns (t : pii_type) (patterns : list (list item))
    (masked_text : pystr) (warnings : list pystr) : pystr * list pystr :=
  match patterns with
  | [] => (masked_text, warnings)
  | pattern :: patterns' =>
      let '(masked_text, was_masked) := mask_text masked_text pattern in
      let warnings :=
        if was_masked then
          let warning_msg := get_warning_message t in
          if bool_decide (warning_msg ∈ warnings) then warnings
          else warnings ++ [warning_msg]
        else warnings in
      mask_patterns t patterns' masked_text warnings
  end.

(** The outer loop, over the types. *)
Fixpoint mask_types (table : list (pii_type * list (list item)))
    (masked_text : pystr) (warnings : list pystr) : pystr * list pystr :=
  match table with
  | [] => (masked_text, warnings)
  | (t, patterns) :: table' =>
      let '(masked_text, warnings) :=
        mask_patterns t patterns masked_text warnings in
      mask_types table' masked_text warnings
  end.

Definition detect_and_mask_pii (text : pystr) : pystr * list pystr :=
  match text with
  | [] => (text, [])
  | _ => mask_types PII_PATTERNS text []
  end.

(** ** [check_pii_in_input] *)

Definition check_pii_in_input (question : pystr) (user_context : option pystr)
  : bool * list pystr :=
  let '(_, warnings_q) := detect_and_mask_pii question in
  let warnings :=
    match user_context with
    | Some (c :: uc) =>
        let '(_, warnings_c) := detect_and_mask_pii (c :: uc) in
        warnings_q ++ warnings_c
    | _ => warnings_q
    end in
  ((0 <? length warnings)%nat, warnings).

(** ** The text that [mask_text] returns

    The replacement from right to left over the spans of [finditer] is
    the replacement from left to right: [scan] copies the text up to the
    next match, puts the masked match and goes on behind it.  [skip]
    counts the characters of the last match still to be passed. *)

Fixpoint scan (p : list item) (text : pystr) (skip : nat) : pystr :=
  match text with
  | [] => []
  | c :: text' =>
      match skip with
      | S k => scan p text' k
      | O =>
          match match_items p text with
          | Some (S n) => mask_match (take (S n) text) ++ scan p text' n
          | _ => c :: scan p text' 0
          end
      end
  end.

(** The text rebuilt from position [pos] on, given the spans behind
    [pos]. *)
Fixpoint rebuild (text : pystr) (pos : nat) (spans : list (nat * nat))
  : pystr :=
  match spans with
  | [] => drop pos text
  | (s, e) :: r =>
      slice text pos s ++ mask_match (slice text s e) ++ rebuild text e r
  end.

(** Spans in increasing order between [lo] and [hi]. *)
Fixpoint spans_from (lo hi : nat) (spans : list (nat * nat)) : Prop :=
  match spans with
  | [] => lo <= hi
  | (s, e) :: r => lo <= s /\ s <= e /\ spans_from e hi r
  end.

Lemma spans_from_le (lo hi : nat) (spans : list (nat * nat)) :
  spans_from lo hi spans -> lo <= hi.
Proof.
  revert lo. induction spans as [|[s e] r IH]; simpl; intros lo; [lia|].
  intros (H1 & H2 & H3). apply IH in H3. lia.
Qed.

Lemma slice_slice (text : pystr) (a b c : nat) :
  a <= b -> b <= c -> slice text a c = slice text a b ++ slice text b c.
Proof.
  intros Hab Hbc. unfold slice.
  replace (c - a) with ((b - a) + (c - b)) by lia.
  rewrite take_add_drop, drop_drop. do 3 f_equal. lia.
Qed.

Lemma rebuild_shift (text : pystr) (lo lo' : nat) (spans : list (nat * nat)) :
  lo <= lo' -> spans_from lo' (length text) spans ->
  rebuild text lo spans = slice text lo lo' ++ rebuild text lo' spans.
Proof.
  intros Hlo. destruct spans as [|[s e] r]; simpl.
  - intros _. unfold slice.
    rewrite <- (take_drop (lo' - lo) (drop lo text)) at 1.
    rewrite drop_drop. do 2 f_equal. lia.
  - intros (H1 & H2 & H3). rewrite (slice_slice text lo lo' s) by lia.
    now rewrite <- app_assoc.
Qed.

Lemma mask_text_fold (text : pystr) (pattern : list item) :
  mask_text text pattern =
  fold_right (fun span acc => mask_step text acc span) (text, false)
    (finditer pattern text).
Proof.
  unfold mask_text.
  rewrite <- (rev_involutive (finditer pattern text)) at 2.
  rewrite fold_left_rev_right. reflexivity.
Qed.

Lemma fold_mask_step (text : pystr) (spans : list (nat * nat)) :
  forall pos,
    spans_from pos (length text) spans ->
    (fold_right (fun span acc => mask_step text acc span) (text, false)
       spans).1
    = take pos text ++ rebuild text pos spans.
Proof.
  induction spans as [|[s e] r IH]; intros pos; simpl.
  - intros _. now rewrite take_drop.
  - intros (H1 & H2 & H3). specialize (IH e H3).
    pose proof (spans_from_le _ _ _ H3) as He.
    destruct (fold_right _ _ r) as [masked b]. simpl in *. subst masked.
    rewrite take_app_le by (rewrite length_take; lia).
    rewrite take_take, Nat.min_l by lia.
    rewrite drop_app_length' by (rewrite length_take; lia).
    rewrite <- (take_drop pos (take s text)), take_take, Nat.min_l by lia.
    rewrite <- !app_assoc. do 2 f_equal. unfold slice.
    rewrite take_drop_commute. do 2 f_equal. lia.
Qed.

Lemma finditer_from_scan (p : list item) (suf : pystr) :
  forall pre skip,
    skip <= length suf ->
    spans_from (length pre + skip) (length (pre ++ suf))
      (finditer_from p suf (length pre) skip) /\
    rebuild (pre ++ suf) (length pre + skip)
      (finditer_from p suf (length pre) skip)
    = scan p suf skip.
Proof.
  induction suf as [|c t IH]; intros pre skip Hskip.
  - simpl in *. rewrite length_app. simpl. split; [lia|].
    rewrite drop_ge; [reflexivity|rewrite length_app; simpl; lia].
  - assert (Hpre : pre ++ c :: t = (pre ++ [c]) ++ t)
      by now rewrite <- app_assoc.
    assert (Hlen : length (pre ++ [c]) = S (length pre))
      by (rewrite length_app; simpl; lia).
    destruct skip as [|k].
    + cbn [finditer_from scan].
      destruct (match_items p (c :: t)) as [[|n]|] eqn:E.
      * destruct (IH (pre ++ [c]) 0 ltac:(lia)) as [H1 H2].
        rewrite Hlen, <- Hpre in *. rewrite Nat.add_0_r in *.
        split.
        -- destruct (finditer_from p t (S (length pre)) 0) as [|[s e] r];
             simpl in *;
             [rewrite length_app in *; simpl in *; lia|intuition lia].
        -- rewrite (rebuild_shift _ _ (S (length pre))); [|lia|].
           ++ rewrite H2. unfold slice.
              rewrite drop_app_length.
              replace (S (length pre) - length pre) with 1 by lia.
              reflexivity.
           ++ rewrite length_app in *. simpl in *. exact H1.
      * destruct (match_items_accepts _ _ _ E) as [Hn _]. simpl in Hn.
        destruct (IH (pre ++ [c]) n ltac:(lia)) as [H1 H2].
        rewrite Hlen, <- Hpre in *. rewrite Nat.add_0_r.
        cbn [spans_from rebuild]. split.
        -- split; [lia|]. split; [lia|].
           replace (length pre + S n) with (S (length pre) + n) by lia.
           exact H1.
        -- unfold slice at 1 2. rewrite Nat.sub_diag, take_0.
           rewrite drop_app_length.
           replace (length pre + S n - length pre) with (S n) by lia.
           simpl app. f_equal.
           replace (length pre + S n) with (S (length pre) + n) by lia.
           exact H2.
      * destruct (IH (pre ++ [c]) 0 ltac:(lia)) as [H1 H2].
        rewrite Hlen, <- Hpre in *. rewrite Nat.add_0_r in *.
        split.
        -- destruct (finditer_from p t (S (length pre)) 0) as [|[s e] r];
             simpl in *;
             [rewrite length_app in *; simpl in *; lia|intuition lia].
        -- rewrite (rebuild_shift _ _ (S (length pre))); [|lia|].
           ++ rewrite H2. unfold slice.
              rewrite drop_app_length.
              replace (S (length pre) - length pre) with 1 by lia.
              reflexivity.
           ++ rewrite length_app in *. simpl in *. exact H1.
    + cbn [finditer_from scan]. simpl in Hskip.
      destruct (IH (pre ++ [c]) k ltac:(lia)) as [H1 H2].
      rewrite Hlen, <- Hpre in *.
      replace (length pre + S k) with (S (length pre) + k) by lia.
      split; assumption.
Qed.

(** [mask_text] returns the scanned text. *)
Lemma mask_text_scan (text : pystr) (pattern : list item) :
  (mask_text text pattern).1 = scan pattern text 0.
Proof.
  rewrite mask_text_fold. unfold finditer.
  destruct (finditer_from_scan pattern text [] 0 ltac:(lia)) as [H1 H2].
  simpl in H1, H2. rewrite (fold_mask_step text _ 0 H1). exact H2.
Qed.

Lemma scan_skip (p : list item) (text : pystr) :
  forall skip, skip <= length text ->
               scan p text skip = scan p (drop skip text) 0.
Proof.
  induction text as [|c t IH]; intros [|k] Hk; simpl in *; try reflexivity;
    try lia.
  apply IH. lia.
Qed.

(** ** The shape of the patterns

    Every pattern of the table is a labelled field: a label made of
    literals, alternations of literals and optional white space, the
    separator, and a value of one of four kinds. *)

Inductive litem : Type :=
| LLit (s : pystr)
| LAlt (alts : list pystr)
| LSpaces.

Inductive vkind : Type :=
| VPassword
| VNumber (n : nat)
| VDigits
| VResident.

Record fpat : Type := mkFpat { f_label : list litem; f_kind : vkind }.

#[global] Instance litem_eq_dec : EqDecision litem.
Proof. solve_decision. Defined.
#[global] Instance vkind_eq_dec : EqDecision vkind.
Proof. solve_decision. Defined.
#[global] Instance fpat_eq_dec : EqDecision fpat.
Proof. solve_decision. Defined.

Definition item_of (l : litem) : item :=
  match l with
  | LLit s => Lit s
  | LAlt alts => Alt alts
  | LSpaces => spaces
  end.

Definition value_of (k : vkind) : list item :=
  match k with
  | VPassword => [AtLeast 6 is_password_char]
  | VNumber n => [AtLeast n is_number_char]
  | VDigits => [AtLeast 6 is_digit]
  | VResident => resident_value
  end.

Definition head_of (fp : fpat) : list item :=
  map item_of (f_label fp) ++ [spaces].

Definition tail_of (fp : fpat) : list item := spaces :: value_of (f_kind fp).

Definition pattern_of (fp : fpat) : list item :=
  field (map item_of (f_label fp)) (value_of (f_kind fp)).

Definition l_whole_or_number : litem := LAlt [utf8 "전체"; utf8 "번호"].
Definition l_whole_number_or_both : litem :=
  LAlt [utf8 "전체"; utf8 "번호"; utf8 "전체번호"].

Definition table : list fpat :=
  [ mkFpat [LLit (utf8 "비밀번호")] VPassword;
    mkFpat [LLit (utf8 "패스워드")] VPassword;
    mkFpat [LLit (utf8 "보안카드"); LSpaces; l_whole_number_or_both] (VNumber 12);
    mkFpat [LLit (utf8 "보안카드")] (VNumber 12);
    mkFpat [LLit (utf8 "OTP"); LSpaces; l_whole_number_or_both] VDigits;
    mkFpat [LLit (utf8 "일회용"); LSpaces; LLit (utf8 "비밀번호"); LSpaces;
            l_whole_or_number] VDigits;
    mkFpat [LLit (utf8 "계좌번호"); LSpaces; l_whole_or_number] (VNumber 10);
    mkFpat [LLit (utf8 "계좌")] (VNumber 10);
    mkFpat [LLit (utf8 "카드번호"); LSpaces; l_whole_or_number] (VNumber 13);
    mkFpat [LLit (utf8 "신용카드"); LSpaces; l_whole_or_number] (VNumber 13);
    mkFpat [LLit (utf8 "주민등록번호")] VResident;
    mkFpat [LLit (utf8 "주민번호")] VResident;
    mkFpat [LLit (utf8 "전화번호"); LSpaces; l_whole_or_number] (VNumber 10) ].

(** The table lists the patterns of [PII_PATTERNS] in their order. *)
Lemma PII_PATTERNS_table :
  concat (map snd PII_PATTERNS) = map pattern_of table.
Proof. reflexivity. Qed.

Lemma pattern_of_split (fp : fpat) :
  pattern_of fp = head_of fp ++ sep :: tail_of fp.
Proof.
  unfold pattern_of, field, head_of, tail_of.
  now rewrite <- app_assoc.
Qed.

(** A letter of a label: a Hangul syllable or an ASCII letter. *)
Definition letter (c : N) : bool :=
  (is_ascii_letter c || (44032 <=? c) && (c <=? 55203))%N.

Definition letters_only (s : pystr) : bool :=
  forallb letter s && negb (bool_decide (s = [])).

Definition litem_ok (l : litem) : bool :=
  match l with
  | LLit s => letters_only s
  | LAlt alts => forallb letters_only alts
  | LSpaces => true
  end.

(** A label begins with a literal. *)
Definition label_ok (lbl : list litem) : bool :=
  match lbl with
  | LLit s :: rest => letters_only s && forallb litem_ok rest
  | _ => false
  end.

Lemma table_labels_ok : forallb (fun fp => label_ok (f_label fp)) table = true.
Proof. vm_compute. reflexivity. Qed.

(** *** Characters *)

Ltac chars :=
  repeat match goal with
         | H : _ = true |- _ =>
             rewrite ?orb_true_iff, ?andb_true_iff, ?N.leb_le, ?N.eqb_eq in H
         end;
  rewrite ?orb_false_iff, ?andb_false_iff, ?N.leb_gt, ?N.eqb_neq;
  try lia.

Lemma letter_not_space (c : N) : letter c = true -> is_space c = false.
Proof.
  unfold letter, is_ascii_letter, is_space. intros H.
  chars.
Qed.

Lemma letter_not_sep (c : N) : letter c = true -> is_sep c = false.
Proof.
  unfold letter, is_ascii_letter, is_sep, colon, equals. intros H.
  chars.
Qed.

Lemma letter_not_star (c : N) : letter c = true -> c <> star.
Proof. unfold letter, is_ascii_letter, star. intros H. chars. Qed.

Lemma lit_eqb_letter (l c : N) :
  letter l = true -> lit_eqb l c = true -> letter c = true.
Proof.
  unfold lit_eqb. intros Hl [->%N.eqb_eq|H]%orb_true_iff; [exact Hl|].
  apply andb_true_iff in H as [[_ H]%andb_true_iff _].
  unfold letter. now rewrite H.
Qed.

Lemma lit_prefix_letters (l a : pystr) :
  forallb letter l = true -> lit_prefix l a = true ->
  length a = length l -> forallb letter a = true.
Proof.
  revert a. induction l as [|x l IH]; intros [|c a]; simpl; try reflexivity;
    try discriminate.
  intros [H1 H2]%andb_true_iff [H3 H4]%andb_true_iff [= H5].
  rewrite (lit_eqb_letter _ _ H1 H3). simpl. now apply IH.
Qed.

(** *** Splitting an accepted text *)

Lemma accepts_app (p1 p2 : list item) :
  forall s, accepts (p1 ++ p2) s <->
            exists a b, s = a ++ b /\ accepts p1 a /\ accepts p2 b.
Proof.
  induction p1 as [|it p1 IH]; intros s.
  - simpl. split.
    + intros H. now exists [], s.
    + intros (a & b & -> & -> & H). exact H.
  - change ((it :: p1) ++ p2) with (it :: (p1 ++ p2)).
    destruct it as [l|alts|k cls|k cls|cls]; cbn [accepts].
    + split.
      * intros (a & b & -> & Hl & Hp & (a' & b' & -> & H1 & H2)%IH).
        exists (a ++ a'), b'. rewrite app_assoc. repeat split; try assumption.
        now exists a, a'.
      * intros (x & b' & -> & (a & a' & -> & Hl & Hp & H1) & H2).
        exists a, (a' ++ b'). rewrite app_assoc.
        repeat split; try assumption. apply IH. now exists a', b'.
    + split.
      * intros (l & a & b & Hin & -> & Hl & Hp & (a' & b' & -> & H1 & H2)%IH).
        exists (a ++ a'), b'. rewrite app_assoc. repeat split; try assumption.
        now exists l, a, a'.
      * intros (x & b' & -> & (l & a & a' & Hin & -> & Hl & Hp & H1) & H2).
        exists l, a, (a' ++ b'). rewrite app_assoc.
        repeat split; try assumption. apply IH. now exists a', b'.
    + split.
      * intros (a & b & -> & Hl & Hp & (a' & b' & -> & H1 & H2)%IH).
        exists (a ++ a'), b'. rewrite app_assoc. repeat split; try assumption.
        now exists a, a'.
      * intros (x & b' & -> & (a & a' & -> & Hl & Hp & H1) & H2).
        exists a, (a' ++ b'). rewrite app_assoc.
        repeat split; try assumption. apply IH. now exists a', b'.
    + split.
      * intros (a & b & -> & Hl & Hp & (a' & b' & -> & H1 & H2)%IH).
        exists (a ++ a'), b'. rewrite app_assoc. repeat split; try assumption.
        now exists a, a'.
      * intros (x & b' & -> & (a & a' & -> & Hl & Hp & H1) & H2).
        exists a, (a' ++ b'). rewrite app_assoc.
        repeat split; try assumption. apply IH. now exists a', b'.
    + split.
      * intros [(a' & b' & -> & H1 & H2)%IH
               |(c & b & -> & Hc & (a' & b' & -> & H1 & H2)%IH)].
        -- exists a', b'. repeat split; try assumption. now left.
        -- exists (c :: a'), b'. repeat split; try assumption.
           right. now exists c, a'.
      * intros (x & b' & -> & [H1|(c & a' & -> & Hc & H1)] & H2).
        -- left. apply IH. now exists x, b'.
        -- right. exists c, (a' ++ b'). repeat split; try assumption.
           apply IH. now exists a', b'.
Qed.

(** A text accepted by a field: the head, the separator and the tail. *)
Lemma accepts_field (fp : fpat) (t : pystr) :
  accepts (pattern_of fp) t <->
  exists h c tl, t = h ++ c :: tl /\ accepts (head_of fp) h /\
                 is_sep c = true /\ accepts (tail_of fp) tl.
Proof.
  rewrite pattern_of_split, accepts_app. split.
  - intros (h & b & -> & Hh & Hb). cbn [accepts] in Hb.
    change (accepts (tail_of fp)) with
      (accepts (spaces :: value_of (f_kind fp))) in *.
    destruct Hb as (a & tl & -> & Hlen & Hc & Htl).
    destruct a as [|c [|]]; try discriminate. simpl in Hc.
    apply andb_true_iff in Hc as [Hc _].
    exists h, c, tl. repeat split; assumption.
  - intros (h & c & tl & -> & Hh & Hc & Htl).
    exists h, (c :: tl). repeat split; try assumption.
    exists [c], tl. simpl. rewrite Hc. repeat split. exact Htl.
Qed.

(** *** The head of a match: the label and the white space behind it *)

Definition head_char (c : N) : bool := letter c || is_space c.

Lemma head_char_not_sep (c : N) : head_char c = true -> is_sep c = false.
Proof.
  unfold head_char, letter, is_ascii_letter, is_space, is_sep, colon, equals.
  intros H. chars.
Qed.

Lemma forallb_weaken (f g : N -> bool) (l : pystr) :
  (forall c, f c = true -> g c = true) ->
  forallb f l = true -> forallb g l = true.
Proof.
  intros Hfg. induction l as [|c l IH]; simpl; [reflexivity|].
  intros [H1 H2]%andb_true_iff. rewrite (Hfg _ H1). now apply IH.
Qed.

Lemma letters_head_chars (a : pystr) :
  forallb letter a = true -> forallb head_char a = true.
Proof.
  apply forallb_weaken. intros c H. unfold head_char. now rewrite H.
Qed.

Lemma spaces_head_chars (a : pystr) :
  forallb is_space a = true -> forallb head_char a = true.
Proof.
  apply forallb_weaken. intros c H. unfold head_char. rewrite H.
  apply orb_true_r.
Qed.

Lemma letters_only_spec (s : pystr) :
  letters_only s = true -> forallb letter s = true /\ s <> [].
Proof.
  unfold letters_only. intros [H1 H2]%andb_true_iff. split; [exact H1|].
  apply negb_true_iff in H2. now apply bool_decide_eq_false in H2.
Qed.

Lemma letters_only_alt (alts : list pystr) (l : pystr) :
  forallb letters_only alts = true -> l ∈ alts -> letters_only l = true.
Proof.
  intros H Hin. rewrite forallb_forall in H. apply H.
  now apply list_elem_of_In.
Qed.

Lemma label_chars (lbl : list litem) :
  forallb litem_ok lbl = true ->
  forall h, accepts (map item_of lbl ++ [spaces]) h ->
            forallb head_char h = true.
Proof.
  induction lbl as [|it lbl IH]; simpl.
  - intros _ h (a & b & -> & _ & Ha & ->). rewrite app_nil_r.
    now apply spaces_head_chars.
  - intros [Hit Hok]%andb_true_iff h. specialize (IH Hok).
    destruct it as [s|alts|]; cbn [item_of accepts].
    + intros (a & b & -> & Hlen & Hp & Hb).
      apply letters_only_spec in Hit as [Hs _].
      rewrite forallb_app, (IH _ Hb), andb_true_r.
      apply letters_head_chars. now apply (lit_prefix_letters s).
    + intros (l & a & b & Hin & -> & Hlen & Hp & Hb).
      apply (letters_only_alt _ _ Hit), letters_only_spec in Hin as [Hs _].
      rewrite forallb_app, (IH _ Hb), andb_true_r.
      apply letters_head_chars. now apply (lit_prefix_letters l).
    + intros (a & b & -> & _ & Ha & Hb).
      rewrite forallb_app, (IH _ Hb), andb_true_r.
      now apply spaces_head_chars.
Qed.

Lemma label_ok_items (lbl : list litem) :
  label_ok lbl = true -> forallb litem_ok lbl = true.
Proof.
  destruct lbl as [|[s| |] rest]; simpl; try discriminate.
  intros H. exact H.
Qed.

Lemma head_chars (fp : fpat) (h : pystr) :
  label_ok (f_label fp) = true -> accepts (head_of fp) h ->
  forallb head_char h = true.
Proof.
  intros Hok. apply label_chars. now apply label_ok_items.
Qed.

(** A match begins with a letter of its label. *)
Lemma head_first (fp : fpat) (h : pystr) :
  label_ok (f_label fp) = true -> accepts (head_of fp) h ->
  exists x h', h = x :: h' /\ letter x = true.
Proof.
  unfold head_of. destruct (f_label fp) as [|[s| |] rest]; simpl;
    try discriminate.
  intros [Hs _]%andb_true_iff (a & b & -> & Hlen & Hp & _).
  apply letters_only_spec in Hs as [Hs Hne].
  pose proof (lit_prefix_letters _ _ Hs Hp Hlen) as Ha.
  destruct a as [|x a].
  - destruct s; [contradiction|discriminate].
  - simpl in Ha. apply andb_true_iff in Ha as [Hx _].
    now exists x, (a ++ b).
Qed.

(** *** The words of a label

    The letters of a head, without the white space, are one of the
    words of the label, up to the case of ASCII letters. *)

Fixpoint label_words (lbl : list litem) : list pystr :=
  match lbl with
  | [] => [[]]
  | LLit s :: r => map (app s) (label_words r)
  | LAlt alts :: r => flat_map (fun a => map (app a) (label_words r)) alts
  | LSpaces :: r => label_words r
  end.

Definition ci_eq (a b : pystr) : bool :=
  (length a =? length b)%nat && lit_prefix a b.

Lemma lit_eqb_sym (a b : N) : lit_eqb a b = lit_eqb b a.
Proof.
  unfold lit_eqb. rewrite (N.eqb_sym b a).
  rewrite (N.eqb_sym (ascii_lower b) (ascii_lower a)).
  now rewrite (andb_comm (is_ascii_letter a)).
Qed.

Lemma lit_eqb_trans (a b c : N) :
  lit_eqb a b = true -> lit_eqb b c = true -> lit_eqb a c = true.
Proof.
  unfold lit_eqb.
  intros [->%N.eqb_eq|H1]%orb_true_iff; [now intros ->|].
  intros [->%N.eqb_eq|H2]%orb_true_iff; [now rewrite H1, orb_true_r|].
  apply andb_true_iff in H1 as [[Ha Hb]%andb_true_iff Hab%N.eqb_eq].
  apply andb_true_iff in H2 as [[_ Hc]%andb_true_iff Hbc%N.eqb_eq].
  now rewrite Ha, Hc, Hbc, Hab, N.eqb_refl, orb_true_r.
Qed.

Lemma ci_eq_spec (a b : pystr) :
  ci_eq a b = true <-> length a = length b /\ lit_prefix a b = true.
Proof. unfold ci_eq. now rewrite andb_true_iff, Nat.eqb_eq. Qed.

Lemma lit_prefix_sym (a b : pystr) :
  length a = length b -> lit_prefix a b = lit_prefix b a.
Proof.
  revert b. induction a as [|x a IH]; intros [|y b]; simpl; try reflexivity;
    try discriminate.
  intros [= H]. now rewrite lit_eqb_sym, IH.
Qed.

Lemma ci_eq_sym (a b : pystr) : ci_eq a b = true -> ci_eq b a = true.
Proof.
  rewrite !ci_eq_spec. intros [H1 H2].
  split; [easy|]. now rewrite <- lit_prefix_sym.
Qed.

Lemma lit_prefix_trans (a b c : pystr) :
  length a = length b ->
  lit_prefix a b = true -> lit_prefix b c = true -> lit_prefix a c = true.
Proof.
  revert b c. induction a as [|x a IH]; intros [|y b] [|z c]; simpl;
    try reflexivity; try discriminate.
  intros [= Hl] [H1 H2]%andb_true_iff [H3 H4]%andb_true_iff.
  rewrite (lit_eqb_trans _ _ _ H1 H3). simpl. now apply (IH b).
Qed.

Lemma ci_eq_trans (a b c : pystr) :
  ci_eq a b = true -> ci_eq b c = true -> ci_eq a c = true.
Proof.
  rewrite !ci_eq_spec. intros [H1 H2] [H3 H4].
  split; [congruence|]. now apply (lit_prefix_trans a b c).
Qed.

Lemma ci_eq_drop (a b : pystr) (k : nat) :
  ci_eq a b = true -> ci_eq (drop k a) (drop k b) = true.
Proof.
  rewrite !ci_eq_spec. revert a b.
  induction k as [|k IH]; intros [|x a] [|y b]; simpl; try easy.
  intros [[= Hl] [_ Hp]%andb_true_iff]. now apply IH.
Qed.

Lemma ci_eq_app (l a w b : pystr) :
  length a = length l -> lit_prefix l a = true -> ci_eq w b = true ->
  ci_eq (l ++ w) (a ++ b) = true.
Proof.
  rewrite !ci_eq_spec. intros Hl Hp [Hw Hb]. split.
  - rewrite !length_app. lia.
  - clear Hw. revert a Hl Hp.
    induction l as [|x l IH]; intros [|y a]; simpl; try discriminate.
    + intros _ _. exact Hb.
    + intros [= Hl] [H1 H2]%andb_true_iff. rewrite H1. simpl.
      now apply IH.
Qed.

Lemma filter_letters_all (a : pystr) :
  forallb letter a = true -> List.filter letter a = a.
Proof.
  induction a as [|c a IH]; simpl; [reflexivity|].
  intros [H1 H2]%andb_true_iff. rewrite H1. f_equal. now apply IH.
Qed.

Lemma filter_letters_spaces (a : pystr) :
  forallb is_space a = true -> List.filter letter a = [].
Proof.
  induction a as [|c a IH]; simpl; [reflexivity|].
  intros [H1 H2]%andb_true_iff.
  destruct (letter c) eqn:E.
  - apply letter_not_space in E. congruence.
  - now apply IH.
Qed.

Lemma label_word (lbl : list litem) :
  forallb litem_ok lbl = true ->
  forall h, accepts (map item_of lbl ++ [spaces]) h ->
            exists w, w ∈ label_words lbl /\
                      ci_eq w (List.filter letter h) = true.
Proof.
  induction lbl as [|it lbl IH]; simpl.
  - intros _ h (a & b & -> & _ & Ha & ->). rewrite app_nil_r.
    exists []. split; [apply list_elem_of_singleton; reflexivity|].
    now rewrite filter_letters_spaces.
  - intros [Hit Hok]%andb_true_iff h. specialize (IH Hok).
    destruct it as [s|alts|]; cbn [item_of accepts].
    + intros (a & b & -> & Hlen & Hp & Hb).
      apply letters_only_spec in Hit as [Hs _].
      destruct (IH _ Hb) as (w & Hin & Hw).
      exists (s ++ w). split.
      * apply list_elem_of_fmap. now exists w.
      * rewrite List.filter_app, filter_letters_all
          by now apply (lit_prefix_letters s).
        now apply ci_eq_app.
    + intros (l & a & b & Hin & -> & Hlen & Hp & Hb).
      pose proof (letters_only_alt _ _ Hit Hin) as Hl.
      apply letters_only_spec in Hl as [Hs _].
      destruct (IH _ Hb) as (w & Hinw & Hw).
      exists (l ++ w). split.
      * apply list_elem_of_In, in_flat_map. exists l.
        split; [now apply list_elem_of_In|].
        apply in_map. now apply list_elem_of_In.
      * rewrite List.filter_app, filter_letters_all
          by now apply (lit_prefix_letters l).
        now apply ci_eq_app.
    + intros (a & b & -> & _ & Ha & Hb).
      destruct (IH _ Hb) as (w & Hin & Hw).
      exists w. split; [exact Hin|].
      now rewrite List.filter_app, filter_letters_spaces.
Qed.

(** One word ends with the other, up to case. *)
Definition suffix_related (w l : pystr) : bool :=
  if (length w <=? length l)%nat
  then ci_eq w (drop (length l - length w) l)
  else ci_eq (drop (length w - length l) w) l.

Lemma suffix_related_intro (w l x y u : pystr) :
  ci_eq l x = true -> ci_eq w y = true -> x = u ++ y \/ y = u ++ x ->
  suffix_related w l = true.
Proof.
  intros Hl Hw Hxy. unfold suffix_related.
  pose proof (proj1 (ci_eq_spec _ _) Hl) as [Hll _].
  pose proof (proj1 (ci_eq_spec _ _) Hw) as [Hlw _].
  destruct Hxy as [-> | ->]; rewrite length_app in *.
  - replace (length w <=? length l)%nat with true
      by (symmetry; apply Nat.leb_le; lia).
    replace (length l - length w) with (length u) by lia.
    apply (ci_eq_drop _ _ (length u)) in Hl.
    rewrite drop_app_length in Hl.
    eapply ci_eq_trans; [exact Hw|]. now apply ci_eq_sym.
  - destruct (length w <=? length l)%nat eqn:E.
    + apply Nat.leb_le in E. assert (length u = 0) as Hu by lia.
      destruct u; [|discriminate]. simpl in *.
      replace (length l - length w) with 0 by lia. rewrite drop_0.
      eapply ci_eq_trans; [exact Hw|]. now apply ci_eq_sym.
    + apply Nat.leb_gt in E.
      replace (length w - length l) with (length u) by lia.
      apply (ci_eq_drop _ _ (length u)) in Hw.
      rewrite drop_app_length in Hw.
      eapply ci_eq_trans; [exact Hw|]. now apply ci_eq_sym.
Qed.

(** *** [strip] *)

Definition solid (c : N) : bool := negb (is_space c).

Lemma lstrip_spaces_app (w v : pystr) :
  forallb is_space w = true -> lstrip (w ++ v) = lstrip v.
Proof.
  induction w as [|c w IH]; simpl; [reflexivity|].
  intros [H1 H2]%andb_true_iff. rewrite H1. now apply IH.
Qed.

Lemma lstrip_solid (v : pystr) : forallb solid v = true -> lstrip v = v.
Proof.
  destruct v as [|c v]; simpl; [reflexivity|].
  intros [H1 _]%andb_true_iff. apply negb_true_iff in H1. now rewrite H1.
Qed.

Lemma forallb_rev (f : N -> bool) (v : pystr) :
  forallb f (rev v) = forallb f v.
Proof.
  induction v as [|c v IH]; simpl; [reflexivity|].
  rewrite forallb_app, IH. simpl. rewrite andb_true_r. apply andb_comm.
Qed.

Lemma strip_spaces_solid (w v : pystr) :
  forallb is_space w = true -> forallb solid v = true -> strip (w ++ v) = v.
Proof.
  intros Hw Hv. unfold strip, rstrip.
  rewrite (lstrip_spaces_app _ _ Hw), (lstrip_solid _ Hv).
  rewrite lstrip_solid by now rewrite forallb_rev.
  apply rev_involutive.
Qed.

Lemma lstrip_keeps (c : N) (s : pystr) :
  c ∈ s -> is_space c = false -> c ∈ lstrip s.
Proof.
  intros Hin Hc. induction s as [|x s IH]; simpl; [exact Hin|].
  destruct (is_space x) eqn:E; [|exact Hin].
  apply elem_of_cons in Hin as [->|Hin]; [congruence|now apply IH].
Qed.

Lemma elem_of_rev (c : N) (s : pystr) : c ∈ rev s <-> c ∈ s.
Proof. rewrite !list_elem_of_In. symmetry. apply in_rev. Qed.

Lemma strip_keeps (c : N) (s : pystr) :
  c ∈ s -> is_space c = false -> 0 < length (strip s).
Proof.
  intros Hin Hc. unfold strip, rstrip.
  assert (c ∈ rev (lstrip (rev (lstrip s)))) as H.
  { apply elem_of_rev, lstrip_keeps; [|exact Hc].
    apply elem_of_rev. now apply lstrip_keeps. }
  destruct (rev (lstrip (rev (lstrip s)))); simpl; [|lia].
  now apply elem_of_nil in H.
Qed.

(** *** The replacement of a field *)

Lemma split_sep_field (h : pystr) (c : N) (tl : pystr) :
  forallb head_char h = true -> is_sep c = true ->
  split_sep (h ++ c :: tl) = Some (h, tl).
Proof.
  intros Hh Hc. induction h as [|x h IH]; simpl.
  - now rewrite Hc.
  - simpl in Hh. apply andb_true_iff in Hh as [Hx Hh].
    rewrite (head_char_not_sep _ Hx), (IH Hh). reflexivity.
Qed.

Lemma has_char_head (d : N) (h s : pystr) :
  is_sep d = true -> forallb head_char h = true ->
  has_char d (h ++ s) = has_char d s.
Proof.
  intros Hd Hh. unfold has_char. rewrite existsb_app.
  replace (existsb (N.eqb d) h) with false; [reflexivity|].
  symmetry. induction h as [|x h IH]; simpl; [reflexivity|].
  simpl in Hh. apply andb_true_iff in Hh as [Hx Hh].
  rewrite (IH Hh), orb_false_r. apply N.eqb_neq. intros <-.
  apply head_char_not_sep in Hx. congruence.
Qed.

(** The separator that the replacement writes. *)
Definition sep_of (s : pystr) : N :=
  if has_char colon s then colon else equals.

Lemma is_sep_sep_of (s : pystr) : is_sep (sep_of s) = true.
Proof. unfold sep_of. now destruct (has_char colon s). Qed.

Lemma mask_match_field (h : pystr) (c : N) (tl : pystr) :
  forallb head_char h = true -> is_sep c = true ->
  mask_match (h ++ c :: tl)
  = h ++ sep_of (c :: tl) :: 32%N :: repeat star (length (strip tl)).
Proof.
  intros Hh Hc. unfold mask_match.
  rewrite (split_sep_field _ _ _ Hh Hc).
  rewrite !has_char_head by (assumption || reflexivity).
  replace (has_char colon (c :: tl) || has_char equals (c :: tl)) with true.
  - unfold sep_of. now rewrite <- app_assoc.
  - symmetry. unfold has_char. cbn [existsb]. unfold is_sep in Hc.
    apply orb_true_iff in Hc as [->%N.eqb_eq| ->%N.eqb_eq].
    + now rewrite N.eqb_refl.
    + rewrite (N.eqb_refl equals). now rewrite orb_true_r.
Qed.

(** ** Masking a masked text

    What the tables of [\w] and [\d] are assumed to say, as the Unicode
    tables do: the letters of the labels are no digits, white space is
    neither a word character nor a digit, and the asterisk is no
    digit. *)

Section Idempotence.

Hypothesis digit_letter : forall c, letter c = true -> is_digit c = false.
Hypothesis word_space : forall c, is_space c = true -> is_word c = false.
Hypothesis digit_space : forall c, is_space c = true -> is_digit c = false.
Hypothesis digit_star : is_digit star = false.

Lemma letter_not_number (c : N) :
  letter c = true -> is_number_char c = false.
Proof.
  intros H. unfold is_number_char.
  rewrite (digit_letter _ H), (letter_not_space _ H). simpl.
  unfold letter, is_ascii_letter, hyphen in *. chars.
Qed.

Lemma password_solid (c : N) :
  is_password_char c = true -> solid c = true.
Proof.
  unfold is_password_char, solid. intros H. apply negb_true_iff.
  destruct (is_space c) eqn:E; [|reflexivity].
  rewrite (word_space _ E) in H. simpl in H.
  unfold is_space in E. chars.
Qed.

Lemma digit_solid (c : N) : is_digit c = true -> solid c = true.
Proof.
  unfold solid. intros H. apply negb_true_iff.
  destruct (is_space c) eqn:E; [|reflexivity].
  rewrite (digit_space _ E) in H. discriminate.
Qed.

Lemma star_not_number : is_number_char star = false.
Proof. unfold is_number_char. now rewrite digit_star. Qed.

Lemma star_password : is_password_char star = true.
Proof. unfold is_password_char. simpl. apply orb_true_r. Qed.

Lemma sep_password (c : N) : is_sep c = true -> is_password_char c = true.
Proof.
  unfold is_sep, is_password_char, colon, equals.
  intros [->%N.eqb_eq| ->%N.eqb_eq]%orb_true_iff; simpl; apply orb_true_r.
Qed.

Lemma space_not_password (c : N) :
  is_space c = true -> is_password_char c = false.
Proof.
  intros H. destruct (is_password_char c) eqn:E; [|reflexivity].
  apply password_solid in E. unfold solid in E. rewrite H in E.
  discriminate.
Qed.

Lemma digit_number (c : N) : is_digit c = true -> is_number_char c = true.
Proof. intros H. unfold is_number_char. now rewrite H. Qed.

Lemma space_number (c : N) : is_space c = true -> is_number_char c = true.
Proof.
  intros H. unfold is_number_char. rewrite H. now rewrite orb_true_r.
Qed.

Lemma hyphen_number (c : N) : is_hyphen c = true -> is_number_char c = true.
Proof.
  unfold is_hyphen, is_number_char. intros ->. apply orb_true_r.
Qed.

(** *** The tail of a match: the white space and the value *)

Lemma tail_password (tl : pystr) :
  accepts (spaces :: value_of VPassword) tl <->
  exists w v, tl = w ++ v /\ forallb is_space w = true /\
              forallb is_password_char v = true /\ 6 <= length v.
Proof.
  cbn [value_of accepts]. split.
  - intros (w & b & -> & _ & Hw & v & e & -> & Hlen & Hv & ->).
    exists w, v. now rewrite app_nil_r.
  - intros (w & v & -> & Hw & Hv & Hlen).
    exists w, v. repeat split; try assumption; [lia|].
    exists v, []. now rewrite app_nil_r.
Qed.

Definition kind_ok (k : vkind) : bool :=
  match k with
  | VNumber n => (2 <=? n)%nat
  | _ => true
  end.

Lemma table_kinds_ok : forallb (fun fp => kind_ok (f_kind fp)) table = true.
Proof. reflexivity. Qed.

Lemma first_solid (f : N -> bool) (v : pystr) :
  (forall c, f c = true -> solid c = true) ->
  forallb f v = true -> 0 < length v ->
  exists c, c ∈ v /\ is_space c = false.
Proof.
  intros Hf Hv Hlen. destruct v as [|c v]; simpl in *; [lia|].
  apply andb_true_iff in Hv as [Hc _]. exists c.
  split; [apply list_elem_of_here|]. apply Hf in Hc.
  now apply negb_true_iff in Hc.
Qed.

(** The other values are made of digits, white space and hyphens. *)
Lemma tail_number (k : vkind) (tl : pystr) :
  k <> VPassword -> kind_ok k = true -> accepts (spaces :: value_of k) tl ->
  forallb is_number_char tl = true /\ 2 <= length tl /\
  ((exists n, k = VNumber n) \/ exists c, c ∈ tl /\ is_space c = false).
Proof.
  intros Hk Hok. destruct k as [|n| |]; [contradiction| | |];
    cbn [value_of resident_value accepts].
  - intros (w & b & -> & _ & Hw & v & e & -> & Hlen & Hv & ->).
    apply Nat.leb_le in Hok. rewrite app_nil_r.
    rewrite forallb_app, Hv, (forallb_weaken _ _ _ space_number Hw).
    rewrite length_app. repeat split; [lia|]. left. now exists n.
  - intros (w & b & -> & _ & Hw & v & e & -> & Hlen & Hv & ->).
    rewrite app_nil_r.
    rewrite forallb_app, (forallb_weaken _ _ _ digit_number Hv),
      (forallb_weaken _ _ _ space_number Hw).
    rewrite length_app. repeat split; [lia|]. right.
    destruct (first_solid _ _ digit_solid Hv) as (c & Hin & Hc); [lia|].
    exists c. split; [|exact Hc]. apply elem_of_app. now right.
  - intros (w & b & -> & _ & Hw & d6 & b1 & -> & Hl6 & Hd6 &
            w1 & b2 & -> & _ & Hw1 & Hopt).
    assert (exists hy b3 w2 d7,
               b2 = hy ++ b3 /\ forallb is_hyphen hy = true /\
               b3 = w2 ++ d7 /\ forallb is_space w2 = true /\
               forallb is_digit d7 = true /\ length d7 = 7)
      as (hy & b3 & w2 & d7 & -> & Hhy & -> & Hw2 & Hd7 & Hl7).
    { destruct Hopt as [H|(c & b3 & -> & Hc & H)].
      - destruct H as (w2 & b4 & -> & _ & Hw2 & d7 & e & -> & Hl7 & Hd7 & ->).
        exists [], (w2 ++ d7 ++ []), w2, d7. rewrite app_nil_r.
        repeat split; assumption.
      - destruct H as (w2 & b4 & -> & _ & Hw2 & d7 & e & -> & Hl7 & Hd7 & ->).
        exists [c], (w2 ++ d7 ++ []), w2, d7. rewrite app_nil_r. simpl.
        rewrite Hc. repeat split; assumption. }
    rewrite !forallb_app, !length_app.
    rewrite (forallb_weaken _ _ _ space_number Hw),
      (forallb_weaken _ _ _ digit_number Hd6),
      (forallb_weaken _ _ _ space_number Hw1),
      (forallb_weaken _ _ _ hyphen_number Hhy),
      (forallb_weaken _ _ _ space_number Hw2),
      (forallb_weaken _ _ _ digit_number Hd7).
    repeat split; [lia|]. right.
    destruct (first_solid _ _ digit_solid Hd6) as (c & Hin & Hc); [lia|].
    exists c. split; [|exact Hc].
    apply elem_of_app. right. apply elem_of_app. now left.
Qed.

(** *** Patterns of the table *)

Lemma table_label_ok (fp : fpat) : fp ∈ table -> label_ok (f_label fp) = true.
Proof.
  intros Hin. pose proof table_labels_ok as H.
  rewrite forallb_forall in H. apply H. now apply list_elem_of_In.
Qed.

Lemma table_kind_ok (fp : fpat) : fp ∈ table -> kind_ok (f_kind fp) = true.
Proof.
  intros Hin. pose proof table_kinds_ok as H.
  rewrite forallb_forall in H. apply H. now apply list_elem_of_In.
Qed.

(** An accepted text, taken apart, with what is known of its parts. *)
Lemma accepted_parts (fp : fpat) (t : pystr) :
  fp ∈ table -> accepts (pattern_of fp) t ->
  exists h c tl, t = h ++ c :: tl /\ accepts (head_of fp) h /\
                 forallb head_char h = true /\ is_sep c = true /\
                 accepts (tail_of fp) tl.
Proof.
  intros Hin (h & c & tl & -> & Hh & Hc & Htl)%accepts_field.
  exists h, c, tl. repeat split; try assumption.
  eapply head_chars; [|exact Hh]. now apply table_label_ok.
Qed.

(** What is accepted is found: a match of positive length. *)
Lemma accepted_matches (fp : fpat) (t rest : pystr) :
  accepts (pattern_of fp) t ->
  exists n, match_items (pattern_of fp) (t ++ rest) = Some (S n).
Proof.
  intros Ht.
  destruct (accepts_match_items _ _ rest Ht) as [[|n] Hn]; [|now exists n].
  apply match_items_accepts in Hn as [_ Hn]. rewrite take_0 in Hn.
  apply accepts_field in Hn as (h & c & tl & Heq & _).
  now destruct h.
Qed.

(** The first separator of a text is where it is. *)
Lemma first_sep_unique (h a : pystr) (c c' : N) (x y : pystr) :
  forallb head_char h = true -> forallb head_char a = true ->
  is_sep c = true -> is_sep c' = true ->
  h ++ c :: x = a ++ c' :: y -> h = a /\ c = c' /\ x = y.
Proof.
  intros Hh Ha Hc Hc'. revert a Ha.
  induction h as [|u h IH]; intros [|v a] Ha; simpl.
  - intros [= -> ->]. easy.
  - intros [= -> _]. simpl in Ha. apply andb_true_iff in Ha as [Hv _].
    apply head_char_not_sep in Hv. congruence.
  - intros [= -> _]. simpl in Hh. apply andb_true_iff in Hh as [Hu _].
    apply head_char_not_sep in Hu. congruence.
  - intros [= -> H]. simpl in Hh, Ha.
    apply andb_true_iff in Hh as [_ Hh]. apply andb_true_iff in Ha as [_ Ha].
    destruct (IH Hh a Ha H) as (-> & -> & ->). easy.
Qed.

(** *** Clean texts

    A text is clean for a pattern when whatever the pattern accepts in
    it is replaced by itself.  Masking leaves a clean text as it is. *)

Definition clean (p : list item) (text : pystr) : Prop :=
  forall pre t rest, text = pre ++ t ++ rest -> accepts p t ->
                     mask_match t = t.

Lemma clean_suffix (p : list item) (a b : pystr) :
  clean p (a ++ b) -> clean p b.
Proof.
  intros H pre t rest -> Ht. apply (H (a ++ pre) t rest); [|exact Ht].
  now rewrite <- app_assoc.
Qed.

Lemma clean_scan (p : list item) :
  forall k text, length text <= k -> clean p text -> scan p text 0 = text.
Proof.
  induction k as [|k IH]; intros [|c t] Hlen Hc; simpl in *;
    try reflexivity; try lia.
  assert (Ht : scan p t 0 = t).
  { apply IH; [lia|]. now apply (clean_suffix p [c]). }
  destruct (match_items p (c :: t)) as [[|n]|] eqn:E;
    [now rewrite Ht| |now rewrite Ht].
  apply match_items_accepts in E as [Hn Ha]. simpl in Hn.
  simpl in Ha.
  rewrite (Hc [] (c :: take n t) (drop n t));
    [|simpl; now rewrite take_drop|exact Ha].
  rewrite scan_skip by lia. simpl. f_equal.
  rewrite IH.
  - apply take_drop.
  - rewrite length_drop. lia.
  - apply (clean_suffix p (c :: take n t)). simpl. now rewrite take_drop.
Qed.

(** *** The first match

    Either the pattern matches nowhere and the text stays, or the text
    is a gap without a match, the first match and the rest. *)

Definition nomatch (p : list item) (text : pystr) : Prop :=
  forall pre suf n, text = pre ++ suf -> match_items p suf <> Some (S n).

Definition gapfree (p : list item) (g X : pystr) : Prop :=
  forall g1 g2 n, g = g1 ++ g2 -> g2 <> [] ->
                  match_items p (g2 ++ X) <> Some (S n).

Lemma scan_split (p : list item) :
  forall text,
    (nomatch p text /\ scan p text 0 = text) \/
    exists g n X,
      text = g ++ X /\ match_items p X = Some (S n) /\ gapfree p g X /\
      scan p text 0
      = g ++ mask_match (take (S n) X) ++ scan p (drop (S n) X) 0.
Proof.
  induction text as [|c t IH].
  - left. split; [|reflexivity]. intros pre suf n Heq H.
    symmetry in Heq. apply app_eq_nil in Heq as [_ ->].
    apply match_items_accepts in H as [H _]. simpl in H. lia.
  - assert (Hnot : (forall n, match_items p (c :: t) <> Some (S n)) ->
                   scan p (c :: t) 0 = c :: scan p t 0).
    { intros H. simpl. destruct (match_items p (c :: t)) as [[|n]|];
        try reflexivity. now destruct (H n). }
    destruct (match_items p (c :: t)) as [[|n]|] eqn:E.
    2:{ right. exists [], n, (c :: t).
        split; [reflexivity|]. split; [exact E|]. split.
        - intros g1 g2 k Heq Hne. symmetry in Heq.
          apply app_eq_nil in Heq as [_ ->]. contradiction.
        - simpl. rewrite E. f_equal.
          apply match_items_accepts in E as [Hn _]. simpl in Hn.
          apply scan_skip. lia. }
    all: rewrite Hnot by (intros n; congruence).
    all: destruct IH as [[Hno Hs]|(g & n & X & -> & Hm & Hgap & Hs)];
      [left; split; [|now rewrite Hs];
       intros [|x pre] suf n; simpl;
       [intros <-; congruence|intros [= _ ->]; exact (Hno pre suf n eq_refl)]
      |right; exists (c :: g), n, X;
       (split; [reflexivity|]); (split; [exact Hm|]);
       (split; [|simpl; now rewrite Hs]);
       intros [|x g1] g2 k; simpl;
       [intros <- _; simpl; congruence
       |intros [= _ ->]; exact (Hgap g1 g2 k eq_refl)]].
Qed.

(** *** Replacements *)

(** The tail of a text that is replaced by itself. *)
Lemma masked_tail (h : pystr) (c : N) (tl : pystr) :
  forallb head_char h = true -> is_sep c = true ->
  mask_match (h ++ c :: tl) = h ++ c :: tl ->
  tl = 32%N :: repeat star (length (strip tl)).
Proof.
  intros Hh Hc. rewrite mask_match_field by assumption.
  intros H. apply app_inv_head in H. injection H as _ H. now symmetry.
Qed.

Lemma elem_of_masked_tail (x : N) (k : nat) :
  x ∈ 32%N :: repeat star k -> x = 32%N \/ x = star.
Proof.
  intros [->|H]%elem_of_cons; [now left|]. right.
  apply list_elem_of_In in H. now apply repeat_spec in H.
Qed.

Lemma forallb_repeat (f : N -> bool) (x : N) (k : nat) :
  f x = true -> forallb f (repeat x k) = true.
Proof. intros H. induction k; simpl; [reflexivity|]. now rewrite H. Qed.

Lemma take_repeat (x : N) (k m : nat) :
  k <= m -> take k (repeat x m) = repeat x k.
Proof.
  revert m. induction k as [|k IH]; intros [|m] H; simpl; try reflexivity;
    try lia.
  f_equal. apply IH. lia.
Qed.

(** A masked field is replaced by itself. *)
Lemma masked_fixed (a : pystr) (c : N) (k : nat) :
  forallb head_char a = true -> is_sep c = true ->
  mask_match (a ++ c :: 32%N :: repeat star k) = a ++ c :: 32%N :: repeat star k.
Proof.
  intros Ha Hc. rewrite mask_match_field by assumption.
  change (32%N :: repeat star k) with ([32%N] ++ repeat star k).
  rewrite strip_spaces_solid, repeat_length;
    [|reflexivity|now apply forallb_repeat].
  do 2 f_equal. unfold sep_of, has_char. cbn [existsb app].
  replace (existsb (N.eqb colon) (repeat star k)) with false.
  - unfold is_sep in Hc.
    apply orb_true_iff in Hc as [->%N.eqb_eq| ->%N.eqb_eq]; reflexivity.
  - symmetry. induction k; simpl; [reflexivity|assumption].
Qed.

(** A match of a pattern whose value is one greedy run ends where the
    run ends. *)
Lemma field_greedy (fq : fpat) (k : nat) (cls : N -> bool) (X : pystr)
    (n : nat) :
  value_of (f_kind fq) = [AtLeast k cls] ->
  match_items (pattern_of fq) X = Some n -> stops cls (drop n X).
Proof.
  intros Hv. unfold pattern_of, field. rewrite Hv, app_assoc.
  apply match_items_greedy.
Qed.

(** What a match is replaced by. *)
Lemma replacement (fq : fpat) (X : pystr) (n : nat) :
  fq ∈ table -> match_items (pattern_of fq) X = Some n ->
  exists hq c0 tlq m c',
    take n X = hq ++ c0 :: tlq /\
    mask_match (take n X) = hq ++ c' :: 32%N :: repeat star m /\
    accepts (head_of fq) hq /\ forallb head_char hq = true /\
    is_sep c0 = true /\ is_sep c' = true /\
    (0 < m \/ stops is_number_char (drop n X)) /\
    (f_kind fq = VPassword -> 6 <= m /\ stops is_password_char (drop n X)).
Proof.
  intros Hin Hm.
  destruct (match_items_accepts _ _ _ Hm) as [_ Ha].
  destruct (accepted_parts _ _ Hin Ha) as (h & c & tl & Heq & Hh & Hhc & Hc & Htl).
  exists h, c, tl, (length (strip tl)), (sep_of (c :: tl)).
  split; [exact Heq|]. split; [rewrite Heq; now apply mask_match_field|].
  split; [exact Hh|]. split; [exact Hhc|]. split; [exact Hc|].
  split; [apply is_sep_sep_of|].
  unfold tail_of in Htl.
  destruct (f_kind fq) as [|k| |] eqn:Hk.
  - apply tail_password in Htl as (w & v & -> & Hw & Hv & Hlen).
    rewrite strip_spaces_solid
      by first [assumption
               |eapply forallb_weaken; [apply password_solid|exact Hv]].
    split; [left; lia|]. intros _. split; [exact Hlen|].
    eapply field_greedy; [|exact Hm]. now rewrite Hk.
  - split; [|discriminate]. right.
    eapply field_greedy; [|exact Hm]. now rewrite Hk.
  - split; [|discriminate]. left.
    pose proof (table_kind_ok _ Hin) as Hok. rewrite Hk in Hok.
    destruct (tail_number VDigits tl) as (_ & _ & [[k E]|(x & Hx & Hs)]);
      try assumption; try discriminate.
    now apply (strip_keeps x).
  - split; [|discriminate]. left.
    pose proof (table_kind_ok _ Hin) as Hok. rewrite Hk in Hok.
    destruct (tail_number VResident tl) as (_ & _ & [[k E]|(x & Hx & Hs)]);
      try assumption; try discriminate.
    now apply (strip_keeps x).
Qed.

(** A value that is no password is never replaced by itself. *)
Lemma number_not_masked (fp : fpat) (t : pystr) :
  fp ∈ table -> f_kind fp <> VPassword -> accepts (pattern_of fp) t ->
  mask_match t <> t.
Proof.
  intros Hin Hk Ht Hm.
  destruct (accepted_parts _ _ Hin Ht) as (h & c & tl & -> & _ & Hh & Hc & Htl).
  apply masked_tail in Hm; try assumption.
  destruct (tail_number _ _ Hk (table_kind_ok _ Hin) Htl) as (Hnum & Hlen & _).
  rewrite Hm in Hnum, Hlen. cbn [length] in Hlen. rewrite repeat_length in Hlen.
  destruct (length (strip tl)) as [|m]; [lia|].
  cbn [repeat forallb] in Hnum.
  apply andb_true_iff in Hnum as [_ [Hs _]%andb_true_iff].
  rewrite star_not_number in Hs. discriminate.
Qed.

(** The masked text begins as the text does. *)
Lemma scan_head (fq : fpat) (c : N) (t : pystr) :
  fq ∈ table -> exists r, scan (pattern_of fq) (c :: t) 0 = c :: r.
Proof.
  intros Hin. cbn [scan].
  destruct (match_items (pattern_of fq) (c :: t)) as [[|n]|] eqn:E;
    try (now eexists).
  destruct (replacement _ _ _ Hin E)
    as (hq & c0 & tlq & m & c' & Ht & -> & Hh & _).
  destruct (head_first _ _ (table_label_ok _ Hin) Hh) as (x & hq' & -> & _).
  simpl in Ht. injection Ht as -> _. now eexists.
Qed.

Lemma scan_stops (fq : fpat) (cls : N -> bool) (s : pystr) :
  fq ∈ table -> stops cls s -> stops cls (scan (pattern_of fq) s 0).
Proof.
  intros Hin. destruct s as [|c t]; [easy|].
  destruct (scan_head fq c t Hin) as [r ->]. easy.
Qed.

(** *** Labels

    The label of a password pattern ends no other label of the table
    and is the end of none. *)

Definition labels_apart : bool :=
  forallb
    (fun fp =>
       match f_kind fp with
       | VPassword =>
           forallb
             (fun wp =>
                forallb
                  (fun fq =>
                     forallb
                       (fun wq =>
                          implb (suffix_related wq wp) (bool_decide (fq = fp)))
                       (label_words (f_label fq)))
                  table)
             (label_words (f_label fp))
       | _ => true
       end)
    table.

Lemma labels_apart_ok : labels_apart = true.
Proof. vm_compute. reflexivity. Qed.

Lemma heads_apart (fp fq : fpat) (a hq u : pystr) :
  fp ∈ table -> fq ∈ table -> f_kind fp = VPassword ->
  accepts (head_of fp) a -> accepts (head_of fq) hq ->
  a = u ++ hq \/ hq = u ++ a -> fq = fp.
Proof.
  intros Hp Hq Hk Ha Hh Hrel.
  destruct (label_word _ (label_ok_items _ (table_label_ok _ Hp)) _ Ha)
    as (wp & Hwp & Hcp).
  destruct (label_word _ (label_ok_items _ (table_label_ok _ Hq)) _ Hh)
    as (wq & Hwq & Hcq).
  assert (Hs : suffix_related wq wp = true).
  { apply (suffix_related_intro wq wp (List.filter letter a)
             (List.filter letter hq) (List.filter letter u));
      try assumption.
    destruct Hrel as [-> | ->]; rewrite List.filter_app; auto. }
  pose proof labels_apart_ok as H. unfold labels_apart in H.
  rewrite forallb_forall in H. apply list_elem_of_In in Hp, Hq, Hwp, Hwq.
  specialize (H fp Hp). rewrite Hk in H.
  rewrite forallb_forall in H. specialize (H wp Hwp).
  rewrite forallb_forall in H. specialize (H fq Hq).
  rewrite forallb_forall in H. specialize (H wq Hwq).
  rewrite Hs in H. simpl in H. now apply bool_decide_eq_true in H.
Qed.

(** *** Where a pattern can accept in a masked text *)

(** From the head of a replacement on: only the password pattern that
    made it accepts, and what it accepts is masked. *)
Lemma inner_occurrence (fp fq : fpat) (a : pystr) (c' : N) (m : nat)
    (Y t rest : pystr) :
  fp ∈ table ->
  forallb head_char a = true -> is_sep c' = true ->
  0 < m \/ stops is_number_char Y ->
  (f_kind fq = VPassword -> 6 <= m /\ stops is_password_char Y) ->
  (accepts (head_of fp) a -> f_kind fp = VPassword -> fq = fp) ->
  a ++ c' :: 32%N :: repeat star m ++ Y = t ++ rest ->
  accepts (pattern_of fp) t -> mask_match t = t.
Proof.
  intros Hp Ha Hc' Hm Hpw Hcompat Heq Ht.
  destruct (accepted_parts _ _ Hp Ht) as (h & c & tl & -> & Hh & Hhc & Hc & Htl).
  rewrite <- app_assoc in Heq. cbn [app] in Heq. symmetry in Heq.
  destruct (first_sep_unique _ _ _ _ _ _ Hhc Ha Hc Hc' Heq) as (-> & -> & Hrest).
  unfold tail_of in Htl.
  destruct (decide (f_kind fp = VPassword)) as [Hk|Hk].
  - rewrite Hk in Htl. specialize (Hcompat Hh Hk). subst fq.
    destruct (Hpw Hk) as [Hm6 HY].
    apply tail_password in Htl as (w & v & -> & Hw & Hv & Hlen).
    rewrite <- app_assoc in Hrest.
    destruct w as [|x w].
    { destruct v as [|x v]; [simpl in Hlen; lia|].
      simpl in Hrest. injection Hrest as -> _. simpl in Hv.
      apply andb_true_iff in Hv as [Hx _].
      rewrite space_not_password in Hx by reflexivity. discriminate. }
    simpl in Hrest. injection Hrest as -> Hrest.
    destruct m as [|m]; [lia|].
    destruct w as [|y w].
    2:{ simpl in Hrest. injection Hrest as -> _. simpl in Hw. discriminate. }
    simpl in Hrest.
    assert (Hle : length v <= S m).
    { pose proof (run_length_app_ge is_password_char v rest Hv) as H1.
      rewrite Hrest in H1.
      change (star :: repeat star m ++ Y) with (repeat star (S m) ++ Y) in H1.
      rewrite run_length_all, repeat_length in H1; try assumption.
      apply forallb_repeat, star_password. }
    assert (Hv' : v = repeat star (length v)).
    { rewrite <- (take_app_length v rest), Hrest.
      change (star :: repeat star m ++ Y) with (repeat star (S m) ++ Y).
      rewrite take_app_le by (rewrite repeat_length; lia).
      rewrite take_repeat by lia. now rewrite repeat_length. }
    rewrite Hv'. now apply masked_fixed.
  - exfalso.
    destruct (tail_number _ _ Hk (table_kind_ok _ Hp) Htl) as (Hnum & Hlen & _).
    destruct tl as [|x [|y tl]]; simpl in Hlen; try lia.
    simpl in Hrest. injection Hrest as -> Hrest.
    simpl in Hnum. apply andb_true_iff in Hnum as [_ [Hy _]%andb_true_iff].
    destruct m as [|m].
    + destruct Hm as [Hm|Hm]; [lia|]. simpl in Hrest.
      rewrite <- Hrest in Hm. simpl in Hm. congruence.
    + simpl in Hrest. injection Hrest as -> _.
      rewrite star_not_number in Hy. discriminate.
Qed.

(** A run of password characters at the head of a replacement is as
    long a run at the head of what was replaced. *)
Lemma cross_prefix (hq : pystr) (c' c0 : N) (A B : pystr) :
  is_sep c0 = true ->
  forall r restR,
    r ++ restR = hq ++ c' :: 32%N :: A ->
    forallb is_password_char r = true ->
    exists r' rest', hq ++ c0 :: B = r' ++ rest' /\
                     forallb is_password_char r' = true /\
                     length r' = length r.
Proof.
  intros Hc0. induction hq as [|u hq IH]; intros r restR Heq Hr.
  - destruct r as [|x [|y r]].
    + now exists [], (c0 :: B).
    + exists [c0], B. simpl. rewrite (sep_password _ Hc0). easy.
    + simpl in Heq. injection Heq as _ -> _. simpl in Hr.
      apply andb_true_iff in Hr as [_ [Hy _]%andb_true_iff].
      rewrite space_not_password in Hy by reflexivity. discriminate.
  - destruct r as [|x r].
    + now exists [], ((u :: hq) ++ c0 :: B).
    + simpl in Heq. injection Heq as -> Heq. simpl in Hr.
      apply andb_true_iff in Hr as [Hu Hr].
      destruct (IH r restR Heq Hr) as (r' & rest' & E & Hr' & Hlen).
      exists (u :: r'), rest'. simpl. rewrite E, Hu, Hr', Hlen. easy.
Qed.

(** No accepted text begins in the gap and ends in the replacement. *)
Lemma cross_occurrence (fp : fpat) (g' hq' : pystr) (l c' c0 : N)
    (A B h : pystr) (c : N) (tl rest : pystr) :
  fp ∈ table -> letter l = true -> is_sep c0 = true ->
  accepts (head_of fp) h -> forallb head_char h = true -> is_sep c = true ->
  accepts (tail_of fp) tl ->
  length h < length g' -> length g' < length (h ++ c :: tl) ->
  g' ++ (l :: hq') ++ c' :: 32%N :: A = (h ++ c :: tl) ++ rest ->
  (forall t' rest',
     g' ++ (l :: hq') ++ c0 :: B = t' ++ rest' ->
     accepts (pattern_of fp) t' -> mask_match t' = t') ->
  False.
Proof.
  intros Hp Hl Hc0 Hh Hhc Hc Htl Hlt1 Hlt2 Heq Hsrc.
  rewrite length_app in Hlt2. cbn [length] in Hlt2.
  rewrite <- app_assoc in Heq. cbn [app] in Heq.
  apply app_eq_app in Heq as [z [[-> Heq]|[-> Heq]]];
    [|rewrite length_app in Hlt1; lia].
  rewrite length_app in Hlt1, Hlt2.
  destruct z as [|c1 g2]; [simpl in Hlt1; lia|].
  cbn [app length] in Heq, Hlt2. injection Heq as <- Heq.
  apply app_eq_app in Heq as [z [[-> Heq]|[-> Heq]]];
    [|rewrite length_app in Hlt2; lia].
  destruct z as [|l' z]; [rewrite app_nil_r in Hlt2; lia|].
  cbn [app] in Heq. injection Heq as <- Heq.
  unfold tail_of in Htl.
  destruct (decide (f_kind fp = VPassword)) as [Hk|Hk].
  - rewrite Hk in Htl.
    apply tail_password in Htl as (w & v & Etl & Hw & Hv & Hlen).
    assert (Hgood : forall w' v1,
               forallb is_space w' = true ->
               forallb is_password_char (v1 ++ l :: z) = true ->
               6 <= length (v1 ++ l :: z) -> g2 = w' ++ v1 -> False).
    { intros w' v1 Hw' Hv' Hlen' ->. rewrite forallb_app in Hv'.
      apply andb_true_iff in Hv' as [Hv1 Hv'].
      simpl in Hv'. apply andb_true_iff in Hv' as [Hlv Hv'].
      destruct (cross_prefix hq' c' c0 A B Hc0 z rest)
        as (r' & rest' & E & Hr' & Hlr); [now symmetry|exact Hv'|].
      assert (Hm : mask_match (h ++ c :: w' ++ v1 ++ l :: r')
                   = h ++ c :: w' ++ v1 ++ l :: r').
      { apply (Hsrc _ rest').
        - rewrite <- !app_assoc. cbn [app]. rewrite <- !app_assoc. cbn [app].
          now rewrite E.
        - apply accepts_field. exists h, c, (w' ++ v1 ++ l :: r').
          repeat split; try assumption. unfold tail_of. rewrite Hk.
          apply tail_password. exists w', (v1 ++ l :: r').
          repeat split; try assumption.
          + rewrite forallb_app. simpl. now rewrite Hv1, Hlv, Hr'.
          + rewrite length_app in *. simpl in *. lia. }
      apply masked_tail in Hm; try assumption.
      assert (Hin : l ∈ w' ++ v1 ++ l :: r').
      { apply elem_of_app; right. apply elem_of_app; right.
        apply list_elem_of_here. }
      rewrite Hm in Hin. apply elem_of_masked_tail in Hin as [->| ->].
      - discriminate.
      - now apply letter_not_star in Hl. }
    apply app_eq_app in Etl as [z3 [[Eg Ev]|[Ew Ev]]].
    + subst v. now apply (Hgood w z3).
    + destruct z3 as [|x z3].
      * rewrite app_nil_r in Ew. simpl in Ev. subst v w.
        apply (Hgood g2 []); try assumption. now rewrite app_nil_r.
      * simpl in Ev. injection Ev as -> _. subst w.
        rewrite forallb_app in Hw. apply andb_true_iff in Hw as [_ Hw].
        simpl in Hw. apply andb_true_iff in Hw as [Hw _].
        rewrite (letter_not_space _ Hl) in Hw. discriminate.
  - destruct (tail_number _ _ Hk (table_kind_ok _ Hp) Htl) as (Hnum & _).
    rewrite forallb_app in Hnum. apply andb_true_iff in Hnum as [_ Hnum].
    simpl in Hnum. apply andb_true_iff in Hnum as [Hnum _].
    rewrite (letter_not_number _ Hl) in Hnum. discriminate.
Qed.

Lemma accepted_first (fp : fpat) (t : pystr) :
  fp ∈ table -> accepts (pattern_of fp) t ->
  exists x t', t = x :: t' /\ letter x = true.
Proof.
  intros Hp Ht.
  destruct (accepted_parts _ _ Hp Ht) as (h & c & tl & -> & Hh & _).
  destruct (head_first _ _ (table_label_ok _ Hp) Hh) as (x & h' & -> & Hx).
  now exists x, (h' ++ c :: tl).
Qed.

Lemma masked_not_letter (x c' : N) (m : nat) :
  is_sep c' = true -> x ∈ c' :: 32%N :: repeat star m -> letter x = false.
Proof.
  intros Hc [->|H]%elem_of_cons.
  - destruct (letter c') eqn:E; [|reflexivity].
    apply letter_not_sep in E. congruence.
  - apply elem_of_masked_tail in H as [->| ->]; reflexivity.
Qed.

(** *** Masking keeps a text clean

    The text masked for one pattern is clean for it, and stays clean for
    every pattern for which it was clean before. *)
Lemma scan_keeps_clean (fp fq : fpat) :
  fp ∈ table -> fq ∈ table ->
  forall k S, length S <= k ->
              fp = fq \/ clean (pattern_of fp) S ->
              clean (pattern_of fp) (scan (pattern_of fq) S 0).
Proof.
  intros Hp Hq. induction k as [|k IH]; intros S Hlen Hsrc.
  { destruct S; [|simpl in Hlen; lia]. simpl.
    intros pre t rest Heq Ht.
    destruct (accepted_first _ _ Hp Ht) as (x & t' & -> & _).
    now destruct pre. }
  destruct (scan_split (pattern_of fq) S)
    as [[Hno Hs]|(g & n & X & -> & Hm & Hgap & Hs)].
  - rewrite Hs. destruct Hsrc as [->|Hc]; [|exact Hc].
    intros pre t rest -> Ht. exfalso.
    destruct (accepted_matches fq t rest Ht) as [n Hn].
    exact (Hno pre (t ++ rest) n eq_refl Hn).
  - rewrite Hs.
    destruct (replacement _ _ _ Hq Hm)
      as (hq & c0 & tlq & m & c' & Etake & -> & Hh & Hhc & Hc0 & Hc' & Hm0 & Hpw).
    destruct (head_first _ _ (table_label_ok _ Hq) Hh) as (l & hq' & -> & Hl).
    set (S' := drop (S n) X) in *.
    set (Y := scan (pattern_of fq) S' 0).
    assert (EX : X = (l :: hq') ++ c0 :: tlq ++ S').
    { rewrite <- (take_drop (S n) X) at 1. rewrite Etake.
      now rewrite <- app_assoc. }
    assert (HlenS' : length S' <= k).
    { rewrite EX in Hlen. rewrite !length_app in Hlen. simpl in Hlen.
      rewrite length_app in Hlen. lia. }
    assert (HY : clean (pattern_of fp) Y).
    { apply IH; [exact HlenS'|]. destruct Hsrc as [->|Hc]; [now left|right].
      apply (clean_suffix _ (g ++ take (S n) X)). unfold S'.
      now rewrite <- app_assoc, take_drop. }
    assert (Hgapsrc : forall g1 g2 t' rest',
               g = g1 ++ g2 -> g2 <> [] -> g2 ++ X = t' ++ rest' ->
               accepts (pattern_of fp) t' -> mask_match t' = t').
    { intros g1 g2 t' rest' -> Hne E Ht'. destruct Hsrc as [->|Hc].
      - exfalso. destruct (accepted_matches fq t' rest' Ht') as [n' Hn'].
        rewrite <- E in Hn'. exact (Hgap g1 g2 n' eq_refl Hne Hn').
      - apply (Hc g1 t' rest'); [|exact Ht'].
        rewrite <- app_assoc. now rewrite E. }
    assert (HmY : 0 < m \/ stops is_number_char Y).
    { destruct Hm0 as [H|H]; [now left|right]. now apply scan_stops. }
    assert (HpwY : f_kind fq = VPassword ->
                   6 <= m /\ stops is_password_char Y).
    { intros Hk. destruct (Hpw Hk) as [H1 H2]. split; [exact H1|].
      now apply scan_stops. }
    clear Hm0 Hpw.
    intros pre t rest Heq Ht.
    rewrite <- !app_assoc in Heq. cbn [app] in Heq.
    apply app_eq_app in Heq as [z [[Eg Et]|[Epre ER]]].
    + (* the accepted text begins in the gap or where the match began *)
      destruct z as [|x z].
      * cbn [app] in Et.
        apply (inner_occurrence fp fq (l :: hq') c' m Y t rest);
          try assumption.
        -- intros Ha Hk. apply (heads_apart fp fq (l :: hq') (l :: hq') []);
             try assumption. now left.
        -- now rewrite Et.
      * destruct (accepted_parts _ _ Hp Ht)
          as (h & c & tl & -> & Hhp & Hhpc & Hc & Htl).
        destruct (le_lt_dec (length (h ++ c :: tl)) (length (x :: z)))
          as [Hin|Hout].
        -- (* inside the gap *)
           assert (exists z2, x :: z = (h ++ c :: tl) ++ z2) as [z2 Ez].
           { apply app_eq_app in Et as [z2 [[E1 E2]|[E1 E2]]].
             - rewrite E1, length_app in Hin.
               assert (length z2 = 0) as Hz by lia.
               destruct z2; [|discriminate]. exists [].
               rewrite app_nil_r in E1 |- *. now symmetry.
             - now exists z2. }
           apply (Hgapsrc pre (x :: z) _ (z2 ++ X)); try assumption.
           ++ discriminate.
           ++ rewrite Ez. now rewrite <- app_assoc.
        -- destruct (le_lt_dec (length (x :: z)) (length h)) as [Hle|Hlt].
           ++ (* the gap holds no separator *)
              assert (Hz : forallb head_char (x :: z) = true).
              { rewrite <- app_assoc in Et.
                apply app_eq_app in Et as [z2 [[E1 E2]|[E1 E2]]].
                - rewrite E1 in Hhpc. rewrite forallb_app in Hhpc.
                  now apply andb_true_iff in Hhpc as [H1 _].
                - rewrite E1, length_app in Hle.
                  assert (length z2 = 0) as Hz by lia.
                  destruct z2; [|discriminate].
                  rewrite app_nil_r in E1. now rewrite E1. }
              apply (inner_occurrence fp fq ((x :: z) ++ l :: hq') c' m Y
                       (h ++ c :: tl) rest); try assumption.
              ** rewrite forallb_app. now rewrite Hz, Hhc.
              ** intros Ha Hk.
                 apply (heads_apart fp fq ((x :: z) ++ l :: hq') (l :: hq')
                          (x :: z)); try assumption. now left.
              ** rewrite Et. now rewrite <- !app_assoc.
           ++ (* the text would run from the gap into the replacement *)
              exfalso.
              apply (cross_occurrence fp (x :: z) hq' l c' c0
                       (repeat star m ++ Y) (tlq ++ S') h c tl rest);
                try assumption.
              ** now rewrite Et.
              ** intros t' rest' E Ht'.
                 apply (Hgapsrc pre (x :: z) t' rest'); try assumption.
                 --- discriminate.
                 --- now rewrite EX.
    + (* the accepted text begins behind the start of the replacement *)
      change (l :: hq' ++ c' :: 32%N :: repeat star m ++ Y)
        with ((l :: hq') ++ (c' :: 32%N :: repeat star m) ++ Y) in ER.
      rewrite app_assoc in ER.
      apply app_eq_app in ER as [z2 [[ER Et]|[ER EY]]].
      2:{ apply (HY z2 t rest); [|exact Ht]. exact EY. }
      destruct z2 as [|x z2].
      { apply (HY [] t rest); [|exact Ht]. simpl. now rewrite Et. }
      destruct (accepted_first _ _ Hp Ht) as (x0 & t' & Et0 & Hx0).
      assert (x0 = x) as -> by (subst t; now injection Et).
      apply app_eq_app in ER as [z3 [[E1 E2]|[E1 E2]]].
      * destruct z3 as [|y z3].
        -- simpl in E2. injection E2 as -> _.
           apply letter_not_sep in Hx0. congruence.
        -- assert (Hz3 : forallb head_char (y :: z3) = true).
           { rewrite E1, forallb_app in Hhc.
             now apply andb_true_iff in Hhc as [_ H]. }
           apply (inner_occurrence fp fq (y :: z3) c' m Y t rest);
             try assumption.
           ++ intros Ha Hk.
              apply (heads_apart fp fq (y :: z3) (l :: hq') z);
                try assumption. now right.
           ++ rewrite Et, E2. now rewrite <- app_assoc.
      * exfalso.
        assert (Hin : x ∈ c' :: 32%N :: repeat star m).
        { rewrite E2. apply elem_of_app. right. apply list_elem_of_here. }
        apply (masked_not_letter _ _ _ Hc') in Hin. congruence.
Qed.

(** *** The whole table *)

(** The text after the loops of [detect_and_mask_pii]. *)
Definition mask_all (fps : list fpat) (text : pystr) : pystr :=
  fold_left (fun masked_text fp => scan (pattern_of fp) masked_text 0)
            fps text.

Lemma mask_patterns_text (t : pii_type) (patterns : list (list item)) :
  forall text warnings,
    (mask_patterns t patterns text warnings).1
    = fold_left (fun masked_text p => scan p masked_text 0) patterns text.
Proof.
  induction patterns as [|p ps IH]; intros text warnings; simpl;
    [reflexivity|].
  rewrite <- mask_text_scan.
  destruct (mask_text text p) as [text' was_masked]. apply IH.
Qed.

Lemma mask_types_text (tbl : list (pii_type * list (list item))) :
  forall text warnings,
    (mask_types tbl text warnings).1
    = fold_left (fun masked_text p => scan p masked_text 0)
                (concat (map snd tbl)) text.
Proof.
  induction tbl as [|[t ps] tbl IH]; intros text warnings; simpl;
    [reflexivity|].
  rewrite fold_left_app, <- (mask_patterns_text t ps text warnings).
  destruct (mask_patterns t ps text warnings) as [text' warnings'].
  apply IH.
Qed.

Lemma detect_and_mask_pii_text (text : pystr) :
  (detect_and_mask_pii text).1 = mask_all table text.
Proof.
  unfold detect_and_mask_pii, mask_all. destruct text as [|c text].
  - reflexivity.
  - rewrite mask_types_text, PII_PATTERNS_table.
    generalize (c :: text). generalize table.
    induction l as [|fp l IH]; intros s; simpl; [reflexivity|]. apply IH.
Qed.

Lemma mask_all_clean (todo : list fpat) :
  forall done text,
    (forall fp, fp ∈ done ++ todo -> fp ∈ table) ->
    (forall fp, fp ∈ done -> clean (pattern_of fp) text) ->
    forall fp, fp ∈ done ++ todo ->
               clean (pattern_of fp) (mask_all todo text).
Proof.
  induction todo as [|fq todo IH]; intros done text Htab Hdone fp Hin.
  - rewrite app_nil_r in Hin. now apply Hdone.
  - change (mask_all (fq :: todo) text)
      with (mask_all todo (scan (pattern_of fq) text 0)).
    assert (E : done ++ fq :: todo = (done ++ [fq]) ++ todo)
      by now rewrite <- app_assoc.
    rewrite E in Hin, Htab.
    apply (IH (done ++ [fq])); try assumption.
    intros fp' [H|H]%elem_of_app.
    + apply (scan_keeps_clean fp' fq) with (k := length text);
        [apply Htab|apply Htab| |right; now apply Hdone]; try lia.
      * apply elem_of_app. left. apply elem_of_app. now left.
      * apply elem_of_app. left. apply elem_of_app. right. now left.
    + apply list_elem_of_singleton in H as ->.
      apply (scan_keeps_clean fq fq) with (k := length text);
        [apply Htab|apply Htab| |now left]; try lia.
      * apply elem_of_app. left. apply elem_of_app. right. now left.
      * apply elem_of_app. left. apply elem_of_app. right. now left.
Qed.

Lemma mask_all_id (fps : list fpat) (text : pystr) :
  (forall fp, fp ∈ fps -> clean (pattern_of fp) text) ->
  mask_all fps text = text.
Proof.
  induction fps as [|fp fps IH]; intros H; [reflexivity|].
  change (mask_all (fp :: fps) text)
    with (mask_all fps (scan (pattern_of fp) text 0)).
  rewrite (clean_scan _ (length text)); [|lia|apply H; now left].
  apply IH. intros fp' Hin. apply H. now right.
Qed.

(** X1.  Redacting is idempotent on the text.  For tables of [\w] and
    [\d] under which no letter of a label and no asterisk is a digit
    and white space is neither a word character nor a digit (as in
    Unicode), [detect_and_mask_pii] applied to the text it returned
    returns that text unchanged, for every input. *)
Theorem detect_and_mask_pii_idempotent (text : pystr) :
  (detect_and_mask_pii (detect_and_mask_pii text).1).1
  = (detect_and_mask_pii text).1.
Proof.
  rewrite (detect_and_mask_pii_text (detect_and_mask_pii text).1).
  rewrite (detect_and_mask_pii_text text).
  apply mask_all_id. intros fp Hin.
  apply (mask_all_clean table [] text); try assumption.
  - intros fp' H. exact H.
  - intros fp' H. now apply elem_of_nil in H.
Qed.

End Idempotence.

(** ** What a match is replaced by *)

(** X2.  A match of a pattern of [PII_PATTERNS] is the text before its
    first separator, made of the letters of the label and white space,
    the separator and the value; it is replaced by the text before the
    separator, a colon if the match holds one and an equals sign
    otherwise, one space, and one asterisk for each character of the
    value stripped of the white space around it. *)
Theorem match_replaced_by_stars (p : list item) (s : pystr) (n : nat) :
  p ∈ concat (map snd PII_PATTERNS) -> match_items p s = Some n ->
  exists before c after,
    take n s = before ++ c :: after /\
    forallb head_char before = true /\ is_sep c = true /\
    mask_match (take n s)
    = before ++ (if has_char colon (take n s) then colon else equals)
        :: 32%N :: repeat star (length (strip after)).
Proof.
  rewrite PII_PATTERNS_table.
  intros (fp & -> & Hin)%list_elem_of_fmap Hm.
  destruct (match_items_accepts _ _ _ Hm) as [_ Ha].
  destruct (accepted_parts _ _ Hin Ha) as (h & c & tl & Heq & _ & Hh & Hc & _).
  exists h, c, tl. rewrite Heq.
  split; [reflexivity|]. split; [exact Hh|]. split; [exact Hc|].
  rewrite mask_match_field by assumption.
  unfold sep_of. now rewrite (has_char_head colon h (c :: tl)).
Qed.

(** ** The warnings *)

(** When the message of the type is already listed, the patterns of
    the type add nothing. *)
Lemma mask_patterns_listed (t : pii_type) (patterns : list (list item)) :
  forall text warnings,
    get_warning_message t ∈ warnings ->
    (mask_patterns t patterns text warnings).2 = warnings.
Proof.
  induction patterns as [|p ps IH]; intros text warnings Hin; simpl;
    [reflexivity|].
  destruct (mask_text text p) as [text' was_masked].
  rewrite bool_decide_eq_true_2 by assumption.
  destruct was_masked; now apply IH.
Qed.

Lemma mask_patterns_warnings (t : pii_type) (patterns : list (list item)) :
  forall text warnings,
    (mask_patterns t patterns text warnings).2 = warnings \/
    (mask_patterns t patterns text warnings).2
    = warnings ++ [get_warning_message t].
Proof.
  induction patterns as [|p ps IH]; intros text warnings; simpl;
    [now left|].
  destruct (mask_text text p) as [text' [|]]; [|apply IH].
  destruct (decide (get_warning_message t ∈ warnings)) as [Hin|Hin].
  - rewrite bool_decide_eq_true_2 by assumption. apply IH.
  - rewrite bool_decide_eq_false_2 by assumption. right.
    apply mask_patterns_listed. apply elem_of_app. right.
    apply list_elem_of_here.
Qed.

Lemma mask_types_warnings (tbl : list (pii_type * list (list item))) :
  forall text warnings,
    exists added,
      (mask_types tbl text warnings).2 = warnings ++ added /\
      sublist added (map (fun tp => get_warning_message tp.1) tbl).
Proof.
  induction tbl as [|[t ps] tbl IH]; intros text warnings; simpl.
  - exists []. now rewrite app_nil_r.
  - pose proof (mask_patterns_warnings t ps text warnings) as H.
    destruct (mask_patterns t ps text warnings) as [text' warnings'].
    simpl in H. destruct (IH text' warnings') as (added & -> & Hsub).
    destruct H as [-> | ->].
    + exists added. split; [reflexivity|]. now apply sublist_cons.
    + exists (get_warning_message t :: added).
      split; [now rewrite <- app_assoc|]. now apply sublist_skip.
Qed.

(** The types of [PII_PATTERNS], in the order of the dictionary. *)
Definition pii_types : list pii_type :=
  [password; security_card_full; otp_full; account_full; card_number;
   resident_number; phone_full].

(** X3.  The warnings of [detect_and_mask_pii] are messages of the
    types of [PII_PATTERNS], each at most once and in the order of the
    dictionary, whatever patterns matched and however often: the list
    is a sublist of the seven messages. *)
Theorem warnings_in_table_order (text : pystr) :
  sublist (detect_and_mask_pii text).2 (map get_warning_message pii_types) /\
  length (detect_and_mask_pii text).2 <= 7.
Proof.
  assert (H : sublist (detect_and_mask_pii text).2
                (map get_warning_message pii_types)).
  { unfold detect_and_mask_pii. destruct text as [|c text].
    - apply sublist_nil_l.
    - destruct (mask_types_warnings PII_PATTERNS (c :: text) [])
        as (added & -> & Hsub). exact Hsub. }
  split; [exact H|]. apply sublist_length in H. exact H.
Qed.

Lemma fold_mask_step_flag (text : pystr) (spans : list (nat * nat)) :
  forall acc, spans <> [] ->
              (fold_left (mask_step text) spans acc).2 = true.
Proof.
  induction spans as [|sp [|sp' l] IH]; intros [masked_text flag] Hne.
  - contradiction.
  - destruct sp. reflexivity.
  - change (fold_left (mask_step text) (sp :: sp' :: l) (masked_text, flag))
      with (fold_left (mask_step text) (sp' :: l)
              (mask_step text (masked_text, flag) sp)).
    now apply IH.
Qed.

(** A pattern without match leaves the text as it is. *)
Lemma mask_text_quiet (text : pystr) (pattern : list item) :
  (mask_text text pattern).2 = false -> (mask_text text pattern).1 = text.
Proof.
  unfold mask_text. destruct (rev (finditer pattern text)) as [|sp l] eqn:E;
    [reflexivity|].
  intros H. rewrite fold_mask_step_flag in H by discriminate. discriminate.
Qed.

Lemma mask_patterns_quiet (t : pii_type) (patterns : list (list item)) :
  forall text warnings,
    (mask_patterns t patterns text warnings).2 = [] ->
    warnings = [] /\ (mask_patterns t patterns text warnings).1 = text.
Proof.
  induction patterns as [|p ps IH]; intros text warnings; simpl;
    [now intros ->|].
  pose proof (mask_text_quiet text p) as Hq.
  destruct (mask_text text p) as [text' was_masked]. simpl in Hq.
  intros H. pose proof H as H'. apply IH in H as [Hws Htext].
  destruct was_masked.
  - exfalso. destruct (bool_decide (get_warning_message t ∈ warnings)) eqn:E.
    + apply bool_decide_eq_true in E. rewrite Hws in E.
      now apply elem_of_nil in E.
    + now destruct warnings.
  - split; [exact Hws|]. rewrite Htext. now apply Hq.
Qed.

Lemma mask_types_quiet (tbl : list (pii_type * list (list item))) :
  forall text warnings,
    (mask_types tbl text warnings).2 = [] ->
    warnings = [] /\ (mask_types tbl text warnings).1 = text.
Proof.
  induction tbl as [|[t ps] tbl IH]; intros text warnings; simpl;
    [now intros ->|].
  pose proof (mask_patterns_quiet t ps text warnings) as Hq.
  destruct (mask_patterns t ps text warnings) as [text' warnings'].
  simpl in Hq. intros H. apply IH in H as [Hws Htext].
  destruct (Hq Hws) as [-> <-]. now split.
Qed.

(** X4.  The text is changed only with a warning: when
    [detect_and_mask_pii] returns no warning, the text it returns is
    the text it was given. *)
Theorem no_warning_no_change (text : pystr) :
  (detect_and_mask_pii text).2 = [] -> (detect_and_mask_pii text).1 = text.
Proof.
  unfold detect_and_mask_pii. destruct text as [|c text]; [reflexivity|].
  intros H. apply mask_types_quiet in H as [_ H]. exact H.
Qed.

(** A warning message is listed once, however many patterns of its
    type match. *)
Lemma mask_patterns_NoDup (t : pii_type) (patterns : list (list item)) :
  forall text warnings,
    NoDup warnings -> NoDup (mask_patterns t patterns text warnings).2.
Proof.
  induction patterns as [|p ps IH]; intros text warnings Hnd; simpl;
    [exact Hnd|].
  destruct (mask_text text p) as [text' was_masked].
  apply IH. destruct was_masked; [|exact Hnd].
  destruct (decide (get_warning_message t ∈ warnings)) as [Hin|Hin].
  - now rewrite bool_decide_eq_true_2.
  - rewrite bool_decide_eq_false_2 by assumption.
    apply NoDup_app. split; [exact Hnd|]. split; [|apply NoDup_singleton].
    intros x Hx Hx'. apply list_elem_of_singleton in Hx' as ->. contradiction.
Qed.

Lemma mask_types_NoDup (table : list (pii_type * list (list item))) :
  forall text warnings,
    NoDup warnings -> NoDup (mask_types table text warnings).2.
Proof.
  induction table as [|[t ps] table IH]; intros text warnings Hnd; simpl;
    [exact Hnd|].
  pose proof (mask_patterns_NoDup t ps text warnings Hnd) as H.
  destruct (mask_patterns t ps text warnings) as [text' warnings'].
  now apply IH.
Qed.

Lemma detect_and_mask_pii_NoDup (text : pystr) :
  NoDup (detect_and_mask_pii text).2.
Proof.
  unfold detect_and_mask_pii. destruct text; [constructor|].
  apply mask_types_NoDup. constructor.
Qed.

End Patterns.

(** The tables restricted to ASCII and the Hangul syllables, for
    running the redactor on examples. *)
Definition ascii_hangul_word (c : N) : bool :=
  ((48 <=? c) && (c <=? 57) || is_ascii_letter c || (c =? 95)
   || (44032 <=? c) && (c <=? 55203))%N.

Definition ascii_digit (c : N) : bool := ((48 <=? c) && (c <=? 57))%N.

Definition redact : pystr -> pystr * list pystr :=
  detect_and_mask_pii ascii_hangul_word ascii_digit.

(** The two tables have what masking twice asks of them. *)
Lemma ascii_hangul_tables :
  (forall c, letter c = true -> ascii_digit c = false) /\
  (forall c, is_space c = true -> ascii_hangul_word c = false) /\
  (forall c, is_space c = true -> ascii_digit c = false) /\
  ascii_digit star = false.
Proof.
  unfold letter, ascii_hangul_word, ascii_digit, is_ascii_letter, is_space.
  repeat split; try reflexivity; intros c H;
    rewrite ?orb_true_iff, ?andb_true_iff, ?N.leb_le, ?N.eqb_eq in H;
    rewrite ?orb_true_iff, ?andb_true_iff, ?orb_false_iff, ?andb_false_iff,
      ?N.leb_le, ?N.leb_gt, ?N.eqb_eq, ?N.eqb_neq;
    lia.
Qed.

Definition password_sentence : pystr := utf8 "제 비밀번호: abcdef1 입니다".

(** The sentence with a password, redacted twice. *)
Lemma detect_and_mask_pii_idempotent_witness :
  (redact (redact password_sentence).1).1 = (redact password_sentence).1 /\
  (redact password_sentence).1 = utf8 "제 비밀번호: ******* 입니다".
Proof.
  split; [|vm_compute; reflexivity].
  destruct ascii_hangul_tables as (H1 & H2 & H3 & H4).
  exact (detect_and_mask_pii_idempotent ascii_hangul_word ascii_digit
           H1 H2 H3 H4 password_sentence).
Defined.

Definition limit_sentence : pystr := utf8 "이체 한도를 늘리고 싶어요".

(** A question without personal data comes back as it is. *)
Lemma no_warning_no_change_witness :
  (redact limit_sentence).2 = [] /\ (redact limit_sentence).1 = limit_sentence.
Proof.
  assert (H : (redact limit_sentence).2 = []) by (vm_compute; reflexivity).
  split; [exact H|].
  exact (no_warning_no_change ascii_hangul_word ascii_digit limit_sentence H).
Defined.

Definition password_field : pystr := utf8 "비밀번호: abcdef1 입니다".

(** The password of the sentence: thirteen characters are matched, the
    seven of the value are replaced by asterisks. *)
Lemma match_replaced_by_stars_witness :
  exists before c after,
    take 13 password_field = before ++ c :: after /\
    mask_match (take 13 password_field)
    = before ++ (if has_char colon (take 13 password_field)
                 then colon else equals)
        :: 32%N :: repeat star (length (strip after)).
Proof.
  destruct (match_replaced_by_stars ascii_hangul_word ascii_digit
              (pattern_of ascii_hangul_word ascii_digit
                 (mkFpat [LLit (utf8 "비밀번호")] VPassword))
              password_field 13)
    as (before & c & after & H1 & _ & _ & H4).
  - rewrite PII_PATTERNS_table. apply list_elem_of_fmap.
    exists (mkFpat [LLit (utf8 "비밀번호")] VPassword).
    split; [reflexivity|]. unfold table. apply list_elem_of_here.
  - vm_compute. reflexivity.
  - exists before, c, after. exact (conj H1 H4).
Defined.

Example redact_password :
  redact (utf8 "제 비밀번호: abcdef1 입니다") =
  (utf8 "제 비밀번호: ******* 입니다", [get_warning_message password]).
Proof. vm_compute. reflexivity. Qed.

Example redact_account_twice :
  redact (utf8 "계좌=1234-5678-90  계좌: 12345678901") =
  (utf8 "계좌= ************계좌: ***********",
   [get_warning_message account_full]).
Proof. vm_compute. reflexivity. Qed.

Example redact_resident :
  redact (utf8 "주민번호: 900101 - 12345678") =
  (utf8 "주민번호: ****************8", [get_warning_message resident_number]).
Proof. vm_compute. reflexivity. Qed.

End Redactor.

(* ===================================================================== *)
(** * app/retriever/vector_store.py *)
(* ===================================================================== *)

Module VectorStore.

(** The store: [ntotal] vectors in a flat L2 index, and the metadata of
    each.  [ranked q] is the index's ranking for the embedding of the
    query [q]: pairs of a vector number ([-1] marks an invalid slot) and
    its distance, nearest first; [self.index.search(v, k)] returns the
    first [k] of them. *)
Record FAISSVectorStore : Type := {
  ntotal : nat;
  ranked : pystr -> list (Z * float);
  metadata : list pydict
}.

Definition both : pyval := PStr (utf8 "both").

(** The filter of [search]: [true] when the loop [continue]s. *)
Definition rejects_category (filters metadata : pydict) : bool :=
  match filters !! "category" with
  | Some category => negb (bool_decide (get metadata "category" PNone = category))
  | None => false
  end.

Definition rejects_channel (filters metadata : pydict) : bool :=
  match filters !! "channel" with
  | Some filter_channel =>
      let metadata_channel := get metadata "channel" both in
      negb (bool_decide (metadata_channel = both))
      && negb (bool_decide (metadata_channel = filter_channel))
  | None => false
  end.

Definition rejects (filters : option pydict) (metadata : pydict) : bool :=
  match filters with
  | Some f =>
      if bool_decide (f = ∅) then false
      else rejects_category f metadata || rejects_channel f metadata
  | None => false
  end.

(** The loop over [zip(indices[0], distances[0])]. *)
Fixpoint search_loop (mds : list pydict) (filters : option pydict)
    (top_k : nat) (hits : list (Z * float)) (results : list (pydict * float))
  : option (list (pydict * float)) :=
  match hits with
  | [] => Some results
  | (idx, dist) :: rest =>
      if (idx =? -1)%Z then search_loop mds filters top_k rest results
      else
        md ← py_index mds idx;
        if rejects filters md then search_loop mds filters top_k rest results
        else
          let results := results ++ [(md, dist)] in
          if (top_k <=? length results)%nat then Some results
          else search_loop mds filters top_k rest results
  end.

Definition search (vs : FAISSVectorStore) (query : pystr) (top_k : nat)
    (filters : option pydict) : option (list (pydict * float)) :=
  if (ntotal vs =? 0)%nat then Some []
  else
    let search_k := Nat.min (top_k * 10) (ntotal vs) in
    search_loop (metadata vs) filters top_k
      (firstn search_k (ranked vs query)) [].

(** [search] never returns more than [top_k] pairs. *)
Lemma search_loop_length (mds : list pydict) (filters : option pydict)
    (top_k : nat) (hits : list (Z * float)) :
  forall results rs,
    length results < top_k ->
    search_loop mds filters top_k hits results = Some rs ->
    length rs <= top_k.
Proof.
  induction hits as [|[idx dist] rest IH]; intros results rs Hlt; simpl.
  - intros [= <-]. lia.
  - destruct (idx =? -1)%Z; [now apply IH|].
    destruct (py_index mds idx) as [md|]; simpl; [|discriminate].
    destruct (rejects filters md); [now apply IH|].
    destruct (top_k <=? length (results ++ [(md, dist)]))%nat eqn:E.
    + intros [= <-]. rewrite length_app in *. simpl in *. lia.
    + apply IH. now apply Nat.leb_gt in E.
Qed.

Lemma store_search_length (vs : FAISSVectorStore) (query : pystr) (top_k : nat)
    (filters : option pydict) (rs : list (pydict * float)) :
  search vs query top_k filters = Some rs -> length rs <= top_k.
Proof.
  unfold search. destruct (ntotal vs =? 0)%nat; [intros [= <-]; simpl; lia|].
  destruct top_k as [|k].
  - simpl. intros [= <-]. reflexivity.
  - apply search_loop_length. simpl. lia.
Qed.

(** *** What [search] returns *)

(** A returned pair and the hit of the ranking it was made from. *)
Definition from_hit (mds : list pydict) (filters : option pydict)
    (hit : Z * float) (r : pydict * float) : Prop :=
  hit.1 <> (-1)%Z /\ py_index mds hit.1 = Some r.1 /\
  rejects filters r.1 = false /\ r.2 = hit.2.

Lemma search_loop_sound (mds : list pydict) (filters : option pydict)
    (top_k : nat) (hits : list (Z * float)) :
  forall results rs,
    search_loop mds filters top_k hits results = Some rs ->
    exists hs new,
      sublist hs hits /\ rs = results ++ new /\
      Forall2 (from_hit mds filters) hs new.
Proof.
  induction hits as [|[idx dist] rest IH]; intros results rs; simpl.
  - intros [= <-]. exists [], []. rewrite app_nil_r.
    repeat split; constructor.
  - destruct (idx =? -1)%Z eqn:Ei.
    { intros H. destruct (IH _ _ H) as (hs & new & Hs & -> & Hf).
      exists hs, new. repeat split; try assumption. now apply sublist_cons. }
    destruct (py_index mds idx) as [md|] eqn:Em; simpl; [|discriminate].
    destruct (rejects filters md) eqn:Er.
    { intros H. destruct (IH _ _ H) as (hs & new & Hs & -> & Hf).
      exists hs, new. repeat split; try assumption. now apply sublist_cons. }
    assert (Hok : from_hit mds filters (idx, dist) (md, dist)).
    { repeat split; try assumption. simpl. intros ->. discriminate. }
    destruct (top_k <=? length (results ++ [(md, dist)]))%nat.
    + intros [= <-]. exists [(idx, dist)], [(md, dist)].
      split; [apply sublist_skip, sublist_nil_l|].
      split; [reflexivity|]. constructor; [exact Hok|constructor].
    + intros H. destruct (IH _ _ H) as (hs & new & Hs & -> & Hf).
      exists ((idx, dist) :: hs), ((md, dist) :: new).
      split; [now apply sublist_skip|].
      split; [now rewrite <- app_assoc|]. now constructor.
Qed.

(** The pairs that [search] returns are not rejected by the filters. *)
Lemma store_search_sound_hits (vs : FAISSVectorStore) (query : pystr)
    (top_k : nat) (filters : option pydict) (rs : list (pydict * float)) :
  search vs query top_k filters = Some rs ->
  Forall (fun r : pydict * float => rejects filters r.1 = false) rs.
Proof.
  unfold search. destruct (ntotal vs =? 0)%nat.
  - intros [= <-]. constructor.
  - intros H. apply search_loop_sound in H as (hs & new & _ & -> & Hf).
    simpl. induction Hf as [|h r hs new (_ & _ & Hr & _) _ IH];
      constructor; assumption.
Qed.

(** X5.  Every pair that [search] returns is the metadata of a vector
    among the [min(top_k * 10, ntotal)] nearest, with the distance of
    that vector; the vector is no invalid slot and its metadata is not
    rejected by the filters; and the pairs come in the order of the
    ranking. *)
Theorem store_search_sound (vs : FAISSVectorStore) (query : pystr)
    (top_k : nat) (filters : option pydict) (rs : list (pydict * float)) :
  search vs query top_k filters = Some rs ->
  exists hits,
    sublist hits (take (Nat.min (top_k * 10) (ntotal vs)) (ranked vs query)) /\
    Forall2 (from_hit (metadata vs) filters) hits rs.
Proof.
  unfold search. destruct (ntotal vs =? 0)%nat.
  - intros [= <-]. exists []. split; [apply sublist_nil_l|constructor].
  - intros H. apply search_loop_sound in H as (hs & new & Hs & -> & Hf).
    now exists hs.
Qed.

(** The hits that the loop would append, were it not to stop. *)
Fixpoint accepted (mds : list pydict) (filters : option pydict)
    (hits : list (Z * float)) : list (pydict * float) :=
  match hits with
  | [] => []
  | (idx, dist) :: rest =>
      if (idx =? -1)%Z then accepted mds filters rest
      else
        match py_index mds idx with
        | Some md =>
            if rejects filters md then accepted mds filters rest
            else (md, dist) :: accepted mds filters rest
        | None => accepted mds filters rest
        end
  end.

(** A hit is an invalid slot or the number of a vector with metadata. *)
Definition indexed (mds : list pydict) (hit : Z * float) : Prop :=
  hit.1 = (-1)%Z \/ is_Some (py_index mds hit.1).

Lemma search_loop_exact (mds : list pydict) (filters : option pydict)
    (top_k : nat) (hits : list (Z * float)) :
  Forall (indexed mds) hits ->
  forall results,
    length results < top_k ->
    search_loop mds filters top_k hits results
    = Some (take top_k (results ++ accepted mds filters hits)).
Proof.
  induction 1 as [|[idx dist] rest Hhit Hrest IH]; intros results Hlt; simpl.
  - rewrite app_nil_r, take_ge by lia. reflexivity.
  - destruct (idx =? -1)%Z eqn:Ei; [now apply IH|].
    destruct Hhit as [Hhit|[md Hmd]]; simpl in *.
    { subst idx. discriminate. }
    rewrite Hmd. simpl.
    destruct (rejects filters md); [now apply IH|].
    assert (E : results ++ (md, dist) :: accepted mds filters rest
                = (results ++ [(md, dist)]) ++ accepted mds filters rest)
      by now rewrite <- app_assoc.
    rewrite E.
    destruct (top_k <=? length (results ++ [(md, dist)]))%nat eqn:El.
    + apply Nat.leb_le in El. rewrite length_app in El. simpl in El.
      rewrite take_app_le by (rewrite length_app; simpl; lia).
      rewrite take_ge by (rewrite length_app; simpl; lia). reflexivity.
    + apply Nat.leb_gt in El. now apply IH.
Qed.

(** X6.  For a positive [top_k], when every hit among the
    [min(top_k * 10, ntotal)] nearest is an invalid slot or the number
    of a vector with metadata, [search] does not fail and returns the
    first [top_k] of the hits that are no invalid slot and pass the
    filters; a passage ranked behind these hits is not returned.  On an
    empty index the result is empty. *)
Theorem store_search_exact (vs : FAISSVectorStore) (query : pystr)
    (top_k : nat) (filters : option pydict) :
  let considered := take (Nat.min (top_k * 10) (ntotal vs)) (ranked vs query) in
  0 < top_k ->
  Forall (indexed (metadata vs)) considered ->
  search vs query top_k filters
  = Some (take top_k (accepted (metadata vs) filters considered)) /\
  (ntotal vs = 0 -> search vs query top_k filters = Some []).
Proof.
  intros considered Hpos Hvalid. unfold search.
  destruct (ntotal vs =? 0)%nat eqn:E.
  - apply Nat.eqb_eq in E. unfold considered. rewrite E, Nat.min_0_r.
    rewrite take_0. simpl. now rewrite take_nil.
  - split; [|intros H; rewrite H in E; discriminate].
    fold considered. now apply (search_loop_exact _ _ _ _ Hvalid []).
Qed.

End VectorStore.

(* ===================================================================== *)
(** * app/retriever/hybrid_search.py *)
(* ===================================================================== *)

Module Hybrid.

(** The retriever.  [bm25_index] is [None] until a chunk file has been
    indexed; otherwise it holds [BM25Okapi.get_scores], from the query
    tokens to one score per chunk. *)
Record HybridRetriever : Type := {
  vector_store : VectorStore.FAISSVectorStore;
  bm25_index : option (list pystr -> list float);
  chunks : list pydict
}.

(** An entry of [chunk_scores]. *)
Record Scores : Type :=
  mkScores { s_metadata : pydict; vector_score : float; bm25_score : float }.

Definition both : pyval := PStr (utf8 "both").

(** The filter of the lexical path: [true] when the loop [continue]s. *)
Definition rejects_category (filters chunk : pydict) : bool :=
  match filters !! "category" with
  | Some category => negb (bool_decide (get chunk "category" PNone = category))
  | None => false
  end.

Definition rejects_channel (filters chunk : pydict) : bool :=
  match filters !! "channel" with
  | Some filter_channel =>
      let chunk_channel := get chunk "channel" both in
      negb (bool_decide (chunk_channel = both))
      && negb (bool_decide (chunk_channel = filter_channel))
  | None => false
  end.

Definition rejects (filters : option pydict) (chunk : pydict) : bool :=
  match filters with
  | Some f =>
      if bool_decide (f = ∅) then false
      else rejects_category f chunk || rejects_channel f chunk
  | None => false
  end.

(** [_extract_snippet] *)
Definition extract_snippet (text : pystr) (max_length : nat) : pystr :=
  if (length text <=? max_length)%nat then text
  else firstn max_length text ++ utf8 "...".

(** [_format_result]; [None] is the [TypeError] of [len(None)]. *)
Definition format_result (metadata : pydict) (score : float) : option Result :=
  match get metadata "text" (PStr []) with
  | PStr text =>
      Some {|
        fields :=
          list_to_map
            [ ("chunk_id", get metadata "chunk_id" PNone);
              ("faq_id", get metadata "faq_id" PNone);
              ("title", get metadata "title" PNone);
              ("text", PStr text);
              ("category", get metadata "category" PNone);
              ("url", get metadata "url" PNone);
              ("updated_at", get metadata "updated_at" PNone);
              ("channel", get metadata "channel" PNone);
              ("snippet", PStr (extract_snippet text 200)) ];
        score := score;
        rerank_score := None
      |}
  | PNone => None
  end.

(** The distance of a semantic hit as a similarity. *)
Definition similarity (distance : float) : float := (1 / (1 + distance))%float.

(** The first loop of [_hybrid_search], over the semantic hits. *)
Fixpoint vector_pass (vector_results : list (pydict * float))
    (chunk_scores : list (pyval * Scores)) : list (pyval * Scores) :=
  match vector_results with
  | [] => chunk_scores
  | (metadata, distance) :: rest =>
      let chunk_id := get metadata "chunk_id" PNone in
      if truthy chunk_id then
        vector_pass rest
          (dict_set chunk_id (mkScores metadata (similarity distance) 0) chunk_scores)
      else vector_pass rest chunk_scores
  end.

(** The normalisation of a BM25 score. *)
Definition normalize (bm25_scores : list float) (bm25_score : float) : float :=
  if (0 <? bm25_score)%float then
    let max_bm25 := py_max bm25_scores 1 in
    if (0 <? max_bm25)%float then (bm25_score / max_bm25)%float else 0%float
  else 0%float.

(** The metadata built for a chunk found by the lexical path only. *)
Definition chunk_metadata (chunk : pydict) : pydict :=
  list_to_map
    [ ("chunk_id", get chunk "chunk_id" PNone);
      ("faq_id", get chunk "faq_id" PNone);
      ("title", get chunk "title" PNone);
      ("category", get chunk "category" PNone);
      ("url", get chunk "url" PNone);
      ("updated_at", get chunk "updated_at" PNone);
      ("channel", get chunk "channel" PNone);
      ("text", get chunk "text" PNone) ].

(** The second loop, over [enumerate(self.chunks)] from index [i] on;
    [None] is the [IndexError] of [bm25_scores[i]]. *)
Fixpoint bm25_pass (filters : option pydict) (bm25_scores : list float)
    (i : nat) (chunks : list pydict) (chunk_scores : list (pyval * Scores))
  : option (list (pyval * Scores)) :=
  match chunks with
  | [] => Some chunk_scores
  | chunk :: rest =>
      let chunk_id := get chunk "chunk_id" PNone in
      if truthy chunk_id then
        bm25_score ← bm25_scores !! i;
        let normalized_bm25 := normalize bm25_scores bm25_score in
        match dict_get chunk_id chunk_scores with
        | Some sc =>
            bm25_pass filters bm25_scores (S i) rest
              (dict_set chunk_id
                 (mkScores (s_metadata sc) (vector_score sc) normalized_bm25)
                 chunk_scores)
        | None =>
            if rejects filters chunk then
              bm25_pass filters bm25_scores (S i) rest chunk_scores
            else
              bm25_pass filters bm25_scores (S i) rest
                (dict_set chunk_id
                   (mkScores (chunk_metadata chunk) 0 normalized_bm25)
                   chunk_scores)
        end
      else bm25_pass filters bm25_scores (S i) rest chunk_scores
  end.

(** The fused score of an entry. *)
Definition final_score (vector_weight bm25_weight : float) (sc : Scores) : float :=
  (vector_score sc * vector_weight + bm25_score sc * bm25_weight)%float.

(** *** What the two loops leave in [chunk_scores] *)

Definition chunk_id_of (d : pydict) : pyval := get d "chunk_id" PNone.

(** The last semantic hit carrying a given non-empty [chunk_id]. *)
Fixpoint last_hit (k : pyval) (vector_results : list (pydict * float))
  : option (pydict * float) :=
  match vector_results with
  | [] => None
  | (metadata, distance) :: rest =>
      match last_hit k rest with
      | Some h => Some h
      | None =>
          if truthy (chunk_id_of metadata) && bool_decide (chunk_id_of metadata = k)
          then Some (metadata, distance) else None
      end
  end.

(** The BM25 score of the last chunk of the corpus (from index [i] on)
    carrying a given non-empty [chunk_id]. *)
Fixpoint last_chunk_score (k : pyval) (bm25_scores : list float) (i : nat)
    (chunks : list pydict) : option float :=
  match chunks with
  | [] => None
  | chunk :: rest =>
      match last_chunk_score k bm25_scores (S i) rest with
      | Some s => Some s
      | None =>
          if truthy (chunk_id_of chunk) && bool_decide (chunk_id_of chunk = k)
          then bm25_scores !! i else None
      end
  end.

(** The two summands of the fused score of the result with
    [chunk_id] [k]. *)
Definition semantic_part (k : pyval) (vector_results : list (pydict * float))
  : float :=
  match last_hit k vector_results with
  | Some (_, distance) => similarity distance
  | None => 0%float
  end.

Definition lexical_part (k : pyval) (bm25_scores : list float)
    (chunks : list pydict) : float :=
  match last_chunk_score k bm25_scores 0 chunks with
  | Some bm25_score => normalize bm25_scores bm25_score
  | None => 0%float
  end.

(** Keys are distinct and each entry is filed under the [chunk_id] of
    its metadata. *)
Definition well_keyed (chunk_scores : list (pyval * Scores)) : Prop :=
  NoDup chunk_scores.*1 /\
  forall k sc, (k, sc) ∈ chunk_scores -> chunk_id_of (s_metadata sc) = k.

Lemma well_keyed_set (k : pyval) (sc : Scores) (cs : list (pyval * Scores)) :
  well_keyed cs -> chunk_id_of (s_metadata sc) = k ->
  well_keyed (dict_set k sc cs).
Proof.
  intros [Hnd Hk] Hsc. split; [now apply dict_set_NoDup|].
  intros k' sc' Hin.
  apply dict_elem_of_get in Hin; [|now apply dict_set_NoDup].
  destruct (decide (k = k')) as [->|E].
  - rewrite dict_get_set_eq in Hin. congruence.
  - rewrite dict_get_set_ne in Hin by assumption.
    now apply Hk, dict_get_elem_of.
Qed.

Lemma vector_pass_well_keyed (hits : list (pydict * float)) :
  forall cs, well_keyed cs -> well_keyed (vector_pass hits cs).
Proof.
  induction hits as [|[md d] rest IH]; intros cs Hcs; simpl; [exact Hcs|].
  destruct (truthy (get md "chunk_id" PNone)); [|now apply IH].
  apply IH. now apply well_keyed_set.
Qed.

Lemma vector_pass_get (k : pyval) (hits : list (pydict * float)) :
  forall cs,
    dict_get k (vector_pass hits cs) =
    match last_hit k hits with
    | Some (md, d) => Some (mkScores md (similarity d) 0)
    | None => dict_get k cs
    end.
Proof.
  induction hits as [|[md d] rest IH]; intros cs; simpl; [reflexivity|].
  unfold chunk_id_of.
  destruct (truthy (get md "chunk_id" PNone)) eqn:Ht; rewrite IH;
    destruct (last_hit k rest) as [[md' d']|]; try reflexivity; simpl.
  destruct (decide (get md "chunk_id" PNone = k)) as [<-|E].
  - now rewrite bool_decide_eq_true_2, dict_get_set_eq.
  - rewrite bool_decide_eq_false_2 by assumption.
    now rewrite dict_get_set_ne.
Qed.

Lemma chunk_metadata_chunk_id (chunk : pydict) :
  chunk_id_of (chunk_metadata chunk) = chunk_id_of chunk.
Proof. reflexivity. Qed.

Lemma bm25_pass_well_keyed (filters : option pydict) (scores : list float)
    (chunks : list pydict) :
  forall i cs cs',
    well_keyed cs -> bm25_pass filters scores i chunks cs = Some cs' ->
    well_keyed cs'.
Proof.
  induction chunks as [|chunk rest IH]; intros i cs cs' Hcs; simpl.
  - now intros [= <-].
  - destruct (truthy (get chunk "chunk_id" PNone)); [|now apply IH].
    destruct (scores !! i) as [s|]; simpl; [|discriminate].
    destruct (dict_get (get chunk "chunk_id" PNone) cs) as [sc|] eqn:Hg.
    + apply IH. apply well_keyed_set; [exact Hcs|]. simpl.
      destruct Hcs as [_ Hk]. now apply Hk, dict_get_elem_of.
    + destruct (rejects filters chunk); [now apply IH|].
      apply IH. now apply well_keyed_set.
Qed.

(** The entry found under [k] after the second loop, in terms of the
    entry found there before it. *)
Lemma bm25_pass_get (filters : option pydict) (scores : list float)
    (k : pyval) (chunks : list pydict) :
  forall i cs cs' sc',
    bm25_pass filters scores i chunks cs = Some cs' ->
    dict_get k cs' = Some sc' ->
    match last_chunk_score k scores i chunks with
    | Some s =>
        bm25_score sc' = normalize scores s /\
        match dict_get k cs with
        | Some sc => vector_score sc' = vector_score sc
        | None => vector_score sc' = 0%float
        end
    | None => dict_get k cs = Some sc'
    end.
Proof.
  induction chunks as [|chunk rest IH]; intros i cs cs' sc'; simpl.
  - now intros [= <-].
  - unfold chunk_id_of.
    destruct (truthy (get chunk "chunk_id" PNone)) eqn:Ht; simpl.
    2:{ intros H1 H2. specialize (IH _ _ _ _ H1 H2).
        now destruct (last_chunk_score k scores (S i) rest). }
    destruct (scores !! i) as [s|] eqn:Hs; simpl; [|discriminate].
    destruct (dict_get (get chunk "chunk_id" PNone) cs) as [sc|] eqn:Hg.
    + intros H1 H2. specialize (IH _ _ _ _ H1 H2).
      destruct (decide (get chunk "chunk_id" PNone = k)) as [E|E].
      * rewrite E in *. rewrite dict_get_set_eq in IH. rewrite Hg.
        rewrite bool_decide_eq_true_2 by reflexivity.
        destruct (last_chunk_score k scores (S i) rest) as [s'|].
        -- exact IH.
        -- injection IH as <-. simpl. split; reflexivity.
      * rewrite dict_get_set_ne in IH by assumption.
        rewrite bool_decide_eq_false_2 by assumption.
        destruct (last_chunk_score k scores (S i) rest); exact IH.
    + destruct (rejects filters chunk).
      * intros H1 H2. specialize (IH _ _ _ _ H1 H2).
        destruct (decide (get chunk "chunk_id" PNone = k)) as [E|E].
        -- rewrite E in *. rewrite Hg in *.
           destruct (last_chunk_score k scores (S i) rest); [exact IH|].
           discriminate.
        -- rewrite bool_decide_eq_false_2 by assumption.
           destruct (last_chunk_score k scores (S i) rest); exact IH.
      * intros H1 H2. specialize (IH _ _ _ _ H1 H2).
        destruct (decide (get chunk "chunk_id" PNone = k)) as [E|E].
        -- rewrite E in *. rewrite dict_get_set_eq in IH. rewrite Hg.
           rewrite bool_decide_eq_true_2 by reflexivity.
           destruct (last_chunk_score k scores (S i) rest) as [s'|].
           ++ exact IH.
           ++ injection IH as <-. simpl. split; reflexivity.
        -- rewrite dict_get_set_ne in IH by assumption.
           rewrite bool_decide_eq_false_2 by assumption.
           destruct (last_chunk_score k scores (S i) rest); exact IH.
Qed.

Lemma format_result_inv (metadata : pydict) (sc : float) (res : Result) :
  format_result metadata sc = Some res ->
  score res = sc /\ chunk_id_of (fields res) = chunk_id_of metadata.
Proof.
  unfold format_result.
  destruct (get metadata "text" (PStr [])); [discriminate|].
  intros [= <-]. split; reflexivity.
Qed.

(** *** The fields of a result *)

(** X7.  [_format_result] fails only on metadata whose [text] is
    [None].  Otherwise the result holds the text (empty when the
    metadata has none) and a snippet of at most 203 characters whose
    first 200 characters are those of the text; a text of at most 200
    characters is its own snippet. *)
Theorem format_result_snippet (metadata : pydict) (sc : float) :
  (format_result metadata sc = None <-> metadata !! "text" = Some PNone) /\
  forall res,
    format_result metadata sc = Some res ->
    exists text snippet,
      get metadata "text" (PStr []) = PStr text /\
      fields res !! "text" = Some (PStr text) /\
      fields res !! "snippet" = Some (PStr snippet) /\
      length snippet <= 203 /\
      take 200 snippet = take 200 text /\
      (length text <= 200 -> snippet = text).
Proof.
  unfold format_result, get.
  destruct (metadata !! "text") as [[|text]|] eqn:E; simpl.
  - split; [easy|]. discriminate.
  - split; [split; discriminate|]. intros res [= <-].
    exists text, (extract_snippet text 200). simpl.
    split; [reflexivity|]. split; [reflexivity|]. split; [reflexivity|].
    unfold extract_snippet.
    destruct (length text <=? 200)%nat eqn:El.
    + apply Nat.leb_le in El. split; [lia|]. split; reflexivity.
    + apply Nat.leb_gt in El. rewrite length_app, length_take.
      change (length (utf8 "...")) with 3.
      split; [lia|]. split; [|lia].
      rewrite take_app_le by (rewrite length_take; lia).
      now rewrite take_take.
  - split; [split; discriminate|]. intros res [= <-].
    exists [], []. simpl. split; [reflexivity|]. split; [reflexivity|].
    split; [reflexivity|]. split; [lia|]. split; reflexivity.
Qed.

(** *** Entries of [chunk_scores] *)

Lemma dict_set_elem_of (k : pyval) (sc : Scores) (cs : list (pyval * Scores))
    (x : pyval * Scores) :
  x ∈ dict_set k sc cs -> x = (k, sc) \/ x ∈ cs.
Proof.
  induction cs as [|[k' sc'] cs IH]; simpl.
  - intros ->%list_elem_of_singleton. now left.
  - destruct (decide (k = k')) as [->|E].
    + intros [->|H]%elem_of_cons; [now left|]. right. now right.
    + intros [->|H]%elem_of_cons; [right; left|].
      destruct (IH H) as [->|H']; [now left|]. right. now right.
Qed.

Lemma dict_set_Forall (P : pyval * Scores -> Prop) (k : pyval) (sc : Scores)
    (cs : list (pyval * Scores)) :
  P (k, sc) -> Forall P cs -> Forall P (dict_set k sc cs).
Proof.
  intros Hk Hcs. apply Forall_forall. intros x Hx.
  apply dict_set_elem_of in Hx as [->|Hx]; [exact Hk|].
  rewrite Forall_forall in Hcs. now apply Hcs.
Qed.

(** An entry is filed under a non-empty [chunk_id], and its metadata
    has what [P] asks: semantic hits have [P], and so have the chunks
    that the filter of the lexical path lets through. *)
Lemma passes_keep (P : pydict -> Prop) (filters : option pydict)
    (scores : list float) (hits : list (pydict * float))
    (chunks : list pydict) (cs : list (pyval * Scores)) :
  Forall (fun h => P h.1) hits ->
  (forall chunk, rejects filters chunk = false -> P (chunk_metadata chunk)) ->
  bm25_pass filters scores 0 chunks (vector_pass hits []) = Some cs ->
  Forall (fun e => truthy e.1 = true /\ P (s_metadata e.2)) cs.
Proof.
  intros Hhits Hchunk.
  set (Q := fun e : pyval * Scores => truthy e.1 = true /\ P (s_metadata e.2)).
  assert (Hv : forall cs0, Forall Q cs0 -> Forall Q (vector_pass hits cs0)).
  { induction Hhits as [|[md d] rest Hmd _ IH]; intros cs0 H0; simpl;
      [exact H0|].
    destruct (truthy (get md "chunk_id" PNone)) eqn:Ht; [|now apply IH].
    apply IH. apply dict_set_Forall; [|exact H0]. now split. }
  assert (Hb : forall i cs0 cs1,
             Forall Q cs0 -> bm25_pass filters scores i chunks cs0 = Some cs1 ->
             Forall Q cs1).
  { induction chunks as [|chunk rest IH]; intros i cs0 cs1 H0; simpl.
    - now intros [= <-].
    - destruct (truthy (get chunk "chunk_id" PNone)) eqn:Ht;
        [|now apply IH].
      destruct (scores !! i) as [s|]; simpl; [|discriminate].
      destruct (dict_get (get chunk "chunk_id" PNone) cs0) as [sc|] eqn:Hg.
      + apply IH. apply dict_set_Forall; [|exact H0].
        apply dict_get_elem_of in Hg. rewrite Forall_forall in H0.
        destruct (H0 _ Hg) as [_ Hsc]. now split.
      + destruct (rejects filters chunk) eqn:Hr; [now apply IH|].
        apply IH. apply dict_set_Forall; [|exact H0].
        split; [exact Ht|]. now apply Hchunk. }
  intros H. eapply Hb; [|exact H]. apply Hv. constructor.
Qed.

(** ** The tokenizer *)

(** [re.findall] for a pattern without groups: the texts of the
    successive matches. *)
Definition findall (p : list Redactor.item) (text : pystr) : list pystr :=
  map (fun '(start, stop) => take (stop - start) (drop start text))
      (Redactor.finditer p text).

Section Tokenizer.

(** [\w] and [str.lower] rest on the Unicode tables of the interpreter. *)
Variable is_word : N -> bool.
Variable lower : pystr -> pystr.

(** The class [[\w가-힣]]. *)
Definition token_char (c : N) : bool :=
  is_word c || (44032 <=? c)%N && (c <=? 55203)%N.

(** [_tokenize] *)
Definition _tokenize (text : pystr) : list pystr :=
  findall [Redactor.AtLeast 1 token_char] (lower text).

End Tokenizer.

(** [words_of cls text ws]: the words [ws] are, in their order, the
    maximal runs of characters of the class in [text]. *)
Inductive words_of (cls : N -> bool) : pystr -> list pystr -> Prop :=
| words_none (gap : pystr) :
    forallb (fun c => negb (cls c)) gap = true ->
    words_of cls gap []
| words_next (gap w rest : pystr) (ws : list pystr) :
    forallb (fun c => negb (cls c)) gap = true ->
    w <> [] -> forallb cls w = true -> Redactor.stops cls rest ->
    words_of cls rest ws ->
    words_of cls (gap ++ w ++ rest) (w :: ws).

(** The matched texts, read off the text itself. *)
Fixpoint texts_from (p : list Redactor.item) (text : pystr) (skip : nat)
  : list pystr :=
  match text with
  | [] => []
  | _ :: text' =>
      match skip with
      | S k => texts_from p text' k
      | O =>
          match Redactor.match_items p text with
          | Some (S n) => take (S n) text :: texts_from p text' n
          | _ => texts_from p text' 0
          end
      end
  end.

Lemma finditer_texts (p : list Redactor.item) (text pre : pystr) (skip : nat) :
  map (fun '(start, stop) => take (stop - start) (drop start (pre ++ text)))
      (Redactor.finditer_from p text (length pre) skip)
  = texts_from p text skip.
Proof.
  revert pre skip. induction text as [|c text IH]; intros pre skip;
    [reflexivity|].
  assert (IH' : forall k,
    map (fun '(start, stop) =>
           take (stop - start) (drop start (pre ++ c :: text)))
        (Redactor.finditer_from p text (S (length pre)) k)
    = texts_from p text k).
  { intros k. specialize (IH (pre ++ [c]) k).
    rewrite length_app, Nat.add_1_r, <- app_assoc in IH. exact IH. }
  simpl. destruct skip as [|k]; [|apply IH'].
  destruct (Redactor.match_items p (c :: text)) as [[|n]|];
    [apply IH'| |apply IH'].
  simpl map. f_equal; [|apply IH'].
  replace (length pre + S n - length pre) with (S n) by lia.
  now rewrite drop_app_length.
Qed.

Lemma findall_texts (p : list Redactor.item) (text : pystr) :
  findall p text = texts_from p text 0.
Proof. exact (finditer_texts p text [] 0). Qed.

Lemma texts_skip (p : list Redactor.item) (text : pystr) (k : nat) :
  texts_from p text k = texts_from p (drop k text) 0.
Proof.
  revert k. induction text as [|c text IH]; intros [|k]; try reflexivity.
  simpl. apply IH.
Qed.

(** A class repeated at least once matches the whole run. *)
Lemma match_run (cls : N -> bool) (s : pystr) :
  Redactor.match_items [Redactor.AtLeast 1 cls] s
  = if (1 <=? Redactor.run_length cls s)%nat
    then Some (Redactor.run_length cls s) else None.
Proof.
  cbn [Redactor.match_items].
  destruct (1 <=? Redactor.run_length cls s)%nat eqn:E; [|reflexivity].
  apply Nat.leb_le in E.
  destruct (Redactor.run_length cls s - 1) eqn:Er;
    cbn [Redactor.try_counts]; f_equal; lia.
Qed.

Lemma words_gap (cls : N -> bool) (c : N) (text : pystr) (ws : list pystr) :
  cls c = false -> words_of cls text ws -> words_of cls (c :: text) ws.
Proof.
  intros Hc H. destruct H as [gap Hg|gap w rest ws Hg Hw Hcw Hs H].
  - apply words_none. simpl. now rewrite Hc.
  - apply (words_next cls (c :: gap)); try assumption. simpl. now rewrite Hc.
Qed.

Lemma texts_words (cls : N -> bool) (text : pystr) :
  words_of cls text (texts_from [Redactor.AtLeast 1 cls] text 0).
Proof.
  remember (length text) as n eqn:En.
  revert text En. induction n as [n IH] using lt_wf_ind. intros text ->.
  destruct text as [|c t]; [now apply words_none|].
  change (texts_from [Redactor.AtLeast 1 cls] (c :: t) 0)
    with (match Redactor.match_items [Redactor.AtLeast 1 cls] (c :: t) with
          | Some (S n) =>
              take (S n) (c :: t) :: texts_from [Redactor.AtLeast 1 cls] t n
          | _ => texts_from [Redactor.AtLeast 1 cls] t 0
          end).
  rewrite match_run. simpl Redactor.run_length.
  destruct (cls c) eqn:Ec.
  - simpl. rewrite texts_skip.
    set (r := Redactor.run_length cls t).
    rewrite <- (take_drop r t) at 1.
    apply (words_next cls [] (c :: take r t) (drop r t)).
    + reflexivity.
    + discriminate.
    + simpl. rewrite Ec. now apply Redactor.run_length_take.
    + apply Redactor.run_length_stops.
    + apply (IH (length (drop r t))); [|reflexivity].
      rewrite length_drop. simpl. lia.
  - simpl. apply words_gap; [exact Ec|].
    apply (IH (length t)); [simpl; lia|reflexivity].
Qed.

Lemma filter_none (cls : N -> bool) (gap : pystr) :
  forallb (fun c => negb (cls c)) gap = true -> List.filter cls gap = [].
Proof.
  induction gap as [|c gap IH]; simpl; [reflexivity|].
  intros [Hc Hg]%andb_true_iff. apply negb_true_iff in Hc. rewrite Hc.
  now apply IH.
Qed.

Lemma filter_all (cls : N -> bool) (w : pystr) :
  forallb cls w = true -> List.filter cls w = w.
Proof.
  induction w as [|c w IH]; simpl; [reflexivity|].
  intros [Hc Hw]%andb_true_iff. rewrite Hc. f_equal. now apply IH.
Qed.

(** X19.  The tokens of a text are the maximal runs of word characters
    of the lower-cased text, in their order: every token is non-empty
    and made of word characters only, two tokens are never adjacent,
    and the tokens put together are the word characters of the text. *)
Theorem tokenize_runs (is_word : N -> bool) (lower : pystr -> pystr)
    (text : pystr) :
  let tokens := _tokenize is_word lower text in
  words_of (token_char is_word) (lower text) tokens /\
  Forall (fun w => w <> [] /\ forallb (token_char is_word) w = true) tokens /\
  concat tokens = List.filter (token_char is_word) (lower text).
Proof.
  intros tokens.
  assert (H : words_of (token_char is_word) (lower text) tokens).
  { unfold tokens, _tokenize. rewrite findall_texts. apply texts_words. }
  split; [exact H|].
  induction H as [gap Hg|gap w rest ws Hg Hw Hcw Hs H [IH1 IH2]].
  - split; [constructor|]. simpl. symmetry. now apply filter_none.
  - split; [constructor; [now split|exact IH1]|].
    rewrite !List.filter_app, filter_none, filter_all by assumption.
    simpl. now rewrite IH2.
Qed.

Section Retriever.

(** [_tokenize], [re.findall(r'[\w가-힣]+', text.lower())], rests on the
    Unicode tables of the interpreter. *)
Variable tokenize : pystr -> list pystr.

(** [str.lower] *)
Variable lower : pystr -> pystr.

Definition hybrid_search (r : HybridRetriever)
    (get_scores : list pystr -> list float) (query : pystr) (top_k : nat)
    (filters : option pydict) (vector_weight bm25_weight : float)
  : option (list Result) :=
  vector_results ← VectorStore.search (vector_store r) query (top_k * 3) filters;
  let query_tokens := tokenize query in
  let bm25_scores := get_scores query_tokens in
  chunk_scores ← bm25_pass filters bm25_scores 0 (chunks r)
                   (vector_pass vector_results []);
  let final_results :=
    map (fun '(_, sc) => (s_metadata sc, final_score vector_weight bm25_weight sc))
        chunk_scores in
  let final_results := sorted_desc PrimFloat.ltb snd final_results in
  mapM (fun '(metadata, score) => format_result metadata score)
       (firstn top_k final_results).

Definition vector_search (r : HybridRetriever) (query : pystr) (top_k : nat)
    (filters : option pydict) : option (list Result) :=
  results ← VectorStore.search (vector_store r) query top_k filters;
  mapM (fun '(metadata, score) => format_result metadata score) results.

(** [search] with all its keyword arguments. *)
Definition search_with (r : HybridRetriever) (query : pystr) (top_k : nat)
    (filters : option pydict) (use_hybrid : bool)
    (vector_weight bm25_weight : float) : option (list Result) :=
  match bm25_index r with
  | Some get_scores =>
      if use_hybrid then
        hybrid_search r get_scores query top_k filters vector_weight bm25_weight
      else vector_search r query top_k filters
  | None => vector_search r query top_k filters
  end.

(** [search] as the pipeline calls it, with the defaults
    [use_hybrid=True], [vector_weight=0.7], [bm25_weight=0.3]. *)
Definition search (r : HybridRetriever) (query : pystr) (top_k : nat)
    (filters : option pydict) : option (list Result) :=
  search_with r query top_k filters true 0.7 0.3.

(** [token in text] *)
Fixpoint contains (text token : pystr) : bool :=
  startswith text token
  || match text with
     | [] => false
     | _ :: text' => contains text' token
     end.

(** [rerank]; [None] is the [AttributeError] of [None.lower()]. *)
Definition rerank_score_of (query_tokens : list pystr) (result : Result)
  : option Z :=
  match get (fields result) "text" (PStr []), get (fields result) "title" (PStr []) with
  | PStr text, PStr title =>
      let text := lower text in
      let title := lower title in
      let title_score :=
        (Z.of_nat (length (List.filter (contains title) query_tokens)) * 2)%Z in
      let text_score :=
        Z.of_nat (length (List.filter (contains text) query_tokens)) in
      Some (title_score + text_score)%Z
  | _, _ => None
  end.

Definition rerank (results : list Result) (query : pystr) (top_k : nat)
  : option (list Result) :=
  let query_tokens := remove_dups (tokenize query) in
  reranked ← mapM (fun result =>
                     rs ← rerank_score_of query_tokens result;
                     Some (mkResult (fields result) (score result) (Some rs)))
                  results;
  let reranked :=
    sorted_desc Z.ltb (fun x => default 0%Z (rerank_score x)) reranked in
  Some (firstn top_k reranked).

(** *** Results of the hybrid path *)

Lemma last_hit_None (k : pyval) (hits : list (pydict * float)) :
  (forall md d, (md, d) ∈ hits -> chunk_id_of md <> k) ->
  last_hit k hits = None.
Proof.
  induction hits as [|[md d] rest IH]; intros H; simpl; [reflexivity|].
  rewrite IH by (intros md' d' Hin; apply (H md' d'); now right).
  rewrite bool_decide_eq_false_2, andb_false_r; [reflexivity|].
  apply (H md d). left.
Qed.

Lemma last_chunk_score_None (k : pyval) (scores : list float)
    (chunks : list pydict) :
  (forall c, c ∈ chunks -> chunk_id_of c <> k) ->
  forall i, last_chunk_score k scores i chunks = None.
Proof.
  induction chunks as [|c rest IH]; intros H i; simpl; [reflexivity|].
  rewrite IH by (intros c' Hin; apply H; now right).
  rewrite bool_decide_eq_false_2, andb_false_r; [reflexivity|].
  apply H. left.
Qed.

(** Every result of the hybrid path comes from an entry of
    [chunk_scores], with that entry's fused score. *)
Lemma hybrid_search_entry (r : HybridRetriever)
    (get_scores : list pystr -> list float) (query : pystr) (top_k : nat)
    (filters : option pydict) (vw bw : float)
    (vector_results : list (pydict * float)) (results : list Result)
    (res : Result) :
  VectorStore.search (vector_store r) query (top_k * 3) filters
    = Some vector_results ->
  hybrid_search r get_scores query top_k filters vw bw = Some results ->
  res ∈ results ->
  exists cs sc,
    bm25_pass filters (get_scores (tokenize query)) 0 (chunks r)
      (vector_pass vector_results []) = Some cs /\
    dict_get (chunk_id_of (fields res)) cs = Some sc /\
    score res = final_score vw bw sc.
Proof.
  intros Hvs Hh Hres. unfold hybrid_search in Hh. rewrite Hvs in Hh.
  simpl in Hh.
  destruct (bm25_pass filters (get_scores (tokenize query)) 0 (chunks r)
              (vector_pass vector_results [])) as [cs|] eqn:Hcs;
    [|discriminate].
  simpl in Hh. apply mapM_Some_1 in Hh.
  apply list_elem_of_lookup_1 in Hres as [i Hi].
  destruct (Forall2_lookup_r _ _ _ _ _ Hh Hi) as ([md s] & Hx & Hf).
  apply list_elem_of_lookup_2 in Hx.
  eapply elem_of_sublist in Hx; [|apply sublist_take].
  rewrite (sorted_desc_perm PrimFloat.ltb snd) in Hx.
  apply list_elem_of_fmap in Hx as ([k sc] & [= -> ->] & Hin).
  assert (Hwk : well_keyed cs).
  { eapply bm25_pass_well_keyed; [|exact Hcs].
    apply vector_pass_well_keyed. split; [constructor|].
    intros ? ? H. inversion H. }
  destruct Hwk as [Hnd Hkey].
  apply format_result_inv in Hf as [Hscore Hid].
  exists cs, sc. split; [reflexivity|]. split; [|exact Hscore].
  rewrite Hid, (Hkey k sc Hin). now apply dict_elem_of_get.
Qed.

(** C3 (as the code has it).  In hybrid mode the fused score of every
    returned result is [vector_weight] times its semantic part plus
    [bm25_weight] times its lexical part.  The semantic part is the
    similarity [1/(1+distance)] of the semantic hit with the result's
    [chunk_id], and exactly 0 when there is none; the lexical part is
    the normalised BM25 score of the corpus chunk with that [chunk_id],
    and exactly 0 when there is none.  The normalised score is the score
    divided by the maximum score of the query when the score is
    positive, and 0 otherwise. *)
Theorem hybrid_fused_score (r : HybridRetriever)
    (get_scores : list pystr -> list float) (query : pystr) (top_k : nat)
    (filters : option pydict) (vw bw : float)
    (vector_results : list (pydict * float)) (results : list Result)
    (res : Result) :
  VectorStore.search (vector_store r) query (top_k * 3) filters
    = Some vector_results ->
  hybrid_search r get_scores query top_k filters vw bw = Some results ->
  res ∈ results ->
  let chunk_id := chunk_id_of (fields res) in
  let bm25_scores := get_scores (tokenize query) in
  score res =
    (semantic_part chunk_id vector_results * vw
     + lexical_part chunk_id bm25_scores (chunks r) * bw)%float /\
  (forall md d, last_hit chunk_id vector_results = Some (md, d) ->
     semantic_part chunk_id vector_results = (1 / (1 + d))%float) /\
  (forall s, last_chunk_score chunk_id bm25_scores 0 (chunks r) = Some s ->
     lexical_part chunk_id bm25_scores (chunks r) =
       if (0 <? s)%float then
         if (0 <? py_max bm25_scores 1)%float
         then (s / py_max bm25_scores 1)%float else 0%float
       else 0%float) /\
  ((forall md d, (md, d) ∈ vector_results -> chunk_id_of md <> chunk_id) ->
     semantic_part chunk_id vector_results = 0%float) /\
  ((forall c, c ∈ chunks r -> chunk_id_of c <> chunk_id) ->
     lexical_part chunk_id bm25_scores (chunks r) = 0%float).
Proof.
  intros Hvs Hh Hres chunk_id bm25_scores.
  destruct (hybrid_search_entry _ _ _ _ _ _ _ _ _ _ Hvs Hh Hres)
    as (cs & sc & Hcs & Hget & Hscore).
  fold chunk_id in Hget. fold bm25_scores in Hcs.
  repeat split.
  - rewrite Hscore. unfold final_score, semantic_part, lexical_part.
    pose proof (bm25_pass_get _ _ chunk_id _ _ _ _ _ Hcs Hget) as H.
    rewrite vector_pass_get in H. simpl in H.
    destruct (last_chunk_score chunk_id bm25_scores 0 (chunks r)) as [s|].
    + destruct H as [-> H].
      destruct (last_hit chunk_id vector_results) as [[md d]|];
        now rewrite H.
    + destruct (last_hit chunk_id vector_results) as [[md d]|];
        [|discriminate].
      now injection H as <-.
  - intros md d H. unfold semantic_part. now rewrite H.
  - intros s H. unfold lexical_part. now rewrite H.
  - intros H. unfold semantic_part. now rewrite last_hit_None.
  - intros H. unfold lexical_part. now rewrite last_chunk_score_None.
Qed.

(** Both paths return at most [top_k] results. *)
Lemma hybrid_search_length (r : HybridRetriever)
    (get_scores : list pystr -> list float) (query : pystr) (top_k : nat)
    (filters : option pydict) (vw bw : float) (results : list Result) :
  hybrid_search r get_scores query top_k filters vw bw = Some results ->
  length results <= top_k.
Proof.
  unfold hybrid_search. intros H.
  destruct (VectorStore.search _ _ _ _); [|discriminate]. simpl in H.
  destruct (bm25_pass _ _ _ _ _); [|discriminate]. simpl in H.
  apply length_mapM in H. rewrite <- H, length_take. lia.
Qed.

Lemma vector_search_length (r : HybridRetriever) (query : pystr)
    (top_k : nat) (filters : option pydict) (results : list Result) :
  vector_search r query top_k filters = Some results ->
  length results <= top_k.
Proof.
  unfold vector_search. intros H.
  destruct (VectorStore.search _ _ _ _) as [rs|] eqn:E; [|discriminate].
  simpl in H. apply length_mapM in H. rewrite <- H.
  eapply VectorStore.store_search_length, E.
Qed.

Lemma search_length (r : HybridRetriever) (query : pystr) (top_k : nat)
    (filters : option pydict) (results : list Result) :
  search r query top_k filters = Some results -> length results <= top_k.
Proof.
  unfold search, search_with.
  destruct (bm25_index r);
    [apply hybrid_search_length|apply vector_search_length].
Qed.

(** *** Results of [search] *)

Lemma Forall2_fmap_eq {A B C : Type} (f : A -> C) (g : B -> C)
    (l : list A) (k : list B) :
  Forall2 (fun a b => f a = g b) l k -> map f l = map g k.
Proof. induction 1; simpl; [reflexivity|]. now f_equal. Qed.

Lemma sublist_map {A B : Type} (f : A -> B) (l k : list A) :
  sublist l k -> sublist (map f l) (map f k).
Proof. induction 1; simpl; now constructor. Qed.

(** The entries behind the results of the hybrid path. *)
Lemma hybrid_search_entries (r : HybridRetriever)
    (get_scores : list pystr -> list float) (query : pystr) (top_k : nat)
    (filters : option pydict) (vw bw : float) (results : list Result) :
  hybrid_search r get_scores query top_k filters vw bw = Some results ->
  exists hits cs picked,
    VectorStore.search (vector_store r) query (top_k * 3) filters = Some hits /\
    bm25_pass filters (get_scores (tokenize query)) 0 (chunks r)
      (vector_pass hits []) = Some cs /\
    well_keyed cs /\
    sublist picked
      (sorted_desc PrimFloat.ltb snd
         (map (fun '(_, sc) => (s_metadata sc, final_score vw bw sc)) cs)) /\
    Forall2 (fun '(md, s) res => format_result md s = Some res) picked results.
Proof.
  unfold hybrid_search. intros H.
  destruct (VectorStore.search _ _ _ _) as [hits|] eqn:Hhits; [|discriminate].
  simpl in H.
  destruct (bm25_pass _ _ _ _ _) as [cs|] eqn:Hcs; [|discriminate].
  simpl in H. apply mapM_Some_1 in H.
  eexists hits, cs, _. split; [reflexivity|]. split; [exact Hcs|].
  split.
  { eapply bm25_pass_well_keyed; [|exact Hcs].
    apply vector_pass_well_keyed. split; [constructor|].
    intros ? ? Hx. inversion Hx. }
  split; [apply sublist_take|].
  eapply Forall2_impl; [exact H|]. now intros [md s] res.
Qed.

(** X8.  In hybrid mode [search] returns no two results with the same
    [chunk_id], and every result has a non-empty [chunk_id]. *)
Theorem hybrid_results_distinct (r : HybridRetriever)
    (get_scores : list pystr -> list float) (query : pystr) (top_k : nat)
    (filters : option pydict) (results : list Result) :
  bm25_index r = Some get_scores ->
  search r query top_k filters = Some results ->
  NoDup (map (fun res => chunk_id_of (fields res)) results) /\
  Forall (fun res => truthy (chunk_id_of (fields res)) = true) results.
Proof.
  intros Hb. unfold search, search_with. rewrite Hb. intros H.
  destruct (hybrid_search_entries _ _ _ _ _ _ _ _ H)
    as (hits & cs & picked & _ & Hcs & [Hnd Hkey] & Hsub & Hf).
  assert (Hids : map (fun res => chunk_id_of (fields res)) results
                 = map (fun p : pydict * float => chunk_id_of p.1) picked).
  { symmetry. apply Forall2_fmap_eq.
    eapply Forall2_impl; [exact Hf|].
    intros [md s] res Hres. apply format_result_inv in Hres as [_ E].
    now rewrite E. }
  assert (Hall : map (fun p : pydict * float => chunk_id_of p.1)
                   (map (fun '(_, sc) => (s_metadata sc, final_score 0.7 0.3 sc))
                        cs)
                 = cs.*1).
  { clear -Hkey. induction cs as [|[k sc] cs IH]; [reflexivity|].
    simpl. f_equal.
    - apply Hkey. left.
    - apply IH. intros k' sc' Hin. apply Hkey. now right. }
  assert (Htruthy : Forall (fun e : pyval * Scores => truthy e.1 = true) cs).
  { eapply Forall_impl.
    - apply (passes_keep (fun _ => True) filters
               (get_scores (tokenize query)) hits (chunks r) cs);
        [now apply Forall_forall|easy|exact Hcs].
    - now intros e [He _]. }
  split.
  - rewrite Hids.
    eapply sublist_NoDup; [|apply sublist_map, Hsub].
    rewrite (sorted_desc_perm PrimFloat.ltb snd), Hall. exact Hnd.
  - apply Forall_forall. intros res Hres.
    assert (Hin : chunk_id_of (fields res) ∈
                  map (fun res => chunk_id_of (fields res)) results).
    { apply list_elem_of_fmap. now exists res. }
    rewrite Hids in Hin.
    eapply elem_of_sublist in Hin; [|apply sublist_map, Hsub].
    rewrite (sorted_desc_perm PrimFloat.ltb snd), Hall in Hin.
    apply list_elem_of_fmap in Hin as (e & -> & He).
    rewrite Forall_forall in Htruthy. now apply Htruthy.
Qed.

(** X20.  In hybrid mode the results come in descending order of their
    fused score, each score being at least that of every result after
    it, provided that no fused score of the candidates is NaN. *)
Theorem hybrid_scores_descend (r : HybridRetriever)
    (get_scores : list pystr -> list float) (query : pystr) (top_k : nat)
    (filters : option pydict) (vw bw : float) (results : list Result) :
  bm25_index r = Some get_scores ->
  (forall hits cs,
     VectorStore.search (vector_store r) query (top_k * 3) filters = Some hits ->
     bm25_pass filters (get_scores (tokenize query)) 0 (chunks r)
       (vector_pass hits []) = Some cs ->
     Forall (fun e => is_nan (final_score vw bw e.2) = false) cs) ->
  search_with r query top_k filters true vw bw = Some results ->
  StronglySorted (fun a b => (score b <=? score a)%float = true) results.
Proof.
  intros Hb Hnan. unfold search_with. rewrite Hb. intros H.
  destruct (hybrid_search_entries _ _ _ _ _ _ _ _ H)
    as (hits & cs & picked & Hh & Hcs & _ & Hsub & Hf).
  specialize (Hnan hits cs Hh Hcs).
  set (entries :=
         map (fun '(_, sc) => (s_metadata sc, final_score vw bw sc)) cs) in *.
  assert (Hgood : Forall (fun x : pydict * float => is_nan x.2 = false) entries).
  { unfold entries. apply Forall_fmap. eapply Forall_impl; [exact Hnan|].
    now intros [k sc]. }
  assert (Hsorted : StronglySorted (desc PrimFloat.ltb snd) picked).
  { eapply StronglySorted_sublist; [exact Hsub|].
    apply (sorted_desc_sorted_on PrimFloat.ltb snd
             (fun k => is_nan k = false));
      [exact float_ltb_asym|exact float_ltb_negtrans|exact Hgood]. }
  assert (Hpicked : Forall (fun x : pydict * float => is_nan x.2 = false) picked).
  { apply Forall_forall. intros x Hx.
    eapply elem_of_sublist in Hx; [|exact Hsub].
    rewrite (sorted_desc_perm PrimFloat.ltb snd) in Hx.
    rewrite Forall_forall in Hgood. now apply Hgood. }
  assert (Hscores : map score results = map snd picked).
  { symmetry. apply Forall2_fmap_eq.
    eapply Forall2_impl; [exact Hf|].
    intros [md s] res Hres. apply format_result_inv in Hres as [E _].
    now rewrite E. }
  apply (StronglySorted_of_fmap score
           (fun x y => (y <=? x)%float = true)).
  rewrite Hscores.
  apply (StronglySorted_fmap snd (fun x y => (y <=? x)%float = true)).
  eapply StronglySorted_weaken_on; [|exact Hpicked|exact Hsorted].
  intros a b Ha Hb' Hab. now apply float_ltb_leb.
Qed.

(** A passage that keeps to the filters: its category is the requested
    one, and its channel is the requested one, [both], or none. *)
Definition keeps_to (filters : option pydict) (d : pydict) : Prop :=
  forall f, filters = Some f ->
    (forall category, f !! "category" = Some category ->
                      get d "category" PNone = category) /\
    (forall channel, f !! "channel" = Some channel ->
                     get d "channel" PNone = PNone \/
                     get d "channel" PNone = both \/
                     get d "channel" PNone = channel).

Lemma not_rejected_keeps_to (filters : option pydict) (d : pydict) :
  rejects filters d = false -> keeps_to filters d.
Proof.
  intros Hr f ->. unfold rejects in Hr.
  destruct (decide (f = ∅)) as [->|Hne].
  { split; intros x Hx; rewrite lookup_empty in Hx; discriminate. }
  rewrite bool_decide_eq_false_2 in Hr by assumption.
  apply orb_false_iff in Hr as [Hc Hch].
  unfold rejects_category in Hc. unfold rejects_channel in Hch. split.
  - intros c E. rewrite E in Hc. apply negb_false_iff in Hc.
    now apply bool_decide_eq_true in Hc.
  - intros ch E. rewrite E in Hch. unfold get in *.
    destruct (d !! "channel") as [v|]; simpl in *; [|now left].
    apply andb_false_iff in Hch as [H|H]; apply negb_false_iff in H;
      apply bool_decide_eq_true in H; auto.
Qed.

Lemma store_rejects_eq (filters : option pydict) (d : pydict) :
  VectorStore.rejects filters d = rejects filters d.
Proof. reflexivity. Qed.

Lemma keeps_to_ext (filters : option pydict) (d d' : pydict) :
  get d' "category" PNone = get d "category" PNone ->
  get d' "channel" PNone = get d "channel" PNone ->
  keeps_to filters d -> keeps_to filters d'.
Proof. intros E1 E2 H f Hf. rewrite E1, E2. now apply H. Qed.

Lemma format_result_keeps_to (filters : option pydict) (md : pydict)
    (s : float) (res : Result) :
  format_result md s = Some res -> keeps_to filters md ->
  keeps_to filters (fields res).
Proof.
  unfold format_result. destruct (get md "text" (PStr [])); [discriminate|].
  intros [= <-]. now apply keeps_to_ext.
Qed.

(** X9.  In both modes the results of [search] keep to the filters:
    under a category filter every result has the requested category,
    and under a channel filter every result has the requested channel,
    the channel [both], or no channel. *)
Theorem search_keeps_to_filters (r : HybridRetriever) (query : pystr)
    (top_k : nat) (filters : option pydict) (results : list Result) :
  search r query top_k filters = Some results ->
  Forall (fun res => keeps_to filters (fields res)) results.
Proof.
  assert (Hstore : forall k hits,
            VectorStore.search (vector_store r) query k filters = Some hits ->
            Forall (fun h : pydict * float => keeps_to filters h.1) hits).
  { intros k hits H.
    apply VectorStore.store_search_sound_hits in H.
    eapply Forall_impl; [exact H|].
    intros [md d] Hr. apply not_rejected_keeps_to.
    now rewrite <- store_rejects_eq. }
  unfold search, search_with.
  destruct (bm25_index r) as [get_scores|].
  - intros H.
    destruct (hybrid_search_entries _ _ _ _ _ _ _ _ H)
      as (hits & cs & picked & Hhits & Hcs & _ & Hsub & Hf).
    assert (Hok : Forall (fun e : pyval * Scores =>
                            truthy e.1 = true /\
                            keeps_to filters (s_metadata e.2)) cs).
    { apply (passes_keep (keeps_to filters) filters
               (get_scores (tokenize query)) hits (chunks r) cs);
        [now apply (Hstore (top_k * 3))| |exact Hcs].
      intros chunk Hr. apply (keeps_to_ext filters chunk); try reflexivity.
      now apply not_rejected_keeps_to. }
    apply Forall_forall. intros res Hres.
    apply list_elem_of_lookup_1 in Hres as [i Hi].
    destruct (Forall2_lookup_r _ _ _ _ _ Hf Hi) as ([md s] & Hx & Hfr).
    apply list_elem_of_lookup_2 in Hx.
    eapply elem_of_sublist in Hx; [|exact Hsub].
    rewrite (sorted_desc_perm PrimFloat.ltb snd) in Hx.
    apply list_elem_of_fmap in Hx as ([k sc] & [= -> ->] & Hin).
    rewrite Forall_forall in Hok. destruct (Hok _ Hin) as [_ Hmd].
    eapply format_result_keeps_to; eassumption.
  - unfold vector_search. intros H.
    destruct (VectorStore.search _ _ _ _) as [hits|] eqn:E; [|discriminate].
    simpl in H. apply mapM_Some_1 in H.
    pose proof (Hstore _ _ E) as Hh.
    apply Forall_forall. intros res Hres.
    apply list_elem_of_lookup_1 in Hres as [i Hi].
    destruct (Forall2_lookup_r _ _ _ _ _ H Hi) as ([md s] & Hx & Hfr).
    apply list_elem_of_lookup_2 in Hx.
    rewrite Forall_forall in Hh.
    eapply format_result_keeps_to; [exact Hfr|]. now apply (Hh (md, s)).
Qed.

(** *** [rerank] *)

(** The sort key of [rerank]. *)
Definition rerank_key (x : Result) : Z := default 0%Z (rerank_score x).

(** X10.  [rerank] returns [min(top_k, len(results))] results in
    descending order of their rerank score; each is one of the given
    results with its rerank score attached, twice the number of
    distinct query tokens found in its title plus the number found in
    its text. *)
Theorem rerank_sorted (results : list Result) (query : pystr) (top_k : nat)
    (out : list Result) :
  rerank results query top_k = Some out ->
  length out = Nat.min top_k (length results) /\
  StronglySorted (fun a b => (rerank_key b <= rerank_key a)%Z) out /\
  Forall (fun o =>
            exists res,
              res ∈ results /\ fields o = fields res /\ score o = score res /\
              rerank_score_of (remove_dups (tokenize query)) res
              = rerank_score o) out.
Proof.
  unfold rerank. intros H.
  destruct (mapM _ results) as [rr|] eqn:E; [|discriminate].
  simpl in H. injection H as <-.
  fold rerank_key.
  split; [|split].
  - apply length_mapM in E.
    rewrite length_take, sorted_desc_length. lia.
  - apply (StronglySorted_sublist _ _ _ (sublist_take _ _)).
    eapply StronglySorted_weaken;
      [|apply (sorted_desc_sorted Z.ltb rerank_key)].
    + intros a b. unfold desc. rewrite Z.ltb_ge. lia.
    + intros a b. rewrite Z.ltb_lt, Z.ltb_ge. lia.
    + intros a b c. rewrite !Z.ltb_ge. lia.
  - apply mapM_Some_1 in E. apply Forall_forall. intros o Ho.
    eapply elem_of_sublist in Ho; [|apply sublist_take].
    rewrite (sorted_desc_perm Z.ltb rerank_key) in Ho.
    apply list_elem_of_lookup_1 in Ho as [i Hi].
    destruct (Forall2_lookup_r _ _ _ _ _ E Hi) as (res & Hres & Hf).
    exists res. split; [eapply list_elem_of_lookup_2, Hres|].
    destruct (rerank_score_of _ res) as [rs|]; [|discriminate].
    simpl in Hf. injection Hf as <-. now repeat split.
Qed.

(** X11.  [_format_result] stores [None] under [title] when the
    metadata has no title, and [rerank] fails on every list that holds
    such a result: the default of [result.get("title", "")] does not
    apply to a key that is present. *)
Theorem rerank_fails_without_title (metadata : pydict) (sc : float)
    (res : Result) (results : list Result) (query : pystr) (top_k : nat) :
  metadata !! "title" = None -> format_result metadata sc = Some res ->
  res ∈ results ->
  fields res !! "title" = Some PNone /\ rerank results query top_k = None.
Proof.
  intros Ht Hf Hin.
  assert (Htitle : fields res !! "title" = Some PNone).
  { unfold format_result in Hf.
    destruct (get metadata "text" (PStr [])); [discriminate|].
    injection Hf as <-. simpl. unfold get. now rewrite Ht. }
  split; [exact Htitle|].
  unfold rerank.
  rewrite (proj2 (mapM_None _ results)); [reflexivity|].
  apply Exists_exists. exists res. split; [exact Hin|].
  unfold rerank_score_of, get. rewrite Htitle. simpl.
  now destruct (default (PStr []) (fields res !! "text")).
Qed.

End Retriever.

(** *** The channel constraint at the two filtering sites *)

(** The constraints in the words of the design.  A passage without
    [channel] attribute counts as [both]. *)
Definition channel_of (passage : pydict) : pyval := get passage "channel" both.

Definition channel_mismatch (filters passage : pydict) : Prop :=
  exists requested,
    filters !! "channel" = Some requested /\
    channel_of passage <> both /\ channel_of passage <> requested.

Definition category_mismatch (filters passage : pydict) : Prop :=
  exists category,
    filters !! "category" = Some category /\
    get passage "category" PNone <> category.

Lemma rejects_channel_spec (filters passage : pydict) :
  (VectorStore.rejects_channel filters passage = true
     <-> channel_mismatch filters passage) /\
  (rejects_channel filters passage = true
     <-> channel_mismatch filters passage).
Proof.
  unfold VectorStore.rejects_channel, rejects_channel, channel_mismatch,
    channel_of.
  change VectorStore.both with both.
  destruct (filters !! "channel") as [fc|].
  - rewrite andb_true_iff, !negb_true_iff, !bool_decide_eq_false.
    split; (split; [intros [H1 H2]; now exists fc
                   |intros (x & [= <-] & H1 & H2); now split]).
  - split; (split; [discriminate|intros (x & H & _); discriminate]).
Qed.

Lemma rejects_category_spec (filters passage : pydict) :
  (VectorStore.rejects_category filters passage = true
     <-> category_mismatch filters passage) /\
  (rejects_category filters passage = true
     <-> category_mismatch filters passage).
Proof.
  unfold VectorStore.rejects_category, rejects_category, category_mismatch.
  destruct (filters !! "category") as [c|].
  - rewrite negb_true_iff, bool_decide_eq_false.
    split; (split; [intros H; now exists c|intros (x & [= <-] & H); exact H]).
  - split; (split; [discriminate|intros (x & H & _); discriminate]).
Qed.

(** C7.  At both filtering sites a passage is rejected exactly when a
    filter set is given and either its category differs from the
    requested one or its channel is neither [both] nor the requested
    channel, a missing channel attribute counting as [both]; a passage
    whose channel is [both] is therefore never rejected on channel. *)
Theorem channel_both_never_rejected (filters : option pydict)
    (passage : pydict) :
  let rejected :=
    exists f, filters = Some f /\
              (category_mismatch f passage \/ channel_mismatch f passage) in
  (VectorStore.rejects filters passage = true <-> rejected) /\
  (rejects filters passage = true <-> rejected) /\
  (forall f, channel_mismatch f passage ->
             passage !! "channel" <> None /\
             passage !! "channel" <> Some both) /\
  (forall f, passage !! "channel" = None \/ passage !! "channel" = Some both ->
             VectorStore.rejects_channel f passage = false /\
             rejects_channel f passage = false).
Proof.
  intros rejected.
  assert (Hsite : forall rej rc rch : _ -> pydict -> bool,
            (forall f, rc f passage = true <-> category_mismatch f passage) ->
            (forall f, rch f passage = true <-> channel_mismatch f passage) ->
            (forall f, rej (Some f) passage =
                       if bool_decide (f = ∅) then false
                       else rc f passage || rch f passage) ->
            rej None passage = false ->
            (rej filters passage = true <-> rejected)).
  { intros rej rc rch Hc Hch Hrej Hnone. unfold rejected.
    destruct filters as [f|].
    - rewrite Hrej. destruct (decide (f = ∅)) as [->|Hne].
      + rewrite bool_decide_eq_true_2 by reflexivity.
        split; [discriminate|].
        intros (f & [= <-] & [(c & H & _)|(c & H & _)]);
          rewrite lookup_empty in H; discriminate.
      + rewrite bool_decide_eq_false_2 by assumption.
        rewrite orb_true_iff, Hc, Hch.
        split; [intros H; now exists f|intros (f' & [= <-] & H'); exact H'].
    - rewrite Hnone. split; [discriminate|intros (f & H & _); discriminate]. }
  assert (Hboth : forall f, channel_mismatch f passage ->
            passage !! "channel" <> None /\ passage !! "channel" <> Some both).
  { intros f (c & _ & H & _). unfold channel_of, get in H.
    destruct (passage !! "channel") as [v|]; simpl in H; [|contradiction].
    split; [discriminate|congruence]. }
  split; [|split; [|split]].
  - apply (Hsite VectorStore.rejects VectorStore.rejects_category
             VectorStore.rejects_channel);
      try reflexivity; intros f;
      [apply rejects_category_spec|apply rejects_channel_spec].
  - apply (Hsite rejects rejects_category rejects_channel);
      try reflexivity; intros f;
      [apply rejects_category_spec|apply rejects_channel_spec].
  - exact Hboth.
  - intros f Hch.
    split; apply not_true_is_false; intros H%rejects_channel_spec;
      apply Hboth in H; tauto.
Qed.

(** *** A small corpus *)

Definition passage (chunk_id faq_id updated_at channel text : string) : pydict :=
  list_to_map
    [ ("chunk_id", PStr (utf8 chunk_id)); ("faq_id", PStr (utf8 faq_id));
      ("title", PStr (utf8 "title")); ("category", PStr (utf8 "이체"));
      ("url", PStr (utf8 "http://faq")); ("updated_at", PStr (utf8 updated_at));
      ("channel", PStr (utf8 channel)); ("text", PStr (utf8 text)) ].

Definition passage_a : pydict := passage "a" "A" "2024-06-01" "both" "alpha".
Definition passage_b : pydict := passage "b" "B" "2023-01-01" "web" "beta".

(** A store that ranks [passage_a] at distance 1 for every query, and a
    retriever whose BM25 index scores the two chunks [-1] and [2]. *)
Definition store_a : VectorStore.FAISSVectorStore :=
  {| VectorStore.ntotal := 1;
     VectorStore.ranked := fun _ => [(0%Z, 1%float)];
     VectorStore.metadata := [passage_a] |}.

Definition scores_ab : list pystr -> list float := fun _ => [(-1)%float; 2%float].

Definition retriever_ab : HybridRetriever :=
  {| vector_store := store_a;
     bm25_index := Some scores_ab;
     chunks := [passage_a; passage_b] |}.

(** A store with two vectors at distances 0.25 and 0.5, and a retriever
    without lexical index. *)
Definition store_ab : VectorStore.FAISSVectorStore :=
  {| VectorStore.ntotal := 2;
     VectorStore.ranked := fun _ => [(0%Z, 0.25%float); (1%Z, 0.5%float)];
     VectorStore.metadata := [passage_a; passage_b] |}.

Definition retriever_semantic : HybridRetriever :=
  {| vector_store := store_ab; bm25_index := None; chunks := [] |}.

Definition no_tokens : pystr -> list pystr := fun _ => [].

(** The nearest vector of [store_ab], and its two vectors in the order
    of the ranking. *)
Lemma store_search_exact_witness :
  VectorStore.search store_ab (utf8 "q") 1 None
  = Some (take 1 (VectorStore.accepted [passage_a; passage_b] None
                    [(0%Z, 0.25%float); (1%Z, 0.5%float)])) /\
  (VectorStore.ntotal store_ab = 0 ->
   VectorStore.search store_ab (utf8 "q") 1 None = Some []).
Proof.
  apply (VectorStore.store_search_exact store_ab (utf8 "q") 1 None).
  - lia.
  - simpl. apply Forall_cons. split; [right; eexists; reflexivity|].
    apply Forall_cons. split; [right; eexists; reflexivity|]. constructor.
Defined.

Lemma store_search_sound_witness :
  exists hits,
    sublist hits [(0%Z, 0.25%float); (1%Z, 0.5%float)] /\
    Forall2 (VectorStore.from_hit [passage_a; passage_b] None) hits
      [(passage_a, 0.25%float); (passage_b, 0.5%float)].
Proof.
  apply (VectorStore.store_search_sound store_ab (utf8 "q") 5 None
           [(passage_a, 0.25%float); (passage_b, 0.5%float)]).
  vm_compute. reflexivity.
Defined.

(** Both chunks of [retriever_ab] are found, each once. *)
Lemma hybrid_results_distinct_witness :
  exists results,
    search no_tokens retriever_ab (utf8 "q") 5 None = Some results /\
    NoDup (map (fun res => chunk_id_of (fields res)) results) /\
    Forall (fun res => truthy (chunk_id_of (fields res)) = true) results.
Proof.
  destruct (search no_tokens retriever_ab (utf8 "q") 5 None)
    as [results|] eqn:E; [|vm_compute in E; discriminate].
  exists results. split; [reflexivity|].
  exact (hybrid_results_distinct no_tokens retriever_ab scores_ab (utf8 "q") 5
           None results eq_refl E).
Defined.

(** The chunks of [retriever_ab] come by descending score. *)
Lemma hybrid_scores_descend_witness :
  exists results,
    search_with no_tokens retriever_ab (utf8 "q") 5 None true 0.7 0.3
      = Some results /\
    StronglySorted (fun a b => (score b <=? score a)%float = true) results.
Proof.
  destruct (search_with no_tokens retriever_ab (utf8 "q") 5 None true 0.7 0.3)
    as [results|] eqn:E; [|vm_compute in E; discriminate].
  exists results. split; [reflexivity|].
  refine (hybrid_scores_descend no_tokens retriever_ab scores_ab (utf8 "q") 5
            None 0.7 0.3 results eq_refl _ E).
  intros hits cs Hh Hc.
  assert (Eh : hits = default [] (VectorStore.search (vector_store retriever_ab)
                                    (utf8 "q") (5 * 3) None))
    by (now rewrite Hh).
  subst hits.
  assert (Ec : cs = default []
                (bm25_pass None (scores_ab (no_tokens (utf8 "q"))) 0
                   (chunks retriever_ab)
                   (vector_pass
                      (default [] (VectorStore.search (vector_store retriever_ab)
                                     (utf8 "q") (5 * 3) None)) [])))
    by (now rewrite Hc).
  subst cs. vm_compute. repeat constructor.
Defined.

Definition mobile_only : pydict := {[ "channel" := PStr (utf8 "mobile") ]}.

(** Under the channel filter [mobile] the chunk of channel [web] is
    left out. *)
Lemma search_keeps_to_filters_witness :
  exists results,
    search no_tokens retriever_ab (utf8 "q") 5 (Some mobile_only)
      = Some results /\
    Forall (fun res => keeps_to (Some mobile_only) (fields res)) results.
Proof.
  destruct (search no_tokens retriever_ab (utf8 "q") 5 (Some mobile_only))
    as [results|] eqn:E; [|vm_compute in E; discriminate].
  exists results. split; [reflexivity|].
  exact (search_keeps_to_filters no_tokens retriever_ab (utf8 "q") 5
           (Some mobile_only) results E).
Defined.

(** The query as its only token, and texts as they are. *)
Definition whole_query : pystr -> list pystr := fun query => [query].
Definition as_is : pystr -> pystr := fun text => text.

Definition result_a : Result := mkResult passage_a 1 None.
Definition result_b : Result := mkResult passage_b 1 None.

(** The passage that holds the query comes first. *)
Lemma rerank_sorted_witness :
  exists out,
    rerank whole_query as_is [result_a; result_b] (utf8 "beta") 5 = Some out /\
    length out = Nat.min 5 (length [result_a; result_b]) /\
    StronglySorted (fun a b => (rerank_key b <= rerank_key a)%Z) out.
Proof.
  destruct (rerank whole_query as_is [result_a; result_b] (utf8 "beta") 5)
    as [out|] eqn:E; [|vm_compute in E; discriminate].
  exists out. split; [reflexivity|].
  destruct (rerank_sorted whole_query as_is [result_a; result_b] (utf8 "beta")
              5 out E) as (H1 & H2 & _).
  exact (conj H1 H2).
Defined.

Definition untitled : pydict :=
  {[ "chunk_id" := PStr (utf8 "x"); "text" := PStr (utf8 "t") ]}.

(** A result made from metadata without title cannot be reranked. *)
Lemma rerank_fails_without_title_witness :
  exists res,
    format_result untitled 1 = Some res /\
    fields res !! "title" = Some PNone /\
    rerank whole_query as_is [res] (utf8 "q") 5 = None.
Proof.
  destruct (format_result untitled 1) as [res|] eqn:E;
    [|vm_compute in E; discriminate].
  exists res. split; [reflexivity|].
  apply (rerank_fails_without_title whole_query as_is untitled 1 res [res]
           (utf8 "q") 5); [reflexivity|exact E|left].
Defined.

(** The fused score applies at [passage_a], found by both paths. *)
Lemma hybrid_fused_score_witness :
  exists res rest,
    hybrid_search no_tokens retriever_ab scores_ab (utf8 "q") 5 None 0.7 0.3
      = Some (res :: rest) /\
    score res =
      (semantic_part (chunk_id_of (fields res)) [(passage_a, 1%float)] * 0.7
       + lexical_part (chunk_id_of (fields res)) [(-1)%float; 2%float]
           [passage_a; passage_b] * 0.3)%float.
Proof.
  destruct (hybrid_search no_tokens retriever_ab scores_ab (utf8 "q") 5 None
              0.7 0.3) as [[|res rest]|] eqn:E;
    try (vm_compute in E; discriminate).
  exists res, rest. split; [reflexivity|].
  apply (hybrid_fused_score no_tokens retriever_ab scores_ab (utf8 "q") 5 None
           0.7 0.3 [(passage_a, 1%float)] (res :: rest) res).
  - vm_compute. reflexivity.
  - exact E.
  - left.
Defined.

(** The normalisation as C3 words it: the score over the maximum score,
    and 0 when the maximum is 0. *)
Definition claimed_normalize (bm25_scores : list float) (bm25_score : float)
  : float :=
  let max_bm25 := py_max bm25_scores 1 in
  if (max_bm25 =? 0)%float then 0%float else (bm25_score / max_bm25)%float.

(** C3 as stated: for a result found by both paths. *)
Definition fused_score_as_claimed : Prop :=
  forall (tokenize : pystr -> list pystr) (r : HybridRetriever)
         (get_scores : list pystr -> list float) (query : pystr) (top_k : nat)
         (filters : option pydict) (vw bw : float)
         (vector_results : list (pydict * float)) (results : list Result)
         (res : Result) (md : pydict) (d : float) (i : nat) (c : pydict)
         (s : float),
    VectorStore.search (vector_store r) query (top_k * 3) filters
      = Some vector_results ->
    hybrid_search tokenize r get_scores query top_k filters vw bw
      = Some results ->
    res ∈ results ->
    (md, d) ∈ vector_results -> chunk_id_of md = chunk_id_of (fields res) ->
    chunks r !! i = Some c -> chunk_id_of c = chunk_id_of (fields res) ->
    get_scores (tokenize query) !! i = Some s ->
    score res =
      ((1 / (1 + d)) * vw
       + claimed_normalize (get_scores (tokenize query)) s * bw)%float.

(** A chunk with a negative BM25 score: the code gives it the lexical
    part 0 and the fused score 0.35, the claim [-0.5] and 0.2. *)
Lemma fused_score_claim_fails : ~ fused_score_as_claimed.
Proof.
  intros H.
  destruct (hybrid_search no_tokens retriever_ab scores_ab (utf8 "q") 5 None
              0.7 0.3) as [[|res rest]|] eqn:E;
    try (vm_compute in E; discriminate).
  specialize (H no_tokens retriever_ab scores_ab (utf8 "q") 5 None
                0.7%float 0.3%float [(passage_a, 1%float)] (res :: rest) res
                passage_a 1%float 0 passage_a (-1)%float).
  vm_compute in E. injection E as <- <-.
  apply (f_equal (fun x => PrimFloat.ltb 0.3 x)) in H.
  - vm_compute in H. discriminate.
  - vm_compute. reflexivity.
  - vm_compute. reflexivity.
  - left.
  - left.
  - reflexivity.
  - reflexivity.
  - reflexivity.
  - reflexivity.
Qed.

(** C4 at the failing input.  Without lexical index, [search] hands out
    the raw distances as scores, so the results come in ascending
    score order: 0.25 before 0.5. *)
Theorem vector_mode_scores_ascend :
  exists r1 r2,
    search no_tokens retriever_semantic (utf8 "q") 5 None = Some [r1; r2] /\
    score r1 = 0.25%float /\ score r2 = 0.5%float /\
    (score r1 <? score r2)%float = true.
Proof.
  eexists _, _. split; [vm_compute; reflexivity|].
  repeat split.
Qed.

(** The tokens of a short question, over the ASCII and Hangul part of
    the tables. *)
Example tokenize_question :
  _tokenize Redactor.ascii_hangul_word (map Redactor.ascii_lower)
            (utf8 "OTP 분실, 재발급!")
  = [utf8 "otp"; utf8 "분실"; utf8 "재발급"].
Proof. vm_compute. reflexivity. Qed.

End Hybrid.

(* ===================================================================== *)
(** * app/agent/tools.py *)
(* ===================================================================== *)

Module Tools.

(** What the tools ask of a retriever and of a language-model client.
    The calls thread the state of the collaborator, so that a client may
    answer two equal calls differently; [None] is a raised exception. *)
Class Retriever (R : Type) : Type := {
  search : R -> pystr -> nat -> option pydict -> option (list Result * R);
  rerank : R -> list Result -> pystr -> nat -> option (list Result * R)
}.

Class LLMClient (L : Type) : Type := {
  llm_classify_intent : L -> pystr -> option (pystr * L);
  llm_rewrite_query : L -> pystr -> pystr -> option (pystr * L);
  llm_generate_answer :
    L -> pystr -> list Result -> option pystr -> option (gmap string json * L)
}.

(** [retrieve_faq] *)
Definition retrieve_faq {R : Type} `{Retriever R} (retriever : R)
    (query : pystr) (top_k : nat) (filters : option pydict)
  : option (list Result * R) :=
  '(results, retriever) ← search retriever query top_k filters;
  if (top_k <? length results)%nat then rerank retriever results query top_k
  else Some (results, retriever).

(** [classify_intent] and [rewrite_query] *)
Definition classify_intent {L : Type} `{LLMClient L} (llm_client : L)
    (question : pystr) : option (pystr * L) :=
  llm_classify_intent llm_client question.

Definition rewrite_query {L : Type} `{LLMClient L} (llm_client : L)
    (question intent : pystr) : option (pystr * L) :=
  llm_rewrite_query llm_client question intent.

(** The retriever of [hybrid_search.py] as a [Retriever]. *)
Section HybridInstance.
Variable tokenize : pystr -> list pystr.
Variable lower : pystr -> pystr.

#[export] Instance hybrid_retriever : Retriever Hybrid.HybridRetriever := {
  search r query top_k filters :=
    results ← Hybrid.search tokenize r query top_k filters; Some (results, r);
  rerank r results query top_k :=
    results ← Hybrid.rerank tokenize lower results query top_k; Some (results, r)
}.

(** C10.  On the hybrid retriever [retrieve_faq] returns exactly what
    [search] returns: [search] never returns more than [top_k] results,
    so the guard of the rerank branch is false and [rerank] is not
    called. *)
Theorem retrieve_faq_is_search (r : Hybrid.HybridRetriever) (query : pystr)
    (top_k : nat) (filters : option pydict) :
  retrieve_faq r query top_k filters = search r query top_k filters /\
  (forall results,
     Hybrid.search tokenize r query top_k filters = Some results ->
     (top_k <? length results)%nat = false) /\
  retrieve_faq r query top_k filters =
    (results ← Hybrid.search tokenize r query top_k filters; Some (results, r)).
Proof.
  assert (Hlen : forall results,
            Hybrid.search tokenize r query top_k filters = Some results ->
            (top_k <? length results)%nat = false).
  { intros results H. apply Nat.ltb_ge. eapply Hybrid.search_length, H. }
  assert (Heq : retrieve_faq r query top_k filters
                = search r query top_k filters).
  { unfold retrieve_faq. simpl.
    destruct (Hybrid.search tokenize r query top_k filters) as [results|] eqn:E;
      [|reflexivity].
    simpl. now rewrite (Hlen results). }
  split; [exact Heq|]. split; [exact Hlen|]. exact Heq.
Qed.

End HybridInstance.

(** ** [format_answer] *)

(** The dictionary [format_answer] returns, which the orchestrator then
    updates in place. *)
Record Answer : Type := mkAnswer {
  answer : json;
  steps : list json;
  citations : json;
  followups : list json;
  confidence : json;
  safety : json
}.

Definition no_match_phrase : pystr := utf8 "관련 FAQ를 찾지 못했습니다".

Definition no_match_answer : pystr :=
  utf8 "관련 FAQ를 찾지 못했습니다. 고객센터(1588-0000)로 문의하시거나 인터넷뱅킹 도움말을 참고하세요.".

(** [answer_data.get(k, dflt)] *)
Definition jget (d : gmap string json) (k : string) (dflt : json) : json :=
  default dflt (d !! k).

(** The citation built from a retrieved document; [None] is the
    [TypeError] of slicing a [text] that is [None]. *)
Definition citation_of (doc : Result) : option json :=
  match get (fields doc) "text" (PStr []) with
  | PStr text =>
      Some (JDict
        [ (utf8 "title", json_of (get (fields doc) "title" (PStr [])));
          (utf8 "url", json_of (get (fields doc) "url" (PStr [])));
          (utf8 "snippet",
             json_of (get (fields doc) "snippet" (PStr (firstn 200 text))));
          (utf8 "faq_id", json_of (get (fields doc) "faq_id" (PStr []))) ])
  | PNone => None
  end.

(** [[s.strip() for s in text.split("\n") if s.strip()]] *)
Definition nonblank_lines (text : pystr) : list pystr :=
  map strip (List.filter (fun s => negb (bool_decide (strip s = [])))
                         (split_on 10 text)).

(** A string is turned into the list of its non-blank lines. *)
Definition as_list (v : json) : json :=
  match v with
  | JStr text => JList (map JStr (nonblank_lines text))
  | _ => v
  end.

(** [v[:n]]; [None] is the [TypeError] of slicing what is neither a
    list nor a string. *)
Definition slice_to (n : nat) (v : json) : option (list json) :=
  match v with
  | JList l => Some (firstn n l)
  | _ => None
  end.

(** [v.startswith(p)]; [None] is the [AttributeError] on a value that is
    not a string. *)
Definition jstartswith (v : json) (p : pystr) : option bool :=
  match v with
  | JStr s => Some (startswith s p)
  | _ => None
  end.

Definition format_answer (answer_data : gmap string json)
    (retrieved_docs : list Result) : option Answer :=
  let citations := jget answer_data "citations" (JList []) in
  citations ←
    (if negb (json_truthy citations)
        && negb (bool_decide (length retrieved_docs = 0))
     then JList <$> mapM citation_of (firstn 5 retrieved_docs)
     else Some citations);
  let confidence := jget answer_data "confidence" (JStr (utf8 "medium")) in
  '(confidence, answer_data) ←
    (if negb (json_truthy citations) then
       starts ← jstartswith (jget answer_data "answer" (JStr [])) no_match_phrase;
       if negb starts
       then Some (JStr (utf8 "low"),
                  <["answer" := JStr no_match_answer]> answer_data)
       else Some (JStr (utf8 "low"), answer_data)
     else Some (confidence, answer_data));
  let steps := as_list (jget answer_data "steps" (JList [])) in
  let followups := as_list (jget answer_data "followups" (JList [])) in
  steps ← slice_to 7 steps;
  followups ← slice_to 2 followups;
  Some {|
    answer := jget answer_data "answer" (JStr []);
    steps := steps;
    citations := citations;
    followups := followups;
    confidence := confidence;
    safety := jget answer_data "safety" (JStr [])
  |}.

Lemma slice_to_length (n : nat) (v : json) (l : list json) :
  slice_to n v = Some l -> length l <= n.
Proof.
  destruct v; try discriminate. intros [= <-]. rewrite length_take. lia.
Qed.

(** What [format_answer] returns, field by field. *)
Lemma format_answer_inv (answer_data : gmap string json)
    (retrieved_docs : list Result) (a : Answer) :
  format_answer answer_data retrieved_docs = Some a ->
  let supplied := jget answer_data "citations" (JList []) in
  slice_to 7 (as_list (jget answer_data "steps" (JList []))) = Some (steps a) /\
  slice_to 2 (as_list (jget answer_data "followups" (JList [])))
    = Some (followups a) /\
  (if negb (json_truthy supplied)
      && negb (bool_decide (length retrieved_docs = 0))
   then exists cs, mapM citation_of (take 5 retrieved_docs) = Some cs /\
                   citations a = JList cs
   else citations a = supplied) /\
  (if negb (json_truthy (citations a)) then
     confidence a = JStr (utf8 "low") /\
     exists s, jget answer_data "answer" (JStr []) = JStr s /\
               answer a = JStr (if startswith s no_match_phrase then s
                                else no_match_answer)
   else
     confidence a = jget answer_data "confidence" (JStr (utf8 "medium")) /\
     answer a = jget answer_data "answer" (JStr [])).
Proof.
  intros Hf supplied. unfold format_answer in Hf. fold supplied in Hf.
  set (synth := negb (json_truthy supplied)
                && negb (bool_decide (length retrieved_docs = 0))) in *.
  destruct (if synth then JList <$> mapM citation_of (take 5 retrieved_docs)
            else Some supplied) as [cit|] eqn:Hcit; [|discriminate].
  simpl in Hf.
  assert (Hc : if synth
               then exists cs, mapM citation_of (take 5 retrieved_docs) = Some cs
                               /\ cit = JList cs
               else cit = supplied).
  { destruct synth.
    - destruct (mapM citation_of (take 5 retrieved_docs)) as [cs|];
        [|discriminate].
      injection Hcit as <-. now exists cs.
    - now injection Hcit as <-. }
  clear Hcit.
  destruct (json_truthy cit) eqn:Ht; simpl in Hf.
  - destruct (slice_to 7 _) as [st|] eqn:Hst; [|discriminate]. simpl in Hf.
    destruct (slice_to 2 _) as [fo|] eqn:Hfo; [|discriminate]. simpl in Hf.
    injection Hf as <-. simpl. rewrite Ht. simpl.
    repeat split; assumption.
  - destruct (jget answer_data "answer" (JStr [])) as [| | | |s| |] eqn:Ha;
      try discriminate.
    simpl in Hf.
    destruct (startswith s no_match_phrase) eqn:Hs; simpl in Hf.
    + destruct (slice_to 7 _) as [st|] eqn:Hst; [|discriminate]. simpl in Hf.
      destruct (slice_to 2 _) as [fo|] eqn:Hfo; [|discriminate]. simpl in Hf.
      injection Hf as <-. simpl. rewrite Ht, Ha. simpl.
      repeat split; try assumption. exists s. now rewrite Hs.
    + unfold jget in Hf. rewrite !lookup_insert in Hf. simpl in Hf.
      destruct (slice_to 7 _) as [st|] eqn:Hst; [|discriminate]. simpl in Hf.
      destruct (slice_to 2 _) as [fo|] eqn:Hfo; [|discriminate]. simpl in Hf.
      injection Hf as <-. simpl. rewrite Ht. simpl.
      repeat split; try assumption. exists s. now rewrite Hs.
Qed.

(** C8 (as the code has it).  [steps] has at most 7 entries and
    [followups] at most 2, whatever the model returned; a [steps] or
    [followups] given as one string is split on line breaks, its blank
    lines dropped, before the cap.  Citations supplied by the model are
    handed on unchanged; only the citations built from the retrieved
    documents, when the model supplied none, are limited to 5. *)
Theorem format_answer_caps (answer_data : gmap string json)
    (retrieved_docs : list Result) (a : Answer) :
  format_answer answer_data retrieved_docs = Some a ->
  let supplied := jget answer_data "citations" (JList []) in
  length (steps a) <= 7 /\
  length (followups a) <= 2 /\
  (forall text, jget answer_data "steps" (JList []) = JStr text ->
     steps a = take 7 (map JStr (nonblank_lines text))) /\
  (forall text, jget answer_data "followups" (JList []) = JStr text ->
     followups a = take 2 (map JStr (nonblank_lines text))) /\
  (json_truthy supplied = true -> citations a = supplied) /\
  (json_truthy supplied = false -> retrieved_docs <> [] ->
     exists cs, citations a = JList cs /\
                length cs = Nat.min 5 (length retrieved_docs)) /\
  (json_truthy supplied = false -> retrieved_docs = [] ->
     citations a = supplied).
Proof.
  intros Hf supplied.
  destruct (format_answer_inv _ _ _ Hf) as (Hst & Hfo & Hcit & _).
  fold supplied in Hcit.
  split; [eapply slice_to_length, Hst|].
  split; [eapply slice_to_length, Hfo|].
  split; [|split].
  - intros text E. rewrite E in Hst. simpl in Hst. now injection Hst.
  - intros text E. rewrite E in Hfo. simpl in Hfo. now injection Hfo.
  - split; [|split].
    + intros Ht. now rewrite Ht in Hcit.
    + intros Ht Hne. rewrite Ht in Hcit. simpl in Hcit.
      rewrite bool_decide_eq_false_2 in Hcit
        by (destruct retrieved_docs; [contradiction|discriminate]).
      destruct Hcit as (cs & Hm & ->). exists cs. split; [reflexivity|].
      apply length_mapM in Hm. now rewrite <- Hm, length_take.
    + intros Ht ->. now rewrite Ht in Hcit.
Qed.

(** The safety field is the one of the model output. *)
Lemma format_answer_safety (answer_data : gmap string json)
    (retrieved_docs : list Result) (a : Answer) :
  format_answer answer_data retrieved_docs = Some a ->
  safety a = jget answer_data "safety" (JStr []).
Proof.
  unfold format_answer.
  destruct (if negb (json_truthy (jget answer_data "citations" (JList [])))
               && negb (bool_decide (length retrieved_docs = 0))
            then JList <$> mapM citation_of (take 5 retrieved_docs)
            else Some (jget answer_data "citations" (JList [])))
    as [cit|]; [|discriminate].
  simpl.
  destruct (json_truthy cit); simpl.
  - destruct (slice_to 7 _) as [st|]; [|discriminate]. simpl.
    destruct (slice_to 2 _) as [fo|]; [|discriminate]. simpl.
    now intros [= <-].
  - destruct (jstartswith _ _) as [[|]|]; [| |discriminate]; simpl.
    + destruct (slice_to 7 _) as [st|]; [|discriminate]. simpl.
      destruct (slice_to 2 _) as [fo|]; [|discriminate]. simpl.
      now intros [= <-].
    + destruct (slice_to 7 _) as [st|]; [|discriminate]. simpl.
      destruct (slice_to 2 _) as [fo|]; [|discriminate]. simpl.
      intros [= <-]. simpl. unfold jget. now rewrite lookup_insert_ne.
Qed.

(** *** Lines of a string *)

(** The white space that [lstrip] removes. *)
Lemma lstrip_split (s : pystr) :
  exists w, s = w ++ lstrip s /\ forallb is_space w = true.
Proof.
  induction s as [|c s (w & E & Hw)]; simpl; [now exists []|].
  destruct (is_space c) eqn:Ec.
  - exists (c :: w). simpl. rewrite Ec, Hw. split; [now f_equal|reflexivity].
  - now exists [].
Qed.

Lemma lstrip_head (s : pystr) (c : N) (t : pystr) :
  lstrip s = c :: t -> is_space c = false.
Proof.
  induction s as [|x s IH]; simpl; [discriminate|].
  destruct (is_space x) eqn:Ex; [exact IH|]. now intros [= <- _].
Qed.

Lemma lstrip_fixed (c : N) (t : pystr) :
  is_space c = false -> lstrip (c :: t) = c :: t.
Proof. intros H. simpl. now rewrite H. Qed.

Lemma lstrip_lstrip (s : pystr) : lstrip (lstrip s) = lstrip s.
Proof.
  destruct (lstrip s) as [|c t] eqn:E; [reflexivity|].
  apply lstrip_fixed. eapply lstrip_head, E.
Qed.

(** What [strip] leaves, between the white space it removes. *)
Lemma strip_split (s : pystr) :
  exists w1 w2,
    s = w1 ++ strip s ++ w2 /\
    forallb is_space w1 = true /\ forallb is_space w2 = true.
Proof.
  destruct (lstrip_split s) as (w1 & E1 & H1).
  destruct (lstrip_split (rev (lstrip s))) as (w & E2 & H2).
  exists w1, (rev w). unfold strip, rstrip.
  split; [|split; [exact H1|now rewrite Redactor.forallb_rev]].
  rewrite <- rev_app_distr, <- E2, rev_involutive. exact E1.
Qed.

Lemma strip_first (s : pystr) (c : N) (t : pystr) :
  strip s = c :: t -> is_space c = false.
Proof.
  intros E. destruct (lstrip_split (rev (lstrip s))) as (w & E2 & H2).
  assert (El : lstrip s = strip s ++ rev w).
  { unfold strip, rstrip. rewrite <- rev_app_distr, <- E2.
    now rewrite rev_involutive. }
  rewrite E in El. simpl in El. eapply lstrip_head, El.
Qed.

Lemma strip_strip (s : pystr) : strip (strip s) = strip s.
Proof.
  assert (Hr : rstrip (strip s) = strip s).
  { unfold strip at 1 2, rstrip. now rewrite rev_involutive, lstrip_lstrip. }
  unfold strip at 1. destruct (strip s) as [|c t] eqn:E; [reflexivity|].
  rewrite (lstrip_fixed c t) by (eapply strip_first, E). exact Hr.
Qed.

Lemma strip_last (s t : pystr) (c : N) :
  strip s = t ++ [c] -> is_space c = false.
Proof.
  intros E. unfold strip, rstrip in E.
  apply (f_equal (@rev N)) in E. rewrite rev_involutive, rev_app_distr in E.
  simpl in E. eapply lstrip_head, E.
Qed.

Lemma split_on_nonempty (sep : N) (s : pystr) : split_on sep s <> [].
Proof.
  destruct s as [|c s]; simpl; [discriminate|].
  destruct (split_on sep s); [discriminate|].
  now destruct (c =? sep)%N.
Qed.

Lemma split_on_pieces (sep : N) (s : pystr) :
  Forall (fun piece => sep ∉ piece) (split_on sep s).
Proof.
  induction s as [|c s IH]; simpl.
  - constructor; [apply not_elem_of_nil|constructor].
  - pose proof (split_on_nonempty sep s) as Hne.
    destruct (split_on sep s) as [|piece pieces]; [contradiction|].
    + apply Forall_cons in IH as [Hp Hps].
      destruct (c =? sep)%N eqn:E.
      * constructor; [apply not_elem_of_nil|]. now constructor.
      * constructor; [|exact Hps]. apply N.eqb_neq in E.
        intros [->|H]%elem_of_cons; [contradiction|]. contradiction.
Qed.

(** X12.  The lines that [format_answer] makes of a string given for
    [steps] or [followups] are not empty, begin and end with a
    character that is no white space, are left as they are by another
    [strip], and hold no line break. *)
Theorem nonblank_lines_stripped (text : pystr) :
  Forall (fun line =>
            line <> [] /\ strip line = line /\ 10%N ∉ line /\
            (forall c t, line = c :: t -> is_space c = false) /\
            (forall t c, line = t ++ [c] -> is_space c = false))
         (nonblank_lines text).
Proof.
  unfold nonblank_lines. apply Forall_forall. intros line Hin.
  apply list_elem_of_fmap in Hin as (piece & -> & Hin).
  apply list_elem_of_In, filter_In in Hin as [Hin Hne].
  apply negb_true_iff, bool_decide_eq_false in Hne.
  split; [exact Hne|]. split; [apply strip_strip|]. split; [|split].
  - pose proof (split_on_pieces 10 text) as Hp.
    rewrite Forall_forall in Hp. specialize (Hp piece).
    intros Hc. apply Hp; [now apply list_elem_of_In|].
    destruct (strip_split piece) as (w1 & w2 & E & _).
    rewrite E. apply elem_of_app. right. apply elem_of_app. now left.
  - intros c t E. eapply strip_first, E.
  - intros t c E. eapply strip_last, E.
Qed.

(** *** When [format_answer] fails *)

(** A value that [format_answer] can slice: a list, or a string, which
    it turns into a list. *)
Definition listlike (v : json) : bool :=
  match v with
  | JList _ | JStr _ => true
  | _ => false
  end.

Lemma slice_to_as_list (n : nat) (v : json) :
  slice_to n (as_list v) = None <-> listlike v = false.
Proof. destruct v; simpl; split; congruence. Qed.

(** X13.  [format_answer] fails in these cases and in no other: the
    model gave no citations and one of the first five retrieved
    documents has the text [None]; the model gave no citations, no
    document was retrieved and the answer is no string; [steps] is
    neither a list nor a string; [followups] is neither a list nor a
    string. *)
Theorem format_answer_fails (answer_data : gmap string json)
    (retrieved_docs : list Result) :
  let supplied := jget answer_data "citations" (JList []) in
  format_answer answer_data retrieved_docs = None <->
  (json_truthy supplied = false /\ retrieved_docs <> [] /\
   exists doc, doc ∈ take 5 retrieved_docs /\
               fields doc !! "text" = Some PNone) \/
  (json_truthy supplied = false /\ retrieved_docs = [] /\
   forall s, jget answer_data "answer" (JStr []) <> JStr s) \/
  listlike (jget answer_data "steps" (JList [])) = false \/
  listlike (jget answer_data "followups" (JList [])) = false.
Proof.
  intros supplied.
  assert (Hcit : forall doc, citation_of doc = None
                             <-> fields doc !! "text" = Some PNone).
  { intros doc. unfold citation_of, get.
    destruct (fields doc !! "text") as [[|s]|]; simpl;
      split; congruence. }
  assert (Htail : forall ad : gmap string json,
            jget ad "steps" (JList []) = jget answer_data "steps" (JList []) ->
            jget ad "followups" (JList [])
            = jget answer_data "followups" (JList []) ->
            forall c cf,
              (steps ← slice_to 7 (as_list (jget ad "steps" (JList [])));
               followups ← slice_to 2 (as_list (jget ad "followups" (JList [])));
               Some {| answer := jget ad "answer" (JStr []);
                       steps := steps; citations := c; followups := followups;
                       confidence := cf;
                       safety := jget ad "safety" (JStr []) |}) = None <->
              listlike (jget answer_data "steps" (JList [])) = false \/
              listlike (jget answer_data "followups" (JList [])) = false).
  { intros ad E1 E2 c cf. rewrite E1, E2.
    rewrite <- (slice_to_as_list 7 (jget answer_data "steps" (JList []))).
    rewrite <- (slice_to_as_list 2 (jget answer_data "followups" (JList []))).
    destruct (slice_to 7 _) as [st|]; simpl.
    - destruct (slice_to 2 _) as [fo|]; simpl.
      + split; [discriminate|]. intros [H|H]; discriminate.
      + split; [now right|reflexivity].
    - split; [now left|reflexivity]. }
  unfold format_answer. fold supplied.
  destruct (json_truthy supplied) eqn:Ht; simpl.
  - rewrite Ht. simpl. rewrite Htail by reflexivity.
    split; [intros H; now do 2 right|].
    intros [(H & _)|[(H & _)|H]]; [discriminate|discriminate|exact H].
  - destruct retrieved_docs as [|doc docs].
    + simpl. rewrite Ht. simpl.
      destruct (jget answer_data "answer" (JStr [])) as [| | | |s| |] eqn:Ea;
        simpl;
        try (split; [intros _; right; left; repeat split; congruence
                    |reflexivity]).
      destruct (startswith s no_match_phrase); simpl.
      * rewrite Htail by reflexivity.
        split; [intros H; now do 2 right|].
        intros [(_ & H & _)|[(_ & _ & H)|H]];
          [contradiction|now destruct (H s)|exact H].
      * rewrite Htail by (unfold jget; now rewrite lookup_insert_ne).
        split; [intros H; now do 2 right|].
        intros [(_ & H & _)|[(_ & _ & H)|H]];
          [contradiction|now destruct (H s)|exact H].
    + change (negb (bool_decide (length (doc :: docs) = 0))) with true.
      cbn [andb negb].
      destruct (mapM citation_of (take 5 (doc :: docs))) as [cs|] eqn:Em.
      * assert (Hcs : json_truthy (JList cs) = true).
        { apply length_mapM in Em. simpl in Em.
          destruct cs; [discriminate|reflexivity]. }
        cbn [fmap option_fmap option_map mbind option_bind].
        rewrite Hcs. cbn [negb]. cbn [mbind option_bind].
        rewrite Htail by reflexivity.
        split; [intros H; now do 2 right|].
        intros [(_ & _ & d & Hd & Hdt)|[(_ & H & _)|H]];
          [|discriminate|exact H].
        exfalso. apply Hcit in Hdt.
        assert (Hex : Exists (fun x => citation_of x = None)
                        (take 5 (doc :: docs)))
          by (apply Exists_exists; now exists d).
        apply mapM_None_2 in Hex. congruence.
      * simpl. split; [intros _; left|reflexivity].
        split; [reflexivity|]. split; [discriminate|].
        apply mapM_None_1, Exists_exists in Em as (d & Hd & Hdn).
        exists d. split; [exact Hd|]. now apply Hcit.
Qed.

(** The documents and the model output of the examples. *)
Definition doc_of (p : pydict) : Result := mkResult p 1 None.

Definition steps_text : pystr :=
  utf8 "1. 로그인" ++ [10%N] ++ utf8 "  " ++ [10%N] ++ utf8 " 2. 이체 " ++ [10%N].

Definition answer_with_steps : gmap string json :=
  {[ "answer" := JStr (utf8 "이체 방법입니다.");
     "steps" := JStr steps_text;
     "confidence" := JStr (utf8 "high") ]}.

Lemma format_answer_caps_witness :
  exists a,
    format_answer answer_with_steps [doc_of Hybrid.passage_a] = Some a /\
    length (steps a) <= 7 /\
    steps a = [JStr (utf8 "1. 로그인"); JStr (utf8 "2. 이체")].
Proof.
  destruct (format_answer answer_with_steps [doc_of Hybrid.passage_a])
    as [a|] eqn:E; [|vm_compute in E; discriminate].
  exists a. split; [reflexivity|].
  destruct (format_answer_caps _ _ _ E) as (H1 & _ & H3 & _).
  split; [exact H1|].
  rewrite (H3 steps_text) by (vm_compute; reflexivity).
  vm_compute. reflexivity.
Defined.

(** C8 as stated: the three caps. *)
Definition caps_as_claimed : Prop :=
  forall (answer_data : gmap string json) (retrieved_docs : list Result)
         (a : Answer),
    format_answer answer_data retrieved_docs = Some a ->
    length (steps a) <= 7 /\
    (exists cs, citations a = JList cs /\ length cs <= 5) /\
    length (followups a) <= 2.

Definition one_citation : json :=
  JDict [ (utf8 "title", JStr (utf8 "t")); (utf8 "url", JStr (utf8 "u"));
          (utf8 "snippet", JStr (utf8 "s")) ].

Definition answer_with_six_citations : gmap string json :=
  {[ "answer" := JStr (utf8 "ok");
     "citations" := JList (repeat one_citation 6) ]}.

(** Six citations from the model come out as six citations. *)
Lemma caps_claim_fails : ~ caps_as_claimed.
Proof.
  intros H.
  destruct (format_answer answer_with_six_citations []) as [a|] eqn:E;
    [|vm_compute in E; discriminate].
  destruct (H _ _ _ E) as (_ & (cs & Hcs & Hlen) & _).
  vm_compute in E. injection E as <-. simpl in Hcs.
  injection Hcs as <-. simpl in Hlen. lia.
Qed.

End Tools.

(* ===================================================================== *)
(** * app/llm/gemini_client.py *)
(* ===================================================================== *)

Module Gemini.

Definition nl : pystr := [10%N].

(** A piece of text between double quotes. *)
Definition quoted (s : string) : pystr := [34%N] ++ utf8 s ++ [34%N].

(** [s.split()]: the words of [s], which runs of white space separate;
    [word] is the word being read. *)
Fixpoint split_from (word s : pystr) : list pystr :=
  match s with
  | [] => match word with [] => [] | _ => [word] end
  | c :: s' =>
      if is_space c then
        match word with
        | [] => split_from [] s'
        | _ => word :: split_from [] s'
        end
      else split_from (word ++ [c]) s'
  end.

Definition split (s : pystr) : list pystr := split_from [] s.

(** What a call of the model gives: the text of the response, or the
    message of the exception that was raised. *)
Inductive reply : Type :=
  | Text (text : pystr)
  | Failure (message : pystr).

Definition other_intent : pystr := utf8 "기타".

Section Client.

(** [self.model.generate_content(full_prompt, generation_config)]
    followed by [response.text].  The remote model is a state; the
    generation configuration is its temperature and, when it is set,
    its [max_output_tokens]. *)
Variable M : Type.
Variable generate_content :
  M -> pystr -> float -> option Z -> reply * M.

(** [generate]: a failure is raised again as a [ValueError]. *)
Definition generate (m : M) (prompt : pystr)
    (system_instruction : option pystr) (temperature : float)
    (max_tokens : option Z) : reply * M :=
  let max_output_tokens :=
    match max_tokens with
    | Some n => if (n =? 0)%Z then None else Some n
    | None => None
    end in
  let full_prompt :=
    match system_instruction with
    | Some (c :: s) =>
        (c :: s) ++ nl ++ nl ++ utf8 "---" ++ nl ++ nl ++ prompt
    | _ => prompt
    end in
  let '(r, m) := generate_content m full_prompt temperature max_output_tokens in
  match r with
  | Text text => (Text text, m)
  | Failure e => (Failure (utf8 "Gemini API 호출 실패: " ++ e), m)
  end.

(** [classify_intent] *)
Definition classify_system_prompt : pystr :=
  join nl
    [ utf8 "당신은 인터넷뱅킹 FAQ 시스템의 의도 분류기입니다.";
      utf8 "사용자의 질문을 다음 카테고리 중 하나로 분류하세요:";
      utf8 "- 로그인: 로그인, 비밀번호, 계정 관련";
      utf8 "- 이체: 이체, 송금, 계좌이체 관련";
      utf8 "- 인증서: 공동인증서, 공인인증서, 인증서 발급/갱신";
      utf8 "- 오류코드: 오류 메시지, 에러 코드 해석";
      utf8 "- 보안: 보안카드, OTP, 보안 설정";
      utf8 "- 수수료: 이체 수수료, 거래 수수료";
      utf8 "- 한도: 이체 한도, 거래 한도";
      utf8 "- 계좌등록: 계좌 등록, 자주쓰는계좌";
      utf8 "- 기타: 위에 해당하지 않는 경우";
      [];
      utf8 "카테고리명만 반환하세요. 예: 이체" ].

Definition classify_prompt (question : pystr) : pystr :=
  utf8 "질문: " ++ question ++ nl ++ nl ++ utf8 "카테고리:".

Definition classify_intent (m : M) (question : pystr) : pystr * M :=
  let '(r, m) :=
    generate m (classify_prompt question) (Some classify_system_prompt)
             0.3 None in
  match r with
  | Text result =>
      match strip result with
      | [] => (other_intent, m)
      | _ =>
          match split (strip result) with
          | category :: _ => (category, m)
          | [] => (other_intent, m)
          end
      end
  | Failure _ => (other_intent, m)
  end.

(** [rewrite_query] *)
Definition rewrite_system_prompt : pystr :=
  join nl
    [ utf8 "당신은 검색 쿼리 재작성 전문가입니다.";
      utf8 "사용자의 질문을 FAQ 검색에 최적화된 형태로 재작성하세요.";
      [];
      utf8 "주의사항:";
      utf8 "- 동의어/유사어 추가 (예: " ++ quoted "공인인증서" ++ utf8 " → "
        ++ quoted "공동인증서" ++ utf8 ")";
      utf8 "- 약어 확장 (예: " ++ quoted "OTP" ++ utf8 " → "
        ++ quoted "일회용 비밀번호" ++ utf8 ")";
      utf8 "- 오타 수정";
      utf8 "- 검색에 유용한 키워드 추가";
      [];
      utf8 "원본 질문의 의미는 유지하되, 검색 성능을 높이도록 재작성하세요.";
      utf8 "재작성된 질문만 반환하세요." ].

Definition rewrite_prompt (question intent : pystr) : pystr :=
  utf8 "의도: " ++ intent ++ nl ++ utf8 "원본 질문: " ++ question
    ++ nl ++ nl ++ utf8 "재작성된 질문:".

Definition rewrite_query (m : M) (question intent : pystr) : pystr * M :=
  let '(r, m) :=
    generate m (rewrite_prompt question intent) (Some rewrite_system_prompt)
             0.5 None in
  match r with
  | Text result =>
      match strip result with
      | [] => (question, m)
      | rewritten => (rewritten, m)
      end
  | Failure _ => (question, m)
  end.

(** *** Words *)

(** A text is a word followed by nothing or by white space. *)
Lemma first_word (s : pystr) :
  exists w rest,
    s = w ++ rest /\ forallb Redactor.solid w = true /\
    match rest with [] => True | c :: _ => is_space c = true end.
Proof.
  induction s as [|c s (w & rest & E & Hw & Hr)].
  - now exists [], [].
  - destruct (is_space c) eqn:Ec.
    + exists [], (c :: s). now rewrite Ec.
    + exists (c :: w), rest. simpl. unfold Redactor.solid at 1.
      rewrite Ec, Hw. split; [now f_equal|]. split; [reflexivity|exact Hr].
Qed.

Lemma split_from_word (word w rest : pystr) :
  forallb Redactor.solid w = true ->
  match rest with [] => True | c :: _ => is_space c = true end ->
  word ++ w <> [] ->
  exists ws, split_from word (w ++ rest) = (word ++ w) :: ws.
Proof.
  revert word. induction w as [|c w IH]; intros word Hw Hr Hne.
  - rewrite app_nil_r in *. simpl.
    destruct rest as [|c rest].
    + destruct word; [congruence|]. now eexists.
    + simpl. rewrite Hr. destruct word; [congruence|]. now eexists.
  - simpl in Hw. apply andb_true_iff in Hw as [Hc Hw].
    unfold Redactor.solid in Hc. apply negb_true_iff in Hc.
    simpl. rewrite Hc.
    destruct (IH (word ++ [c]) Hw Hr) as (ws & E).
    { now destruct word. }
    exists ws. rewrite E. now rewrite <- app_assoc.
Qed.

(** The first word of a text that begins with a character other than
    white space. *)
Lemma split_first (s : pystr) (c : N) (t : pystr) :
  s = c :: t -> is_space c = false ->
  exists w rest ws,
    split s = w :: ws /\ s = w ++ rest /\ w <> [] /\
    forallb Redactor.solid w = true /\
    match rest with [] => True | x :: _ => is_space x = true end.
Proof.
  intros Es Hc. destruct (first_word s) as (w & rest & E & Hw & Hr).
  assert (Hne : w <> []).
  { intros ->. simpl in E. rewrite Es in E. subst rest. simpl in Hr.
    congruence. }
  destruct (split_from_word [] w rest Hw Hr) as (ws & Hs); [exact Hne|].
  exists w, rest, ws. unfold split. rewrite E at 1.
  split; [exact Hs|]. split; [exact E|]. split; [exact Hne|].
  split; [exact Hw|exact Hr].
Qed.

Lemma other_intent_word :
  other_intent <> [] /\ forallb Redactor.solid other_intent = true.
Proof. split; [discriminate|reflexivity]. Qed.

(** X17.  [classify_intent] never raises and always returns a category
    that is not empty and holds no white space: when the call of the
    model fails or its response is blank, the category of the other
    questions; otherwise the first word of the response, whatever
    follows it.  The model is called once. *)
Theorem classify_intent_word (m : M) (question : pystr) :
  let call :=
    generate m (classify_prompt question) (Some classify_system_prompt)
             0.3 None in
  let category := (classify_intent m question).1 in
  category <> [] /\ forallb Redactor.solid category = true /\
  (classify_intent m question).2 = call.2 /\
  match call.1 with
  | Text text =>
      match strip text with
      | [] => category = other_intent
      | _ =>
          exists rest,
            strip text = category ++ rest /\
            match rest with [] => True | c :: _ => is_space c = true end
      end
  | Failure _ => category = other_intent
  end.
Proof.
  intros call category. unfold category, classify_intent. fold call.
  destruct call as [[text|e] m']; simpl;
    [|split; [discriminate|]; split; [reflexivity|]; now split].
  destruct (strip text) as [|c t] eqn:Es; simpl;
    [split; [discriminate|]; split; [reflexivity|]; now split|].
  destruct (split_first (c :: t) c t eq_refl) as (w & rest & ws & Hs & E & Hne & Hw & Hr).
  { eapply Tools.strip_first, Es. }
  rewrite Hs. simpl. split; [exact Hne|]. split; [exact Hw|].
  split; [reflexivity|]. now exists rest.
Qed.

(** X18.  [rewrite_query] never raises.  It returns the question as it
    is when the call of the model fails or the response is blank, and
    otherwise the response without the white space around it, so that
    a question that is not empty is never rewritten to an empty
    query, and a query other than the question neither begins nor ends
    with white space. *)
Theorem rewrite_query_result (m : M) (question intent : pystr) :
  let call :=
    generate m (rewrite_prompt question intent) (Some rewrite_system_prompt)
             0.5 None in
  let rewritten := (rewrite_query m question intent).1 in
  (rewrite_query m question intent).2 = call.2 /\
  (question <> [] -> rewritten <> []) /\
  (rewritten <> question ->
     strip rewritten = rewritten /\ rewritten <> []) /\
  match call.1 with
  | Text text =>
      rewritten = match strip text with [] => question | _ => strip text end
  | Failure _ => rewritten = question
  end.
Proof.
  intros call rewritten. unfold rewritten, rewrite_query. fold call.
  destruct call as [[text|e] m']; simpl;
    [|split; [reflexivity|]; split; [tauto|]; split; [congruence|reflexivity]].
  destruct (strip text) as [|c t] eqn:Es; simpl;
    [split; [reflexivity|]; split; [tauto|]; split; [congruence|reflexivity]|].
  split; [reflexivity|]. split; [discriminate|].
  split; [|reflexivity]. intros _. split; [|discriminate].
  rewrite <- Es. apply Tools.strip_strip.
Qed.

End Client.

(** A model that answers every call with the same text, and one whose
    calls fail. *)
Definition constant_model (text : pystr)
  : unit -> pystr -> float -> option Z -> reply * unit :=
  fun m _ _ _ => (Text text, m).

Definition failing_model
  : unit -> pystr -> float -> option Z -> reply * unit :=
  fun m _ _ _ => (Failure (utf8 "timeout"), m).

Example classify_intent_first_word :
  classify_intent unit
      (constant_model ([32%N] ++ utf8 "이체 (송금)" ++ nl)) tt (utf8 "송금 방법")
    = (utf8 "이체", tt) /\
  classify_intent unit (constant_model (utf8 "  " ++ nl)) tt (utf8 "송금 방법")
    = (other_intent, tt) /\
  classify_intent unit failing_model tt (utf8 "송금 방법") = (other_intent, tt).
Proof. vm_compute. repeat split. Qed.

Example rewrite_query_keeps_question :
  rewrite_query unit (constant_model nl) tt (utf8 "OTP 분실") (utf8 "보안")
    = (utf8 "OTP 분실", tt) /\
  rewrite_query unit failing_model tt (utf8 "OTP 분실") (utf8 "보안")
    = (utf8 "OTP 분실", tt) /\
  rewrite_query unit (constant_model (utf8 " 일회용 비밀번호 분실 " ++ nl)) tt
      (utf8 "OTP 분실") (utf8 "보안")
    = (utf8 "일회용 비밀번호 분실", tt).
Proof. vm_compute. repeat split. Qed.

End Gemini.

(* ===================================================================== *)
(** * app/agent/orchestrator.py *)
(* ===================================================================== *)

Module Orchestrator.

(** ** [FAQAgent._resolve_conflicts] *)

Section ResolveConflicts.

(** [datetime.strptime(s, "%Y-%m-%d")].  A [datetime] is represented by
    its position in chronological order counted from [datetime.min];
    [None] stands for the [ValueError] raised on an unparseable
    string. *)
Variable strptime : pystr -> option N.

Definition datetime_min : N := 0.

(** The sort key [get_date].  The bare [except] also catches the
    [TypeError] raised when [updated_at] is [None]. *)
Definition get_date (doc : Result) : N :=
  match get (fields doc) "updated_at" (PStr []) with
  | PStr date_str =>
      match strptime date_str with
      | Some t => t
      | None => datetime_min
      end
  | PNone => datetime_min
  end.

Definition faq_id_of (doc : Result) : pyval := get (fields doc) "faq_id" PNone.

(** The loop over [sorted_docs], with [seen_faq_ids] threaded through. *)
Fixpoint unique_docs (seen_faq_ids : gset pyval) (sorted_docs : list Result)
  : list Result :=
  match sorted_docs with
  | [] => []
  | doc :: rest =>
      let faq_id := faq_id_of doc in
      if truthy faq_id && negb (bool_decide (faq_id ∈ seen_faq_ids)) then
        doc :: unique_docs ({[ faq_id ]} ∪ seen_faq_ids) rest
      else if negb (truthy faq_id) then
        doc :: unique_docs seen_faq_ids rest
      else
        unique_docs seen_faq_ids rest
  end.

Definition resolve_conflicts (docs : list Result) : list Result :=
  let sorted_docs := sorted_desc N.ltb get_date docs in
  unique_docs ∅ sorted_docs.

(** Specification, in the words of the design: of a list, keep every
    record without [faq_id] and, of the records with a [faq_id], those
    not preceded by a record with the same [faq_id].  [before] holds the
    [faq_id]s of the records already passed. *)
Fixpoint first_of_each_faq (before : list pyval) (l : list Result)
  : list Result :=
  match l with
  | [] => []
  | doc :: rest =>
      let keep :=
        negb (truthy (faq_id_of doc))
        || negb (bool_decide (faq_id_of doc ∈ before)) in
      (if keep then [doc] else [])
        ++ first_of_each_faq (before ++ [faq_id_of doc]) rest
  end.

(** Descending order of dates. *)
Definition newer_first (a b : Result) : Prop := (get_date b <= get_date a)%N.

Definition has_faq_id (doc : Result) : bool := truthy (faq_id_of doc).

Definition no_faq_id (doc : Result) : bool := negb (has_faq_id doc).

(** [updated_at] is missing, [None], or rejected by [strptime]. *)
Definition undated (doc : Result) : Prop :=
  match get (fields doc) "updated_at" (PStr []) with
  | PStr date_str => strptime date_str = None
  | PNone => True
  end.

Lemma undated_get_date (doc : Result) :
  undated doc -> get_date doc = datetime_min.
Proof.
  unfold undated, get_date.
  destruct (get (fields doc) "updated_at" (PStr [])) as [|s]; [reflexivity|].
  now intros ->.
Qed.

Lemma sorted_docs_newer_first (docs : list Result) :
  StronglySorted newer_first (sorted_desc N.ltb get_date docs).
Proof.
  assert (H : StronglySorted (desc N.ltb get_date)
                (sorted_desc N.ltb get_date docs)).
  { apply sorted_desc_sorted.
    - intros a b. rewrite N.ltb_lt, N.ltb_ge. lia.
    - intros a b c. rewrite !N.ltb_ge. lia. }
  induction H as [|d l _ IH Hd]; constructor; [exact IH|].
  eapply Forall_impl; [exact Hd|].
  intros e. unfold desc, newer_first. now rewrite N.ltb_ge.
Qed.

(** The loop computes the specification, provided the set of seen
    identifiers and the identifiers passed so far agree on non-empty
    identifiers. *)
Lemma unique_docs_first_of_each (l : list Result) :
  forall (seen : gset pyval) (before : list pyval),
    (forall f, truthy f = true -> f ∈ seen <-> f ∈ before) ->
    unique_docs seen l = first_of_each_faq before l.
Proof.
  induction l as [|doc rest IH]; intros seen before Hinv; [reflexivity|].
  simpl. destruct (truthy (faq_id_of doc)) eqn:Ht; simpl.
  - destruct (bool_decide (faq_id_of doc ∈ seen)) eqn:Hs.
    + apply bool_decide_eq_true in Hs.
      rewrite (bool_decide_eq_true_2 (faq_id_of doc ∈ before))
        by (now apply Hinv).
      simpl. apply IH. intros f Hf.
      rewrite elem_of_app, list_elem_of_singleton, <- (Hinv f Hf).
      split; [tauto|]. intros [H| ->]; assumption.
    + apply bool_decide_eq_false in Hs.
      rewrite (bool_decide_eq_false_2 (faq_id_of doc ∈ before))
        by (now rewrite <- (Hinv _ Ht)).
      simpl. f_equal. apply IH. intros f Hf.
      rewrite elem_of_union, elem_of_singleton, elem_of_app,
        list_elem_of_singleton, <- (Hinv f Hf).
      tauto.
  - f_equal. apply IH. intros f Hf.
    rewrite elem_of_app, list_elem_of_singleton, <- (Hinv f Hf).
    split; [tauto|]. intros [H| ->]; [assumption|congruence].
Qed.

Lemma unique_docs_sublist (l : list Result) :
  forall seen, sublist (unique_docs seen l) l.
Proof.
  induction l as [|doc rest IH]; intros seen; simpl; [constructor|].
  destruct (truthy (faq_id_of doc)
            && negb (bool_decide (faq_id_of doc ∈ seen)));
    [now constructor|].
  destruct (negb (truthy (faq_id_of doc))); now constructor.
Qed.

Lemma sublist_newer_first (l1 l2 : list Result) :
  sublist l1 l2 -> StronglySorted newer_first l2 ->
  StronglySorted newer_first l1.
Proof.
  induction 1 as [|x l1 l2 Hs IH|x l1 l2 Hs IH]; intros Hsorted.
  - constructor.
  - apply StronglySorted_inv in Hsorted as [H1 H2].
    constructor; [now apply IH|].
    rewrite Forall_forall in H2 |- *. intros y Hy.
    apply H2. eapply elem_of_sublist; eassumption.
  - apply StronglySorted_inv in Hsorted as [H1 _]. now apply IH.
Qed.

(** Records without [faq_id] all survive, in their order. *)
Lemma unique_docs_keeps_no_faq_id (l : list Result) :
  forall seen,
    List.filter no_faq_id (unique_docs seen l) = List.filter no_faq_id l.
Proof.
  induction l as [|doc rest IH]; intros seen; [reflexivity|].
  simpl. unfold no_faq_id at 2, has_faq_id.
  destruct (truthy (faq_id_of doc)) eqn:Ht; simpl.
  - destruct (bool_decide (faq_id_of doc ∈ seen)); simpl; [apply IH|].
    unfold no_faq_id at 1, has_faq_id. rewrite Ht. simpl. apply IH.
  - unfold no_faq_id at 1, has_faq_id. rewrite Ht. simpl. f_equal. apply IH.
Qed.

(** The identifiers of the surviving records that have one. *)
Definition faq_ids (l : list Result) : list pyval :=
  map faq_id_of (List.filter has_faq_id l).

Lemma unique_docs_faq_ids (l : list Result) :
  forall seen,
    NoDup (faq_ids (unique_docs seen l)) /\
    (forall f, f ∈ faq_ids (unique_docs seen l) -> f ∉ seen).
Proof.
  induction l as [|doc rest IH]; intros seen; simpl.
  - split; [constructor|]. intros f Hf. inversion Hf.
  - destruct (truthy (faq_id_of doc)) eqn:Ht; simpl.
    + destruct (bool_decide (faq_id_of doc ∈ seen)) eqn:Hs; simpl.
      * apply IH.
      * apply bool_decide_eq_false in Hs.
        destruct (IH ({[faq_id_of doc]} ∪ seen)) as [Hnd Hout].
        unfold faq_ids in *. simpl.
        change (has_faq_id doc) with (truthy (faq_id_of doc)).
        rewrite Ht. simpl. split.
        -- constructor; [|exact Hnd].
           intros Hin. apply Hout in Hin. set_solver.
        -- intros f Hf. apply elem_of_cons in Hf as [->|Hf]; [exact Hs|].
           apply Hout in Hf. set_solver.
    + unfold faq_ids in *. simpl.
      change (has_faq_id doc) with (truthy (faq_id_of doc)).
      rewrite Ht. apply IH.
Qed.

(** In a date-sorted list the first record of a [faq_id] is its most
    recently updated one. *)
Lemma first_of_each_faq_newest (l : list Result) :
  forall before d,
    StronglySorted newer_first l ->
    d ∈ l -> has_faq_id d = true -> faq_id_of d ∉ before ->
    exists d', d' ∈ first_of_each_faq before l /\
               faq_id_of d' = faq_id_of d /\ newer_first d' d.
Proof.
  induction l as [|x rest IH]; intros before d Hsorted Hd Hf Hb.
  - inversion Hd.
  - apply StronglySorted_inv in Hsorted as [Hrest Hx].
    simpl. destruct (decide (faq_id_of x = faq_id_of d)) as [E|E].
    + exists x. rewrite E. unfold has_faq_id in Hf.
      rewrite (bool_decide_eq_false_2 _ Hb), orb_true_r. simpl.
      split; [left|]. split; [reflexivity|].
      apply elem_of_cons in Hd as [->|Hd]; [unfold newer_first; lia|].
      rewrite Forall_forall in Hx. now apply Hx.
    + apply elem_of_cons in Hd as [->|Hd]; [congruence|].
      destruct (IH (before ++ [faq_id_of x]) d Hrest Hd Hf) as (d' & H1 & H2).
      { rewrite elem_of_app, list_elem_of_singleton. intros [?|?]; auto. }
      exists d'. split; [|exact H2].
      apply elem_of_app. now right.
Qed.

(** C1.  [_resolve_conflicts] sorts the records by [updated_at], newest
    first, a record whose [updated_at] is missing or unparseable taking
    the minimum date and so sorting last; of the sorted list it keeps
    exactly the records without [faq_id] and the first record of each
    non-empty [faq_id], which is a most recently updated record of that
    FAQ; no record without [faq_id] is removed, and every non-empty
    [faq_id] occurs at most once in the output. *)
Theorem resolve_conflicts_correct (docs : list Result) :
  let sorted_docs := sorted_desc N.ltb get_date docs in
  let out := resolve_conflicts docs in
  (Permutation sorted_docs docs /\ StronglySorted newer_first sorted_docs) /\
  (forall d, undated d -> get_date d = datetime_min /\
                          forall e, newer_first e d) /\
  out = first_of_each_faq [] sorted_docs /\
  (sublist out sorted_docs /\ StronglySorted newer_first out) /\
  List.filter no_faq_id out = List.filter no_faq_id sorted_docs /\
  NoDup (faq_ids out) /\
  (forall d, d ∈ docs -> has_faq_id d = true ->
     exists d', d' ∈ out /\ faq_id_of d' = faq_id_of d /\ newer_first d' d).
Proof.
  intros sorted_docs out.
  assert (Hperm : Permutation sorted_docs docs) by apply sorted_desc_perm.
  assert (Hsorted : StronglySorted newer_first sorted_docs)
    by apply sorted_docs_newer_first.
  assert (Hspec : out = first_of_each_faq [] sorted_docs).
  { apply unique_docs_first_of_each. intros f _. set_solver. }
  assert (Hsub : sublist out sorted_docs) by apply unique_docs_sublist.
  repeat split; try assumption.
  - now apply undated_get_date.
  - intros e. unfold newer_first. rewrite (undated_get_date d) by assumption.
    apply N.le_0_l.
  - eapply sublist_newer_first; eassumption.
  - apply unique_docs_keeps_no_faq_id.
  - apply (unique_docs_faq_ids sorted_docs ∅).
  - intros d Hd Hf. rewrite Hspec.
    apply first_of_each_faq_newest; try assumption.
    + now rewrite Hperm.
    + set_solver.
Qed.

(** *** Resolving twice *)

Lemma unique_docs_idem (l : list Result) :
  forall seen,
    unique_docs seen (unique_docs seen l) = unique_docs seen l.
Proof.
  induction l as [|doc rest IH]; intros seen; [reflexivity|].
  simpl.
  destruct (truthy (faq_id_of doc)) eqn:Ht; simpl.
  - destruct (bool_decide (faq_id_of doc ∈ seen)) eqn:Hs; simpl.
    + apply IH.
    + rewrite Ht, Hs. simpl. f_equal. apply IH.
  - rewrite Ht. simpl. f_equal. apply IH.
Qed.

(** X14.  [_resolve_conflicts] is idempotent: its result is in
    descending order of dates and holds each non-empty [faq_id] once,
    so that resolving it again returns it unchanged. *)
Theorem resolve_conflicts_idempotent (docs : list Result) :
  resolve_conflicts (resolve_conflicts docs) = resolve_conflicts docs.
Proof.
  unfold resolve_conflicts. rewrite sorted_desc_fixed; [apply unique_docs_idem|].
  eapply StronglySorted_sublist; [apply unique_docs_sublist|].
  apply sorted_desc_sorted.
  - intros a b. rewrite N.ltb_lt, N.ltb_ge. lia.
  - intros a b c. rewrite !N.ltb_ge. lia.
Qed.

End ResolveConflicts.

(** ** [FAQAgent.process_question] *)

Section Pipeline.

Variable is_word : N -> bool.
Variable is_digit : N -> bool.
Variable strptime : pystr -> option N.
Context {R L : Type} `{Tools.Retriever R} `{Tools.LLMClient L}.

Definition detect_and_mask_pii : pystr -> pystr * list pystr :=
  Redactor.detect_and_mask_pii is_word is_digit.

Definition other_intent : pystr := utf8 "기타".

Definition str_truthy (s : pystr) : bool := negb (bool_decide (s = [])).

(** The filters of the first retrieval and of the relaxed one. *)
Definition channel_filter (channel : option pystr) : pydict :=
  match channel with
  | Some c => if str_truthy c then {[ "channel" := PStr c ]} else ∅
  | None => ∅
  end.

Definition first_filters (channel : option pystr) (intent : pystr) : pydict :=
  let filters := channel_filter channel in
  if str_truthy intent && negb (bool_decide (intent = other_intent))
  then <["category" := PStr intent]> filters
  else filters.

Definition chunk_id_of (doc : Result) : pyval := get (fields doc) "chunk_id" PNone.

(** The merging loop: [existing_ids] is computed once, before the
    loop. *)
Fixpoint merge_relaxed (existing_ids : gset pyval) (relaxed_docs : list Result)
    (retrieved_docs : list Result) : list Result :=
  match relaxed_docs with
  | [] => retrieved_docs
  | doc :: rest =>
      if bool_decide (chunk_id_of doc ∉ existing_ids)
      then merge_relaxed existing_ids rest (retrieved_docs ++ [doc])
      else merge_relaxed existing_ids rest retrieved_docs
  end.

(** Steps 3 and 4: retrieval, and the relaxed retrieval when fewer than
    three documents came back. *)
Definition retrieve_docs (retriever : R) (rewritten_query : pystr)
    (channel : option pystr) (intent : pystr) : option (list Result * R) :=
  let filters := first_filters channel intent in
  '(retrieved_docs, retriever) ←
    Tools.retrieve_faq retriever rewritten_query 10 (Some filters);
  if (length retrieved_docs <? 3)%nat then
    let relaxed_filters := channel_filter channel in
    '(relaxed_docs, retriever) ←
      Tools.retrieve_faq retriever rewritten_query 10 (Some relaxed_filters);
    let existing_ids : gset pyval :=
      list_to_set (map chunk_id_of retrieved_docs) in
    Some (merge_relaxed existing_ids relaxed_docs retrieved_docs, retriever)
  else Some (retrieved_docs, retriever).

(** Step 1: the redaction of the question and of the user context. *)
Definition redact_inputs (question : pystr) (user_context : option pystr)
  : pystr * option pystr * list pystr :=
  let '(question_clean, pii_warnings) := detect_and_mask_pii question in
  match user_context with
  | Some (c :: uc) =>
      let '(user_context_clean, context_warnings) :=
        detect_and_mask_pii (c :: uc) in
      (question_clean, Some user_context_clean,
       pii_warnings ++ context_warnings)
  | _ => (question_clean, None, pii_warnings)
  end.

Definition caution : pystr := utf8 "주의: ".

(** Step 8: the safety message. *)
Definition attach_safety (pii_warnings : list pystr)
    (formatted_answer : Tools.Answer) : Tools.Answer :=
  match pii_warnings with
  | [] => formatted_answer
  | _ =>
      let safety_message := caution ++ join (utf8 " ") pii_warnings in
      Tools.mkAnswer
        (Tools.answer formatted_answer) (Tools.steps formatted_answer)
        (Tools.citations formatted_answer) (Tools.followups formatted_answer)
        (Tools.confidence formatted_answer) (JStr safety_message)
  end.

(** Step 9: the confidence of an answer without citations. *)
Definition calibrate (formatted_answer : Tools.Answer) : option Tools.Answer :=
  if negb (json_truthy (Tools.citations formatted_answer)) then
    starts ← Tools.jstartswith (Tools.answer formatted_answer)
                Tools.no_match_phrase;
    Some (Tools.mkAnswer
            (if negb starts then JStr Tools.no_match_answer
             else Tools.answer formatted_answer)
            (Tools.steps formatted_answer)
            (Tools.citations formatted_answer)
            (Tools.followups formatted_answer)
            (JStr (utf8 "low"))
            (Tools.safety formatted_answer))
  else Some formatted_answer.

Definition process_question (retriever : R) (llm_client : L)
    (question : pystr) (channel : option pystr) (user_context : option pystr)
  : option (Tools.Answer * R * L) :=
  let '(question_clean, user_context_clean, pii_warnings) :=
    redact_inputs question user_context in
  '(intent, llm_client) ← Tools.classify_intent llm_client question_clean;
  '(rewritten_query, llm_client) ←
    Tools.rewrite_query llm_client question_clean intent;
  '(retrieved_docs, retriever) ←
    retrieve_docs retriever rewritten_query channel intent;
  let retrieved_docs := resolve_conflicts strptime retrieved_docs in
  '(answer_data, llm_client) ←
    Tools.llm_generate_answer llm_client question_clean
      (take 5 retrieved_docs) user_context_clean;
  formatted_answer ← Tools.format_answer answer_data retrieved_docs;
  let formatted_answer := attach_safety pii_warnings formatted_answer in
  formatted_answer ← calibrate formatted_answer;
  Some (formatted_answer, retriever, llm_client).

(** *** Retrieval and relaxation *)

Lemma merge_relaxed_filter (existing_ids : gset pyval)
    (relaxed_docs : list Result) :
  forall retrieved_docs,
    merge_relaxed existing_ids relaxed_docs retrieved_docs =
    retrieved_docs
      ++ List.filter (fun doc => bool_decide (chunk_id_of doc ∉ existing_ids))
           relaxed_docs.
Proof.
  induction relaxed_docs as [|doc rest IH]; intros retrieved_docs; simpl.
  - now rewrite app_nil_r.
  - destruct (bool_decide (chunk_id_of doc ∉ existing_ids)); rewrite IH;
      [now rewrite <- app_assoc|reflexivity].
Qed.

(** The relaxed documents that are new: their [chunk_id] is not among
    those of the first retrieval. *)
Definition new_docs (first relaxed : list Result) : list Result :=
  List.filter
    (fun doc => bool_decide (chunk_id_of doc ∉ map chunk_id_of first)) relaxed.

(** C5.  The first retrieval asks for 10 results under the channel and
    category filters.  When it returns fewer than 3, a second retrieval
    asks for 10 results under the same filters without the category, and
    the result is the first list followed by exactly those relaxed
    results whose [chunk_id] the first list does not have, in their
    order; when it returns 3 or more, there is no further call of the
    retriever and the first list is the result. *)
Theorem relax_and_retry (retriever : R) (rewritten_query : pystr)
    (channel : option pystr) (intent : pystr) :
  let filters := first_filters channel intent in
  let relaxed_filters := channel_filter channel in
  relaxed_filters = delete "category" filters /\
  match Tools.retrieve_faq retriever rewritten_query 10 (Some filters) with
  | None => retrieve_docs retriever rewritten_query channel intent = None
  | Some (first, retriever1) =>
      if (length first <? 3)%nat then
        match Tools.retrieve_faq retriever1 rewritten_query 10
                (Some relaxed_filters) with
        | None => retrieve_docs retriever rewritten_query channel intent = None
        | Some (relaxed, retriever2) =>
            retrieve_docs retriever rewritten_query channel intent
            = Some (first ++ new_docs first relaxed, retriever2)
        end
      else
        retrieve_docs retriever rewritten_query channel intent
        = Some (first, retriever1)
  end.
Proof.
  intros filters relaxed_filters. split.
  - unfold relaxed_filters, filters, first_filters, channel_filter.
    destruct (str_truthy intent && negb (bool_decide (intent = other_intent))).
    + rewrite delete_insert_eq. symmetry. apply delete_id.
      destruct channel as [c|]; [destruct (str_truthy c)|]; reflexivity.
    + symmetry. apply delete_id.
      destruct channel as [c|]; [destruct (str_truthy c)|]; reflexivity.
  - unfold retrieve_docs. fold filters. fold relaxed_filters.
    destruct (Tools.retrieve_faq retriever rewritten_query 10 (Some filters))
      as [[first retriever1]|]; [|reflexivity].
    simpl. destruct (length first <? 3)%nat; [|reflexivity].
    destruct (Tools.retrieve_faq retriever1 rewritten_query 10
                (Some relaxed_filters)) as [[relaxed retriever2]|];
      [|reflexivity].
    simpl. rewrite merge_relaxed_filter. do 3 f_equal.
    unfold new_docs. apply filter_ext. intros doc.
    apply bool_decide_ext. now rewrite elem_of_list_to_set.
Qed.

(** *** The answer *)

Lemma attach_safety_citations (ws : list pystr) (a : Tools.Answer) :
  Tools.citations (attach_safety ws a) = Tools.citations a /\
  Tools.answer (attach_safety ws a) = Tools.answer a /\
  Tools.confidence (attach_safety ws a) = Tools.confidence a.
Proof. destruct ws; repeat split. Qed.

Lemma no_match_answer_starts :
  startswith Tools.no_match_answer Tools.no_match_phrase = true.
Proof. vm_compute. reflexivity. Qed.

(** The answer that [process_question] returns in terms of the model
    output it formatted. *)
Lemma process_question_inv (retriever : R) (llm_client : L)
    (question : pystr) (channel : option pystr) (user_context : option pystr)
    (a : Tools.Answer) (retriever' : R) (llm_client' : L) :
  process_question retriever llm_client question channel user_context
    = Some (a, retriever', llm_client') ->
  exists llm1 question_clean docs context_clean answer_data formatted,
    Tools.llm_generate_answer llm1 question_clean (take 5 docs) context_clean
      = Some (answer_data, llm_client') /\
    Tools.format_answer answer_data docs = Some formatted /\
    calibrate (attach_safety (redact_inputs question user_context).2 formatted)
      = Some a.
Proof.
  unfold process_question.
  destruct (redact_inputs question user_context) as [[qc ucc] ws].
  destruct (Tools.classify_intent llm_client qc) as [[intent l1]|];
    [|discriminate]. simpl.
  destruct (Tools.rewrite_query l1 qc intent) as [[rq l2]|];
    [|discriminate]. simpl.
  destruct (retrieve_docs retriever rq channel intent) as [[docs r1]|];
    [|discriminate]. simpl.
  destruct (Tools.llm_generate_answer l2 qc _ ucc) as [[ad l3]|] eqn:Hg;
    [|discriminate]. simpl.
  destruct (Tools.format_answer ad _) as [fa|] eqn:Hf; [|discriminate]. simpl.
  destruct (calibrate (attach_safety ws fa)) as [a'|] eqn:Hc; [|discriminate].
  simpl. intros [= <- <- <-].
  exists l2, qc, (resolve_conflicts strptime docs), ucc, ad, fa.
  repeat split; assumption.
Qed.

(** C6.  When the citation list of the returned answer is empty, its
    confidence is "low"; its answer is the model's answer if that
    already begins with the no-match phrase, and otherwise the canned
    no-match response with the support-contact hint. *)
Theorem no_citations_low_confidence (retriever : R) (llm_client : L)
    (question : pystr) (channel : option pystr) (user_context : option pystr)
    (a : Tools.Answer) (retriever' : R) (llm_client' : L) :
  process_question retriever llm_client question channel user_context
    = Some (a, retriever', llm_client') ->
  json_truthy (Tools.citations a) = false ->
  Tools.confidence a = JStr (utf8 "low") /\
  exists llm1 question_clean docs context_clean answer_data model_answer,
    Tools.llm_generate_answer llm1 question_clean docs context_clean
      = Some (answer_data, llm_client') /\
    Tools.jget answer_data "answer" (JStr []) = JStr model_answer /\
    Tools.answer a =
      JStr (if startswith model_answer Tools.no_match_phrase
            then model_answer else Tools.no_match_answer).
Proof.
  intros Hp Hcit.
  destruct (process_question_inv _ _ _ _ _ _ _ _ Hp)
    as (l1 & qc & docs & ucc & ad & fa & Hg & Hf & Hc).
  destruct (attach_safety_citations (redact_inputs question user_context).2 fa)
    as (Ec & Ea & Econf).
  unfold calibrate in Hc. rewrite Ec, Ea in Hc.
  assert (Hfa : json_truthy (Tools.citations fa) = false).
  { destruct (json_truthy (Tools.citations fa)) eqn:E; [|reflexivity].
    simpl in Hc. injection Hc as <-. congruence. }
  rewrite Hfa in Hc. simpl in Hc.
  destruct (Tools.format_answer_inv _ _ _ Hf) as (_ & _ & _ & H4).
  rewrite Hfa in H4. simpl in H4. destruct H4 as (_ & s & Hs & Hans).
  rewrite Hans in Hc. simpl in Hc. injection Hc as <-. simpl.
  split; [reflexivity|].
  exists l1, qc, (take 5 docs), ucc, ad, s.
  split; [exact Hg|]. split; [exact Hs|].
  destruct (startswith s Tools.no_match_phrase) eqn:E; simpl.
  - now rewrite E.
  - reflexivity.
Qed.

(** *** What the model is given *)

(** The redacted user context. *)
Definition context_clean (user_context : option pystr) : option pystr :=
  match user_context with
  | Some (c :: uc) => Some (detect_and_mask_pii (c :: uc)).1
  | _ => None
  end.



(** *** The safety field and [check_pii_in_input] *)

Definition check_pii_in_input : pystr -> option pystr -> bool * list pystr :=
  Redactor.check_pii_in_input is_word is_digit.

Lemma check_pii_in_input_warnings (question : pystr)
    (user_context : option pystr) :
  check_pii_in_input question user_context
  = ((0 <? length (redact_inputs question user_context).2)%nat,
     (redact_inputs question user_context).2).
Proof.
  unfold check_pii_in_input, Redactor.check_pii_in_input, redact_inputs,
    detect_and_mask_pii.
  destruct (Redactor.detect_and_mask_pii is_word is_digit question) as [qc ws].
  destruct user_context as [[|c uc]|]; try reflexivity.
  now destruct (Redactor.detect_and_mask_pii is_word is_digit (c :: uc)).
Qed.

Lemma calibrate_safety (fa a : Tools.Answer) :
  calibrate fa = Some a -> Tools.safety a = Tools.safety fa.
Proof.
  unfold calibrate.
  destruct (negb (json_truthy (Tools.citations fa))).
  - destruct (Tools.jstartswith _ _); [|discriminate].
    simpl. now intros [= <-].
  - now intros [= <-].
Qed.

(** X16.  [process_question] words the safety field from the warnings
    that [check_pii_in_input] reports for the same question and user
    context: when it flags the input, the field is the caution followed
    by these warnings, joined by spaces; when it does not, the field is
    the one of the model output, empty if the model gave none. *)
Theorem safety_follows_check (retriever : R) (llm_client : L)
    (question : pystr) (channel : option pystr) (user_context : option pystr)
    (a : Tools.Answer) (retriever' : R) (llm_client' : L) :
  process_question retriever llm_client question channel user_context
    = Some (a, retriever', llm_client') ->
  let '(has_pii, warnings) := check_pii_in_input question user_context in
  (has_pii = true ->
   Tools.safety a = JStr (caution ++ join (utf8 " ") warnings)) /\
  (has_pii = false ->
   warnings = [] /\
   exists llm1 question_clean docs user_context_clean answer_data,
     Tools.llm_generate_answer llm1 question_clean docs user_context_clean
       = Some (answer_data, llm_client') /\
     Tools.safety a = Tools.jget answer_data "safety" (JStr [])).
Proof.
  intros Hp. rewrite check_pii_in_input_warnings.
  destruct (process_question_inv _ _ _ _ _ _ _ _ Hp)
    as (l1 & qc & docs & ucc & ad & fa & Hg & Hf & Hc).
  apply calibrate_safety in Hc.
  destruct ((redact_inputs question user_context).2) as [|w ws]; simpl.
  - split; [discriminate|]. intros _. split; [reflexivity|].
    exists l1, qc, (take 5 docs), ucc, ad. split; [exact Hg|].
    rewrite Hc. simpl. eapply Tools.format_answer_safety, Hf.
  - split; [|discriminate]. intros _. now rewrite Hc.
Qed.

(** The warnings of the two redacted inputs. *)
Definition question_warnings (question : pystr) : list pystr :=
  (detect_and_mask_pii question).2.

Definition context_warnings (user_context : option pystr) : list pystr :=
  match user_context with
  | Some (c :: uc) => (detect_and_mask_pii (c :: uc)).2
  | _ => []
  end.

Lemma redact_inputs_warnings (question : pystr) (user_context : option pystr) :
  (redact_inputs question user_context).2 =
  question_warnings question ++ context_warnings user_context.
Proof.
  unfold redact_inputs, question_warnings, context_warnings.
  destruct (detect_and_mask_pii question) as [qc ws].
  destruct user_context as [[|c uc]|].
  - simpl. now rewrite app_nil_r.
  - now destruct (detect_and_mask_pii (c :: uc)).
  - simpl. now rewrite app_nil_r.
Qed.

(** C9 (as the code has it).  When the redaction produced a warning,
    the safety field is the caution prefix followed by the warnings of
    the question and then those of the user context, joined by single
    spaces.  A message occurs once among the warnings of the question
    and once among those of the context; a message that both inputs
    trigger is listed twice. *)
Theorem safety_lists_warnings (retriever : R) (llm_client : L)
    (question : pystr) (channel : option pystr) (user_context : option pystr)
    (a : Tools.Answer) (retriever' : R) (llm_client' : L) :
  process_question retriever llm_client question channel user_context
    = Some (a, retriever', llm_client') ->
  let warnings :=
    question_warnings question ++ context_warnings user_context in
  warnings <> [] ->
  Tools.safety a = JStr (caution ++ join (utf8 " ") warnings) /\
  NoDup (question_warnings question) /\
  NoDup (context_warnings user_context).
Proof.
  intros Hp warnings Hne.
  destruct (process_question_inv _ _ _ _ _ _ _ _ Hp)
    as (l1 & qc & docs & ucc & ad & fa & Hg & Hf & Hc).
  rewrite redact_inputs_warnings in Hc. fold warnings in Hc.
  split; [|split].
  - unfold calibrate in Hc.
    assert (Hs : Tools.safety (attach_safety warnings fa)
                 = JStr (caution ++ join (utf8 " ") warnings)).
    { unfold attach_safety. destruct warnings; [contradiction|reflexivity]. }
    destruct (negb (json_truthy (Tools.citations (attach_safety warnings fa)))).
    + destruct (Tools.jstartswith _ _); [|discriminate].
      simpl in Hc. injection Hc as <-. exact Hs.
    + injection Hc as <-. exact Hs.
  - apply Redactor.detect_and_mask_pii_NoDup.
  - unfold context_warnings. destruct user_context as [[|c uc]|];
      try constructor.
    apply Redactor.detect_and_mask_pii_NoDup.
Qed.

End Pipeline.

(** ** Examples *)

(** [strptime] on dates written with ASCII digits, as the corpus has
    them. *)
Fixpoint digits_value (s : pystr) (acc : N) : option N :=
  match s with
  | [] => Some acc
  | c :: s' =>
      if Redactor.ascii_digit c then digits_value s' (acc * 10 + (c - 48))%N
      else None
  end.

Definition is_leap (y : N) : bool :=
  ((y mod 4 =? 0) && negb (y mod 100 =? 0) || (y mod 400 =? 0))%N.

Definition days_in_month (y m : N) : N :=
  if (m =? 2)%N then (if is_leap y then 29 else 28)%N
  else if ((m =? 4) || (m =? 6) || (m =? 9) || (m =? 11))%N then 30%N
  else 31%N.

Definition strptime_ascii (s : pystr) : option N :=
  match split_on Redactor.hyphen s with
  | [ys; ms; ds] =>
      if ((length ys =? 4) && (1 <=? length ms) && (length ms <=? 2)
          && (1 <=? length ds) && (length ds <=? 2))%nat then
        y ← digits_value ys 0;
        m ← digits_value ms 0;
        d ← digits_value ds 0;
        if ((1 <=? y) && (1 <=? m) && (m <=? 12) && (1 <=? d)
            && (d <=? days_in_month y m))%N
        then Some ((y - 1) * 372 + (m - 1) * 31 + (d - 1))%N
        else None
      else None
  | _ => None
  end.

Definition doc_a_2023 : Result :=
  Tools.doc_of (Hybrid.passage "a1" "A" "2023-01-01" "both" "old").
Definition doc_a_2024 : Result :=
  Tools.doc_of (Hybrid.passage "a2" "A" "2024-06-01" "both" "new").
Definition doc_no_faq : Result :=
  Tools.doc_of (Hybrid.passage "c" "" "n/a" "web" "undated").
Definition doc_b_2023 : Result :=
  Tools.doc_of (Hybrid.passage "b" "B" "2023-05-05" "web" "other").

(** Of two chunks of FAQ "A" the one of 2024 survives, and the record
    without [faq_id] is kept, last for lack of a date. *)
Example resolve_conflicts_newest :
  resolve_conflicts strptime_ascii
    [doc_a_2023; doc_no_faq; doc_a_2024; doc_b_2023]
  = [doc_a_2024; doc_b_2023; doc_no_faq].
Proof. vm_compute. reflexivity. Qed.

(** A retriever that finds nothing, and one that logs the filters of
    each call and finds one document under a category filter and five
    without. *)
Definition empty_retriever : Tools.Retriever unit :=
  {| Tools.search := fun _ _ _ _ => Some ([], tt);
     Tools.rerank := fun _ results _ _ => Some (results, tt) |}.

Definition five_docs : list Result :=
  [doc_a_2023; doc_a_2024; doc_b_2023; doc_no_faq;
   Tools.doc_of (Hybrid.passage "e" "E" "2022-02-02" "both" "five")].

Definition logging_retriever : Tools.Retriever (list (option pydict)) :=
  {| Tools.search := fun log _ _ filters =>
       Some (match filters ≫= (fun f => f !! "category") with
             | Some _ => [doc_a_2024]
             | None => five_docs
             end, log ++ [filters]);
     Tools.rerank := fun log results _ _ => Some (results, log) |}.

(** A model that classifies every question as [intent], leaves the
    query as it is and answers with [answer_data]. *)
Definition fixed_llm (intent : pystr) (answer_data : gmap string json)
  : Tools.LLMClient unit :=
  {| Tools.llm_classify_intent := fun _ _ => Some (intent, tt);
     Tools.llm_rewrite_query := fun _ question _ => Some (question, tt);
     Tools.llm_generate_answer := fun _ _ _ _ => Some (answer_data, tt) |}.

Definition transfer : pystr := utf8 "이체".

(** The filtered query falls short with one document; the relaxed
    query is issued without the category, and its four new documents
    follow the first. *)
Example relaxation_retry :
  @retrieve_docs _ logging_retriever [] (utf8 "q") (Some (utf8 "web")) transfer
  = Some ([doc_a_2024; doc_a_2023; doc_b_2023; doc_no_faq;
           Tools.doc_of (Hybrid.passage "e" "E" "2022-02-02" "both" "five")],
          [Some {[ "channel" := PStr (utf8 "web");
                   "category" := PStr transfer ]};
           Some {[ "channel" := PStr (utf8 "web") ]}]).
Proof. vm_compute. reflexivity. Qed.

(** The pipeline over the redactor's ASCII and Hangul tables. *)
Abbreviation ask HR HL :=
  (@process_question Redactor.ascii_hangul_word Redactor.ascii_digit
     strptime_ascii _ _ HR HL).

Definition limit_question : pystr := utf8 "이체 한도를 늘리고 싶어요".

(** No passage matches: no citations, low confidence, and the canned
    answer. *)
Lemma no_citations_low_confidence_witness :
  exists a,
    ask empty_retriever (fixed_llm transfer ∅) tt tt limit_question None None
      = Some (a, tt, tt) /\
    Tools.citations a = JList [] /\
    Tools.confidence a = JStr (utf8 "low") /\
    Tools.answer a = JStr Tools.no_match_answer.
Proof.
  destruct (ask empty_retriever (fixed_llm transfer ∅) tt tt limit_question
              None None) as [[[a []] []]|] eqn:E;
    [|vm_compute in E; discriminate].
  exists a. split; [reflexivity|].
  assert (Hc : Tools.citations a = JList [])
    by (vm_compute in E; now injection E as <-).
  split; [exact Hc|].
  assert (Ha : Tools.answer a = JStr Tools.no_match_answer)
    by (vm_compute in E; injection E as <-; vm_compute; reflexivity).
  split; [|exact Ha].
  apply (@no_citations_low_confidence Redactor.ascii_hangul_word
           Redactor.ascii_digit strptime_ascii unit unit empty_retriever
           (fixed_llm transfer ∅) tt tt limit_question None None a tt tt E).
  now rewrite Hc.
Defined.

Definition password_text : pystr := utf8 "비밀번호: abcdef1".

(** A password in the question: the safety field carries the caution
    and the password message, and the redacted question no longer holds
    the password. *)
Lemma safety_lists_warnings_witness :
  exists a,
    ask empty_retriever (fixed_llm transfer ∅) tt tt password_text None None
      = Some (a, tt, tt) /\
    Tools.safety a =
      JStr (caution ++ Redactor.get_warning_message Redactor.password) /\
    occurrences (utf8 "abcdef1") (Redactor.redact password_text).1 = 0.
Proof.
  destruct (ask empty_retriever (fixed_llm transfer ∅) tt tt password_text
              None None) as [[[a []] []]|] eqn:E;
    [|vm_compute in E; discriminate].
  exists a. split; [reflexivity|]. split; [|vm_compute; reflexivity].
  destruct (@safety_lists_warnings Redactor.ascii_hangul_word
              Redactor.ascii_digit strptime_ascii unit unit empty_retriever
              (fixed_llm transfer ∅) tt tt password_text None None a tt tt E)
    as [H _].
  - vm_compute. discriminate.
  - rewrite H. vm_compute. reflexivity.
Defined.


(** The same question: the input is flagged, and the safety field
    carries the password message. *)
Lemma safety_follows_check_witness :
  exists a,
    ask empty_retriever (fixed_llm transfer ∅) tt tt password_text None None
      = Some (a, tt, tt) /\
    Tools.safety a
    = JStr (caution
            ++ join (utf8 " ") [Redactor.get_warning_message Redactor.password]).
Proof.
  destruct (ask empty_retriever (fixed_llm transfer ∅) tt tt password_text
              None None) as [[[a []] []]|] eqn:E;
    [|vm_compute in E; discriminate].
  exists a. split; [reflexivity|].
  pose proof (@safety_follows_check Redactor.ascii_hangul_word
                Redactor.ascii_digit strptime_ascii unit unit empty_retriever
                (fixed_llm transfer ∅) tt tt password_text None None a tt tt E)
    as H.
  assert (Ec : @check_pii_in_input Redactor.ascii_hangul_word
                 Redactor.ascii_digit password_text None
               = (true, [Redactor.get_warning_message Redactor.password]))
    by (vm_compute; reflexivity).
  rewrite Ec in H. destruct H as [H _]. exact (H eq_refl).
Defined.

(** C9 as stated: no warning message occurs twice in the safety
    field. *)
Definition safety_distinct_as_claimed : Prop :=
  forall (is_word is_digit : N -> bool) (strptime : pystr -> option N)
         (R L : Type) (HR : Tools.Retriever R) (HL : Tools.LLMClient L)
         (retriever : R) (llm_client : L) (question : pystr)
         (channel user_context : option pystr) (a : Tools.Answer)
         (retriever' : R) (llm_client' : L) (safety_message : pystr)
         (t : Redactor.pii_type),
    @process_question is_word is_digit strptime R L HR HL retriever llm_client
      question channel user_context = Some (a, retriever', llm_client') ->
    Tools.safety a = JStr safety_message ->
    occurrences (Redactor.get_warning_message t) safety_message <= 1.

(** The question and the user context both hold a password: the
    password message is listed twice.  (On the characters of this input
    the tables used agree with those of Unicode.) *)
Lemma safety_distinct_claim_fails : ~ safety_distinct_as_claimed.
Proof.
  intros H.
  destruct (ask empty_retriever (fixed_llm transfer ∅) tt tt password_text
              None (Some password_text)) as [[[a []] []]|] eqn:E;
    [|vm_compute in E; discriminate].
  assert (Hs : Tools.safety a =
               JStr (caution
                     ++ join (utf8 " ")
                          [Redactor.get_warning_message Redactor.password;
                           Redactor.get_warning_message Redactor.password]))
    by (vm_compute in E; injection E as <-; vm_compute; reflexivity).
  specialize (H _ _ _ _ _ _ _ _ _ _ _ _ _ _ _ _ Redactor.password E Hs).
  vm_compute in H. lia.
Qed.

End Orchestrator.
